(** * simple-jack: the agent execution orchestrator and its negotiators

    A shallow embedding of [src/claude/permission_handler.py],
    [src/claude/question_handler.py] and [src/claude/executor.py], and of
    the handlers of [src/bot/handlers.py] that call the two managers.

    - Python values that come from [json.loads] are modelled by [Py.JSON];
      the operations used on them ([dict.get], subscripting, iteration,
      [len], truthiness) raise the Python exceptions they raise in the
      source, through the result type [Py.Res].
    - Dictionaries and sets owned by the program are [gmap] and [gset].
    - [asyncio.Future] objects are shared between a manager and the task
      awaiting them, so each manager carries a store of futures and its
      requests hold handles into that store.
    - The external process, the file system and the callbacks are scripted
      by a [World]; a run threads the world and appends to its trace. *)

From stdpp Require Import gmap strings list fin_maps pretty sorting.
From Stdlib Require Import ZArith Ascii.

#[local] Set Warnings "-clear-no-such-hyp".

Open Scope string_scope.
Open Scope list_scope.
Open Scope Z_scope.

(** ** Python values and the exceptions of the operations used on them *)

Module Py.

#[warnings="-register-all"]
Inductive JSON :=
| JNull
| JBool (b : bool)
| JNum (n : Z)
| JStr (s : string)
| JArr (l : list JSON)
| JObj (kvs : list (string * JSON)).

Inductive Exn :=
| KeyError (k : string)
| IndexError
| AttributeError
| TypeError
| TimeoutError
| CancelledError
| OSError
| FileExistsError
| CallbackError (msg : string).

Inductive Res (A : Type) :=
| Ok (a : A)
| Raise (e : Exn).
Arguments Ok {A} a.
Arguments Raise {A} e.

#[export] Instance Res_ret : MRet Res := fun A a => Ok a.
#[export] Instance Res_bind : MBind Res := fun A B f r =>
  match r with Ok a => f a | Raise e => Raise e end.
#[export] Instance Res_fmap : FMap Res := fun A B f r =>
  match r with Ok a => Ok (f a) | Raise e => Raise e end.

(** [str(e)] as far as the source uses it (the text after the fixed prefix
    of the failure response). *)
Definition str_exn (e : Exn) : string :=
  match e with
  | KeyError k => "'" +:+ k +:+ "'"
  | IndexError => "list index out of range"
  | AttributeError => "object has no attribute 'get'"
  | TypeError => "unsupported operand"
  | TimeoutError => ""
  | CancelledError => ""
  | OSError => "No such file or directory"
  | FileExistsError => "File exists"
  | CallbackError msg => msg
  end.

(** *** Strings: UTF-8 byte strings, counted by code point as Python does *)

Definition nl : string := String (Ascii.ascii_of_nat 10) EmptyString.

Definition is_continuation (c : ascii) : bool :=
  let n := Z.of_nat (nat_of_ascii c) in (128 <=? n) && (n <? 192).

(** The code points of a UTF-8 string, each as the string of its bytes. *)
Fixpoint codepoints_aux (cur : string) (s : string) : list string :=
  match s with
  | EmptyString => match cur with EmptyString => [] | _ => [cur] end
  | String c s' =>
      if is_continuation c then codepoints_aux (cur +:+ String c EmptyString) s'
      else match cur with
           | EmptyString => codepoints_aux (String c EmptyString) s'
           | _ => cur :: codepoints_aux (String c EmptyString) s'
           end
  end.
Definition codepoints (s : string) : list string := codepoints_aux EmptyString s.

Definition str_len (s : string) : nat := length (codepoints s).

(** [s[:n]] *)
Definition str_take (n : nat) (s : string) : string :=
  String.concat "" (take n (codepoints s)).

(** [sep.join(parts)] *)
Definition join (sep : string) (parts : list string) : string :=
  String.concat sep parts.

(** [s.startswith(p)] *)
Definition startswith (p s : string) : bool := String.prefix p s.

(** [c.isspace()] on the ASCII range: tab, LF, VT, FF, CR, FS, GS, RS, US
    and space.  Whitespace code points outside ASCII take several bytes in
    UTF-8 and are not recognised by this byte-wise test. *)
Definition isspace (c : ascii) : bool :=
  let n := Z.of_nat (nat_of_ascii c) in
  ((9 <=? n) && (n <=? 13)) || ((28 <=? n) && (n <=? 32)).

Fixpoint lstrip_list (l : list ascii) : list ascii :=
  match l with
  | c :: l' => if isspace c then lstrip_list l' else l
  | [] => []
  end.

(** [s.strip()] *)
Definition strip (s : string) : string :=
  String.string_of_list_ascii
    (rev (lstrip_list (rev (lstrip_list (String.list_ascii_of_string s))))).

(** *** Truthiness, [len], [dict.get], subscripting and iteration *)

Definition truthy (v : JSON) : bool :=
  match v with
  | JNull => false
  | JBool b => b
  | JNum n => negb (n =? 0)
  | JStr s => negb (String.eqb s "")
  | JArr l => match l with [] => false | _ => true end
  | JObj kvs => match kvs with [] => false | _ => true end
  end.

Fixpoint assoc (k : string) (kvs : list (string * JSON)) : option JSON :=
  match kvs with
  | [] => None
  | (k', v) :: t => if String.eqb k k' then Some v else assoc k t
  end.

(** [v.get(k)]: [None] of Python is [JNull]; anything but a dict has no
    attribute [get]. *)
Definition get (v : JSON) (k : string) (dflt : JSON) : Res JSON :=
  match v with
  | JObj kvs => Ok (default dflt (assoc k kvs))
  | _ => Raise AttributeError
  end.

(** [v[k]] for a string key *)
Definition getitem (v : JSON) (k : string) : Res JSON :=
  match v with
  | JObj kvs => match assoc k kvs with Some x => Ok x | None => Raise (KeyError k) end
  | _ => Raise TypeError
  end.

(** [l[i]] on a Python list, negative indices counting from the end *)
Definition list_index {A} (l : list A) (i : Z) : Res A :=
  let n := Z.of_nat (length l) in
  let j := if i <? 0 then i + n else i in
  if (0 <=? j) && (j <? n)
  then match l !! Z.to_nat j with Some x => Ok x | None => Raise IndexError end
  else Raise IndexError.

(** [v[i]] for an integer index *)
Definition getitem_int (v : JSON) (i : Z) : Res JSON :=
  match v with
  | JArr l => list_index l i
  | JStr s => JStr <$> list_index (codepoints s) i
  | JObj _ => Raise (KeyError (pretty i))
  | _ => Raise TypeError
  end.

(** [len(v)] *)
Definition len (v : JSON) : Res nat :=
  match v with
  | JArr l => Ok (length l)
  | JStr s => Ok (str_len s)
  | JObj kvs => Ok (length kvs)
  | _ => Raise TypeError
  end.

(** The items a [for] loop over [v] visits. *)
Definition iter (v : JSON) : Res (list JSON) :=
  match v with
  | JArr l => Ok l
  | JStr s => Ok (JStr <$> codepoints s)
  | JObj kvs => Ok ((fun kv => JStr kv.1) <$> kvs)
  | _ => Raise TypeError
  end.

Definition as_str (v : JSON) : Res string :=
  match v with JStr s => Ok s | _ => Raise TypeError end.

(** [e1 or e2] *)
Definition or_else (a b : JSON) : JSON := if truthy a then a else b.

(** A comprehension or loop body that may raise, run left to right. *)
Fixpoint mapM {A B} (f : A -> Res B) (l : list A) : Res (list B) :=
  match l with
  | [] => Ok []
  | x :: t => y ← f x; ys ← mapM f t; Ok (y :: ys)
  end.

Fixpoint filterM {A} (f : A -> Res bool) (l : list A) : Res (list A) :=
  match l with
  | [] => Ok []
  | x :: t => b ← f x; ys ← filterM f t; Ok (if (b : bool) then x :: ys else ys)
  end.

(** [v.keys()] *)
Definition keys (v : JSON) : Res (list string) :=
  match v with
  | JObj kvs => Ok (kvs.*1)
  | _ => Raise AttributeError
  end.

(** [repr(v)]; escapes inside strings are not modelled. *)
Fixpoint repr (v : JSON) : string :=
  match v with
  | JNull => "None"
  | JBool true => "True"
  | JBool false => "False"
  | JNum n => pretty n
  | JStr s => "'" +:+ s +:+ "'"
  | JArr l => "[" +:+ String.concat ", " (List.map repr l) +:+ "]"
  | JObj kvs =>
      "{" +:+ String.concat ", "
                (List.map (fun kv => match kv with
                                     | (k, x) => "'" +:+ k +:+ "': " +:+ repr x
                                     end) kvs) +:+ "}"
  end.

(** [str(v)], the text an f-string puts for [v] *)
Definition str (v : JSON) : string :=
  match v with
  | JStr s => s
  | _ => repr v
  end.

(** [list(dict.fromkeys(l))]: duplicates dropped, first occurrences kept in
    order. *)
Fixpoint fromkeys (l : list string) : list string :=
  match l with
  | [] => []
  | x :: t => x :: List.filter (fun y => negb (String.eqb x y)) (fromkeys t)
  end.

(** [sep.join(v)] for a JSON value [v] *)
Definition join_json (sep : string) (v : JSON) : Res string :=
  items ← iter v; parts ← mapM as_str items; Ok (join sep parts).

(** A one-shot completion cell ([asyncio.Future]).  A future is cancelled
    from outside the managers, by the [asyncio.wait_for] of the task that
    awaits it when its timeout expires; [done()] holds of a cancelled
    future as of a completed one. *)
Inductive Future (A : Type) :=
| Pending
| Done (result : A)
| Cancelled.
Arguments Pending {A}.
Arguments Done {A} result.
Arguments Cancelled {A}.

Definition done {A} (f : option (Future A)) : bool :=
  match f with Some (Done _) | Some Cancelled => true | _ => false end.

End Py.
Import Py.

(** ** permission_handler.py *)

Module PermissionManager.

Record PermissionRequest := {
  tool_name : string;
  tool_input : JSON;
  request_id : string;
  response_future : nat;
}.

(** [_pending] is the dictionary of the source; [futures] holds the outcome
    slot of every request created so far, pending or not. *)
Record t := {
  _pending : gmap string PermissionRequest;
  futures : gmap nat (Future bool);
}.

Definition init : t := {| _pending := ∅; futures := ∅ |}.

Definition set_result (f : nat) (v : bool) (m : t) : t :=
  {| _pending := _pending m; futures := <[f := Done v]> (futures m) |}.

Definition pop (rid : string) (m : t) : t :=
  {| _pending := delete rid (_pending m); futures := futures m |}.

Definition create_request (tool_name : string) (tool_input : JSON)
    (request_id : string) (m : t) : PermissionRequest * t :=
  let future := fresh (dom (futures m)) in
  let request := {| tool_name := tool_name; tool_input := tool_input;
                    request_id := request_id; response_future := future |} in
  (request, {| _pending := <[request_id := request]> (_pending m);
               futures := <[future := Pending]> (futures m) |}).

Definition resolve (request_id : string) (approved : bool) (m : t) : bool * t :=
  match _pending m !! request_id with
  | None => (false, m)
  | Some request =>
      let m := pop request_id m in
      if done (futures m !! response_future request)
      then (true, m)
      else (true, set_result (response_future request) approved m)
  end.

Definition cancel (request_id : string) (m : t) : t :=
  match _pending m !! request_id with
  | None => m
  | Some req =>
      let m := pop request_id m in
      if done (futures m !! response_future req) then m
      else set_result (response_future req) false m
  end.

Definition cancel_all (m : t) : t :=
  let futures' :=
    map_fold (fun _ req fs =>
                if done (fs !! response_future req) then fs
                else <[response_future req := Done false]> fs)
             (futures m) (_pending m) in
  {| _pending := ∅; futures := futures' |}.

(** A manager with one pending request. *)
Definition m_bash : t :=
  (create_request "Bash" (JObj [("command", JStr "ls")]) "r1" init).2.

(** The calls made on the manager, and a sequence of them run in order. *)
Inductive Op :=
| CreateRequest (tool_name : string) (tool_input : JSON) (request_id : string)
| Resolve (request_id : string) (approved : bool)
| Cancel (request_id : string)
| CancelAll.

Definition run_op (m : t) (o : Op) : t :=
  match o with
  | CreateRequest tool_name tool_input request_id =>
      (create_request tool_name tool_input request_id m).2
  | Resolve request_id approved => (resolve request_id approved m).2
  | Cancel request_id => cancel request_id m
  | CancelAll => cancel_all m
  end.

Definition run_ops (ops : list Op) (m : t) : t := foldl run_op m ops.

(** Some pending request waits on the future [f]. *)
Definition awaited (m : t) (f : nat) : Prop :=
  exists rid req, _pending m !! rid = Some req /\ response_future req = f.

End PermissionManager.

(** ** question_handler.py *)

Module QuestionManager.

Record QuestionRequest := {
  request_id : string;
  questions : list JSON;
  (* question_idx -> collected answer string *)
  answers : gmap Z string;
  (* question_idx -> set of selected option indices *)
  multi_selections : gmap Z (gset Z);
  (* handle of the future resolved when all questions are answered *)
  response_future : nat;
  awaiting_text : gmap Z bool;
}.

Definition all_answered (r : QuestionRequest) : bool :=
  bool_decide (size (answers r) = List.length (questions r)).

(** [_pending] and [_awaiting_text] are the dictionaries of the source;
    [futures] holds the outcome slot of every request created so far.  A
    slot is completed with [Some answers] by [set_answer] and with [None]
    by [cancel]. *)
Record t := {
  _pending : gmap string QuestionRequest;
  _awaiting_text : gmap Z (string * Z);
  futures : gmap nat (Future (option (gmap Z string)));
}.

Definition init : t := {| _pending := ∅; _awaiting_text := ∅; futures := ∅ |}.

Definition with_pending (p : gmap string QuestionRequest) (m : t) : t :=
  {| _pending := p; _awaiting_text := _awaiting_text m; futures := futures m |}.

Definition set_result (f : nat) (v : option (gmap Z string)) (m : t) : t :=
  {| _pending := _pending m; _awaiting_text := _awaiting_text m;
     futures := <[f := Done v]> (futures m) |}.

Definition with_answers (a : gmap Z string) (r : QuestionRequest) : QuestionRequest :=
  {| request_id := request_id r; questions := questions r; answers := a;
     multi_selections := multi_selections r;
     response_future := response_future r; awaiting_text := awaiting_text r |}.

Definition with_multi_selections (s : gmap Z (gset Z)) (r : QuestionRequest)
    : QuestionRequest :=
  {| request_id := request_id r; questions := questions r; answers := answers r;
     multi_selections := s;
     response_future := response_future r; awaiting_text := awaiting_text r |}.

Definition create_request (request_id : string) (questions : list JSON) (m : t)
    : QuestionRequest * t :=
  let future := fresh (dom (futures m)) in
  let request := {| request_id := request_id; questions := questions;
                    answers := ∅; multi_selections := ∅;
                    response_future := future; awaiting_text := ∅ |} in
  (request, {| _pending := <[request_id := request]> (_pending m);
               _awaiting_text := _awaiting_text m;
               futures := <[future := Pending]> (futures m) |}).

Definition get_request (request_id : string) (m : t) : option QuestionRequest :=
  _pending m !! request_id.

(** Set answer for a single question. Returns True if all questions answered. *)
Definition set_answer (request_id : string) (question_idx : Z) (answer : string)
    (m : t) : bool * t :=
  match _pending m !! request_id with
  | None => (false, m)
  | Some request =>
      let request := with_answers (<[question_idx := answer]> (answers request)) request in
      let m := with_pending (<[request_id := request]> (_pending m)) m in
      if all_answered request && negb (done (futures m !! response_future request))
      then
        let m := set_result (response_future request) (Some (answers request)) m in
        (true, with_pending (delete request_id (_pending m)) m)
      else (false, m)
  end.

(** Toggle an option in multiSelect mode. Returns current selections. *)
Definition toggle_multi_select (request_id : string) (question_idx option_idx : Z)
    (m : t) : gset Z * t :=
  match _pending m !! request_id with
  | None => (∅, m)
  | Some request =>
      let selections :=
        match multi_selections request !! question_idx with
        | None => ∅
        | Some s => s
        end in
      let selections :=
        if bool_decide (option_idx ∈ selections)
        then selections ∖ {[option_idx]}
        else selections ∪ {[option_idx]} in
      let request :=
        with_multi_selections
          (<[question_idx := selections]> (multi_selections request)) request in
      (selections, with_pending (<[request_id := request]> (_pending m)) m)
  end.

Definition NOTHING_SELECTED : string := "(ничего не выбрано)".

(** [[options[i]["label"] for i in sorted(selections) if i < len(options)]] *)
Fixpoint selected_labels (options : JSON) (sorted_selections : list Z)
    : Res (list JSON) :=
  match sorted_selections with
  | [] => Ok []
  | i :: rest =>
      n ← len options;
      if i <? Z.of_nat n
      then opt ← getitem_int options i;
           label ← getitem opt "label";
           labels ← selected_labels options rest;
           Ok (label :: labels)
      else selected_labels options rest
  end.

(** Finalize multiSelect answer. Returns True if all questions answered. *)
Definition finalize_multi_select (request_id : string) (question_idx : Z) (m : t)
    : Res (bool * t) :=
  match _pending m !! request_id with
  | None => Ok (false, m)
  | Some request =>
      let selections :=
        match multi_selections request !! question_idx with
        | None => ∅
        | Some s => s
        end in
      question ← list_index (questions request) question_idx;
      options ← get question "options" (JArr []);
      labels ← selected_labels options (merge_sort Z.le (elements selections));
      answer ← match labels with
               | [] => Ok NOTHING_SELECTED
               | _ => join ", " <$> mapM as_str labels
               end;
      Ok (set_answer request_id question_idx answer m)
  end.

Definition set_awaiting_text (chat_id : Z) (request_id : string) (question_idx : Z)
    (m : t) : t :=
  {| _pending := _pending m;
     _awaiting_text := <[chat_id := (request_id, question_idx)]> (_awaiting_text m);
     futures := futures m |}.

Definition get_awaiting_text (chat_id : Z) (m : t) : option (string * Z) :=
  _awaiting_text m !! chat_id.

Definition clear_awaiting_text (chat_id : Z) (m : t) : t :=
  {| _pending := _pending m;
     _awaiting_text := delete chat_id (_awaiting_text m);
     futures := futures m |}.

(** Cancel a specific pending request. *)
Definition cancel (request_id : string) (m : t) : t :=
  match _pending m !! request_id with
  | None => m
  | Some req =>
      let m := with_pending (delete request_id (_pending m)) m in
      if done (futures m !! response_future req) then m
      else set_result (response_future req) None m
  end.

Definition cancel_all (m : t) : t :=
  let futures' :=
    map_fold (fun _ req fs =>
                if done (fs !! response_future req) then fs
                else <[response_future req := Done None]> fs)
             (futures m) (_pending m) in
  {| _pending := ∅; _awaiting_text := ∅; futures := futures' |}.

(** The calls the transport layer makes on one request, and their effect on
    the manager; a call that raises leaves the manager as it was. *)
Inductive Call :=
| SetAnswer (question_idx : Z) (answer : string)
| ToggleMultiSelect (question_idx option_idx : Z)
| FinalizeMultiSelect (question_idx : Z).

Definition call_index (c : Call) : Z :=
  match c with
  | SetAnswer i _ => i
  | ToggleMultiSelect i _ => i
  | FinalizeMultiSelect i => i
  end.

Definition do_call (request_id : string) (m : t) (c : Call) : t :=
  match c with
  | SetAnswer i a => (set_answer request_id i a m).2
  | ToggleMultiSelect i o => (toggle_multi_select request_id i o m).2
  | FinalizeMultiSelect i =>
      match finalize_multi_select request_id i m with
      | Ok (_, m') => m'
      | Raise _ => m
      end
  end.

Definition do_calls (request_id : string) (cs : list Call) (m : t) : t :=
  foldl (do_call request_id) m cs.

(** The selection set of a question as [finalize_multi_select] reads it:
    [multi_selections.get(question_idx, set())]. *)
Definition selections_of (m : t) (request_id : string) (question_idx : Z) : gset Z :=
  match _pending m !! request_id with
  | None => ∅
  | Some request =>
      match multi_selections request !! question_idx with
      | None => ∅
      | Some s => s
      end
  end.

(** The manager [m] with the selection entry of question [qi] of request
    [rid] written with the set it already stands for. *)
Definition entry_made (m : t) (rid : string) (qi : Z) : t :=
  match _pending m !! rid with
  | None => m
  | Some r =>
      with_pending
        (<[rid := with_multi_selections
                    (<[qi := selections_of m rid qi]> (multi_selections r)) r]>
           (_pending m)) m
  end.

(** A request with one multi-select question, option 1 selected. *)
Definition q_colour : JSON :=
  JObj [("question", JStr "Colour?"); ("multiSelect", JBool true);
        ("options", JArr [JObj [("label", JStr "red")]; JObj [("label", JStr "blue")]])].

Definition m_toggled : t :=
  (toggle_multi_select "q1" 0 1 (create_request "q1" [q_colour] init).2).2.

(** Every question index of a list of [n] questions has an answer. *)
Definition answered_all (n : nat) (ans : gmap Z string) : Prop :=
  forall i : Z, 0 <= i < Z.of_nat n -> is_Some (ans !! i).

(** The outcome future [f] is completed with the answer map [ans]. *)
Definition completed_with (m : t) (f : nat) (ans : gmap Z string) : Prop :=
  futures m !! f = Some (Done (Some ans)).

(** The answers collected for request [rid] with future [f]: those of the
    pending request, or those delivered to the future once it is
    resolved. *)
Definition collected (m : t) (rid : string) (f : nat) : gmap Z string :=
  match _pending m !! rid with
  | Some r => answers r
  | None =>
      match futures m !! f with
      | Some (Done (Some ans)) => ans
      | _ => ∅
      end
  end.

(** Two questions; the second answer is filed under an index that is not
    in the list. *)
Definition q_plain : JSON := JObj [("question", JStr "Name?")].
Definition calls_out_of_range : list Call := [SetAnswer 0 "a"; SetAnswer 5 "b"].
Definition calls_in_range : list Call :=
  [SetAnswer 1 "b"; ToggleMultiSelect 0 1; FinalizeMultiSelect 0].

Definition keys_in_range (n : nat) (ans : gmap Z string) : Prop :=
  forall i : Z, is_Some (ans !! i) -> 0 <= i < Z.of_nat n.

(** The state of request [rid] with future [f] and [n] questions: pending
    with some question unanswered, or resolved with every question
    answered. *)
Inductive status (rid : string) (f n : nat) (m : t) : Prop :=
| status_pending r :
    _pending m !! rid = Some r ->
    response_future r = f ->
    List.length (questions r) = n ->
    futures m !! f = Some Pending ->
    keys_in_range n (answers r) ->
    ~ answered_all n (answers r) ->
    status rid f n m
| status_resolved ans :
    _pending m !! rid = None ->
    futures m !! f = Some (Done (Some ans)) ->
    answered_all n ans ->
    status rid f n m.

(** The calls made on the manager, those of [Call] with the request they
    are made on, and a sequence of them run in order. *)
Inductive Op :=
| CreateRequest (request_id : string) (questions : list JSON)
| OnRequest (request_id : string) (c : Call)
| SetAwaitingText (chat_id : Z) (request_id : string) (question_idx : Z)
| ClearAwaitingText (chat_id : Z)
| Cancel (request_id : string)
| CancelAll.

Definition run_op (m : t) (o : Op) : t :=
  match o with
  | CreateRequest request_id questions => (create_request request_id questions m).2
  | OnRequest request_id c => do_call request_id m c
  | SetAwaitingText chat_id request_id question_idx =>
      set_awaiting_text chat_id request_id question_idx m
  | ClearAwaitingText chat_id => clear_awaiting_text chat_id m
  | Cancel request_id => cancel request_id m
  | CancelAll => cancel_all m
  end.

Definition run_ops (ops : list Op) (m : t) : t := foldl run_op m ops.

(** Some pending request waits on the future [f]. *)
Definition awaited (m : t) (f : nat) : Prop :=
  exists rid req, _pending m !! rid = Some req /\ response_future req = f.

(** The labels of the options [opts] at the indices [idxs]. *)
Definition labels_at (labels : list string) (idxs : list Z) : list string :=
  omap (fun i => labels !! Z.to_nat i) idxs.

(** A question with three options, the last and the first selected in
    that order. *)
Definition q_sizes : JSON :=
  JObj [("question", JStr "Sizes?"); ("multiSelect", JBool true);
        ("options", JArr [JObj [("label", JStr "small")];
                          JObj [("label", JStr "medium")];
                          JObj [("label", JStr "large")]])].

Definition m_sizes : t :=
  (toggle_multi_select "q2" 0 0
     (toggle_multi_select "q2" 0 2 (create_request "q2" [q_sizes; q_plain] init).2).2).2.

(** Every call on the id [rid] leaves the manager [m] as it is and
    reports that nothing was done. *)
Definition ignores (m : t) (rid : string) : Prop :=
  forall i a o,
    set_answer rid i a m = (false, m)
    /\ toggle_multi_select rid i o m = (∅, m)
    /\ finalize_multi_select rid i m = Ok (false, m)
    /\ cancel rid m = m.

End QuestionManager.

(** ** executor.py *)

Module Executor.

Definition MAX_PERMISSION_RETRIES : nat := 5.

(** *** The workspace directory and its snapshot *)

(** A directory tree: what [os.walk] sees.  Symbolic links are not
    modelled. *)
#[warnings="-register-all"]
Inductive Node :=
| File
| Dir (entries : list (string * Node)).

(** A [pathlib.Path], as its [parts]. *)
Abbreviation Path := (list string).

Definition _SKIP_DIRS : list string :=
  [".git"; "node_modules"; "__pycache__"; ".venv"; ".claude"].

Definition skip_dir (d : string) : bool := bool_decide (d ∈ _SKIP_DIRS).

(** The files [os.walk(dirpath)] reports, with the pruning of [dirnames]
    done by [get_workspace_files]. *)
Fixpoint walk (dirpath : Path) (n : Node) {struct n} : list Path :=
  match n with
  | File => []
  | Dir entries =>
      (fix scan (es : list (string * Node)) : list Path :=
         match es with
         | [] => []
         | (name, child) :: rest =>
             match child with
             | File => (dirpath ++ [name]) :: scan rest
             | Dir _ =>
                 (if skip_dir name then [] else walk (dirpath ++ [name]) child)
                   ++ scan rest
             end
         end) entries
  end.

(** Get set of all files in workspace directory, skipping large/internal
    dirs.  [None] is a workspace directory that does not exist. *)
Definition get_workspace_files (workspace_dir : Path) (fs : option Node)
    : gset Path :=
  match fs with
  | None => ∅
  | Some n => list_to_set (walk workspace_dir n)
  end.

(** [name.rfind('.')], counting from [pos] *)
Fixpoint rfind_dot (name : string) (pos : nat) : option nat :=
  match name with
  | EmptyString => None
  | String c rest =>
      match rfind_dot rest (S pos) with
      | Some i => Some i
      | None => if Ascii.eqb c "."%char then Some pos else None
      end
  end.

(** [PurePath.suffix] of a file name *)
Definition name_suffix (name : string) : string :=
  match rfind_dot name 0 with
  | Some i =>
      if ((0 <? i) && (i <? String.length name - 1))%nat
      then String.substring i (String.length name - i) name
      else ""
  | None => ""
  end.

Definition suffix (f : Path) : string :=
  match last f with
  | Some name => name_suffix name
  | None => ""
  end.

(** The filter of [execute_claude] on the created files. *)
Definition keep_created (f : Path) : bool :=
  negb (existsb (startswith ".claude") f)
  && negb (bool_decide (suffix f ∈ [".log"; ".tmp"])).

(** *** Reading the events *)

(** [v == s] for a string literal [s] *)
Definition is_str (v : JSON) (s : string) : bool :=
  match v with
  | JStr s' => String.eqb s' s
  | _ => false
  end.

(** Extract permission denials from result event. *)
Fixpoint _get_permission_denials (events : list JSON) : Res JSON :=
  match events with
  | [] => Ok (JArr [])
  | event :: rest =>
      ty ← get event "type" JNull;
      if is_str ty "result"
      then get event "permission_denials" (JArr [])
      else _get_permission_denials rest
  end.

(** Extract result text from the result event. *)
Fixpoint _get_result_text (events : list JSON) : Res JSON :=
  match events with
  | [] => Ok (JStr "")
  | event :: rest =>
      ty ← get event "type" JNull;
      if is_str ty "result"
      then r ← get event "result" (JStr ""); Ok (or_else r (JStr ""))
      else _get_result_text rest
  end.

(** The inner loop of [_extract_text_from_events] on one assistant event:
    the values [block["text"]] of its text blocks. *)
Definition assistant_text_parts (event : JSON) : Res (list JSON) :=
  message ← get event "message" (JObj []);
  content ← get message "content" (JArr []);
  blocks ← iter content;
  parts ← mapM (fun block =>
                  ty ← get block "type" JNull;
                  if is_str ty "text"
                  then t ← getitem block "text"; Ok [t]
                  else Ok []) blocks;
  Ok (concat parts).

Fixpoint _extract_text_from_events_loop (events : list JSON) (text_parts : list JSON)
    : Res (list JSON) :=
  match events with
  | [] => Ok text_parts
  | event :: rest =>
      ty ← get event "type" JNull;
      if is_str ty "assistant"
      then parts ← assistant_text_parts event;
           _extract_text_from_events_loop rest (text_parts ++ parts)
      else if is_str ty "result"
      then (* Use result text if available and we have no assistant text *)
           result_text ← get event "result" (JStr "");
           if truthy result_text && negb (truthy (JArr text_parts))
           then _extract_text_from_events_loop rest (text_parts ++ [result_text])
           else _extract_text_from_events_loop rest text_parts
      else _extract_text_from_events_loop rest text_parts
  end.

(** Extract accumulated text from stream-json events. *)
Definition _extract_text_from_events (events : list JSON) : Res string :=
  text_parts ← _extract_text_from_events_loop events [];
  join_json "" (JArr text_parts).

(** *** Tool actions *)

(** A tool action performed by Claude.  [summary] is a string whenever the
    tool input holds strings. *)
Record ToolAction := {
  tool_name : string;
  summary : JSON;
}.

(** The summary of one [tool_use] block, or [None] for the tools the log
    skips. *)
Definition tool_summary (tool_name tool_input : JSON) : Res (option (string * JSON)) :=
  if is_str tool_name "Bash" then
    cmd ← get tool_input "command" (JStr "");
    desc ← get tool_input "description" (JStr "");
    if truthy desc then Ok (Some ("Bash", desc))
    else
      n ← len cmd;
      if (80 <? n)%nat
      then match cmd with
           | JStr s => Ok (Some ("Bash", JStr (str_take 80 s +:+ "...")))
           | _ => Raise TypeError
           end
      else Ok (Some ("Bash", cmd))
  else if is_str tool_name "Read" || is_str tool_name "Glob" || is_str tool_name "Grep" then
    file_path ← get tool_input "file_path" (JStr "");
    path ← (if truthy file_path then Ok file_path
            else get tool_input "path" (JStr ""));
    pattern ← get tool_input "pattern" (JStr "");
    Ok (Some (match tool_name with JStr s => s | _ => "" end, or_else path pattern))
  else if is_str tool_name "Write" || is_str tool_name "Edit" then
    path ← get tool_input "file_path" (JStr "");
    Ok (Some (match tool_name with JStr s => s | _ => "" end, path))
  else if is_str tool_name "Task" then
    s ← get tool_input "description" (JStr "subtask");
    Ok (Some ("Task", s))
  else Ok None.  (* Skip less interesting tools *)

Definition block_tool_actions (block : JSON) : Res (list ToolAction) :=
  ty ← get block "type" JNull;
  if negb (is_str ty "tool_use") then Ok []
  else
    tool_name ← get block "name" (JStr "");
    tool_input ← get block "input" (JObj []);
    s ← tool_summary tool_name tool_input;
    match s with
    | Some (name, summary) =>
        if truthy summary
        then Ok [{| tool_name := name; summary := summary |}]
        else Ok []
    | None => Ok []
    end.

(** Extract tool use actions from assistant events for activity log. *)
Fixpoint _extract_tool_actions (events : list JSON) : Res (list ToolAction) :=
  match events with
  | [] => Ok []
  | event :: rest =>
      ty ← get event "type" JNull;
      if negb (is_str ty "assistant") then _extract_tool_actions rest
      else
        message ← get event "message" (JObj []);
        content ← get message "content" (JArr []);
        blocks ← iter content;
        actions ← mapM block_tool_actions blocks;
        more ← _extract_tool_actions rest;
        Ok (concat actions ++ more)
  end.

(** *** The world: processes, callbacks, file system, trace *)

(** One line of standard output after [decode] and [strip]: empty, not
    JSON, or the value [json.loads] returns. *)
Inductive Line :=
| Blank
| NonJson
| Json (event : JSON).

(** The outcome of one [readline] on standard output: a line read at time
    [now] (seconds), end of stream, no line for [read_timeout], or the
    whole-run limit [MAX_PROCESS_WALL_CLOCK] expiring during the wait. *)
Inductive Read :=
| ReadLine (now : Z) (line : Line)
| ReadEof
| ReadTimeout
| WallClock.

Inductive StderrEnd :=
| ErrEof
| ErrTimeout
| ErrWallClock.

(** The behaviour of one spawned process.  Each read of [stdout] comes with
    the value of [stop_event and stop_event.is_set()] polled before it; a
    script that runs out stands for end of stream.  [workspace_after] is
    the workspace directory the process leaves behind. *)
Record ProcScript := {
  stdout : list (bool * Read);
  stderr : list string;
  stderr_end : StderrEnd;
  returncode : Z;
  workspace_after : option Node;
}.

Inductive Effect :=
| Spawn (cmd : list string) (cwd : list string)
| Kill
| Wait
| OutputUpdate (text : string)
| AskQuestion (tool_input : JSON)
| AskPermission (denials : list JSON)
| Sleep (delay : Z).

(** A callback of the transport layer: its result on its [n]-th call. *)
Definition Callback (A B : Type) : Type := nat -> A -> Res B.

Record World := {
  procs : list ProcScript;      (* the processes still to be spawned *)
  fs : option Node;             (* the workspace directory *)
  u_calls : nat;                (* calls made to on_output_update *)
  q_calls : nat;                (* calls made to on_question *)
  p_calls : nat;                (* calls made to on_permission_request *)
  trace : list Effect;          (* what was done, oldest first *)
}.

(** Computations that change the world and may raise. *)
Definition M (A : Type) : Type := World -> Res A * World.

#[export] Instance M_ret : MRet M := fun A a w => (Ok a, w).
#[export] Instance M_bind : MBind M := fun A B f c w =>
  match c w with
  | (Ok a, w') => f a w'
  | (Raise e, w') => (Raise e, w')
  end.

#[export] Instance M_fmap : FMap M := fun A B f c w =>
  match c w with
  | (Ok a, w') => (Ok (f a), w')
  | (Raise e, w') => (Raise e, w')
  end.

Definition raise {A} (e : Exn) : M A := fun w => (Raise e, w).

(** [try: ... except Exception as e:] around [c] *)
Definition try_ {A} (c : M A) : M (Res A) := fun w =>
  match c w with (r, w') => (Ok r, w') end.

Definition lift {A} (r : Res A) : M A := fun w => (r, w).

Definition emit (e : Effect) : M unit := fun w =>
  (Ok tt, {| procs := procs w; fs := fs w; u_calls := u_calls w;
             q_calls := q_calls w; p_calls := p_calls w;
             trace := trace w ++ [e] |}).

Definition call_output_update (f : Callback string unit) (text : string) : M unit :=
  fun w =>
    (f (u_calls w) text,
     {| procs := procs w; fs := fs w; u_calls := S (u_calls w);
        q_calls := q_calls w; p_calls := p_calls w;
        trace := trace w ++ [OutputUpdate text] |}).

Definition call_question {B} (f : Callback JSON B) (tool_input : JSON) : M B :=
  fun w =>
    (f (q_calls w) tool_input,
     {| procs := procs w; fs := fs w; u_calls := u_calls w;
        q_calls := S (q_calls w); p_calls := p_calls w;
        trace := trace w ++ [AskQuestion tool_input] |}).

Definition call_permission {B} (f : Callback (list JSON) B) (denials : list JSON) : M B :=
  fun w =>
    (f (p_calls w) denials,
     {| procs := procs w; fs := fs w; u_calls := u_calls w;
        q_calls := q_calls w; p_calls := S (p_calls w);
        trace := trace w ++ [AskPermission denials] |}).

(** [asyncio.create_subprocess_exec]: the next scripted process, or
    [OSError] when the executable cannot be started. *)
Definition create_subprocess_exec (cmd : list string) (cwd : Path) : M ProcScript := fun w =>
  match procs w with
  | [] => (Raise OSError, w)
  | p :: rest =>
      (Ok p, {| procs := rest; fs := fs w; u_calls := u_calls w;
                q_calls := q_calls w; p_calls := p_calls w;
                trace := trace w ++ [Spawn cmd cwd] |})
  end.

(** [process.kill()] *)
Definition kill : M unit := emit Kill.

(** [await process.wait()]: the process is gone and the workspace is as it
    left it. *)
Definition wait (p : ProcScript) : M unit := fun w =>
  (Ok tt, {| procs := procs w; fs := workspace_after p; u_calls := u_calls w;
             q_calls := q_calls w; p_calls := p_calls w;
             trace := trace w ++ [Wait] |}).

(** [workspace_dir.mkdir(parents=True, exist_ok=True)] *)
Definition mkdir : M unit := fun w =>
  match fs w with
  | None => (Ok tt, {| procs := procs w; fs := Some (Dir []); u_calls := u_calls w;
                       q_calls := q_calls w; p_calls := p_calls w;
                       trace := trace w |})
  | Some File => (Raise FileExistsError, w)
  | Some (Dir _) => (Ok tt, w)
  end.

Definition snapshot (workspace_dir : Path) : M (gset Path) := fun w =>
  (Ok (get_workspace_files workspace_dir (fs w)), w).

(** Retry an async function with exponential backoff.  [None] is the value
    of the function when the loop makes no attempt. *)
Fixpoint retry_async {A} (func : M A) (max_retries : nat) (delay backoff : Z)
    : M (option A) :=
  match max_retries with
  | O => mret None
  | S remaining =>
      r ← try_ func;
      match r with
      | Ok a => mret (Some a)
      | Raise e =>
          match remaining with
          | O => raise e
          | S _ => emit (Sleep delay);;
                   retry_async func remaining (delay * backoff) backoff
          end
      end
  end.

(** *** One process run *)

Definition MSG_NO_OUTPUT : string := "Claude CLI не отвечает (10 минут без вывода)".
Definition MSG_WALL_CLOCK : string := "Claude CLI превысил лимит времени (30 минут)".
Definition MSG_STOPPED : string := "Остановлено пользователем".

Definition update_interval : Z := 2.

(** The variables of [_run_claude_process_inner] that [read_stdout]
    assigns. *)
Record Reader := {
  events : list JSON;
  accumulated_text : string;
  last_update_time : Z;
  was_stopped : bool;
}.

Definition reader_init : Reader :=
  {| events := []; accumulated_text := ""; last_update_time := 0;
     was_stopped := false |}.

(** The tuple a process run returns:
    [(events, accumulated_text, exit_code, error, was_stopped)]. *)
Record RunResult := {
  run_events : list JSON;
  run_text : string;
  run_exit_code : Z;
  run_error : option string;
  run_was_stopped : bool;
}.

(** The body of [for block in message_obj.get("content", [])]: the reader
    after the block, and the exception that left the loop if any.  The
    clock is the one of the line's arrival: [time.time()] is taken not to
    advance between the blocks of one event. *)
Definition read_block (on_output_update : option (Callback string unit)) (now : Z)
    (st : Reader) (block : JSON) : M (Reader * option Exn) :=
  match get block "type" JNull with
  | Raise e => mret (st, Some e)
  | Ok ty =>
      if negb (is_str ty "text") then mret (st, None)
      else
        match t ← getitem block "text"; as_str t with
        | Raise e => mret (st, Some e)
        | Ok s =>
            let st := {| events := events st;
                         accumulated_text := accumulated_text st +:+ s;
                         last_update_time := last_update_time st;
                         was_stopped := was_stopped st |} in
            match on_output_update with
            | None => mret (st, None)
            | Some f =>
                let current_time := now in
                if update_interval <=? current_time - last_update_time st
                then
                  r ← try_ (call_output_update f (accumulated_text st));
                  match r with
                  | Ok _ =>
                      mret ({| events := events st;
                               accumulated_text := accumulated_text st;
                               last_update_time := current_time;
                               was_stopped := was_stopped st |}, None)
                  | Raise _ => mret (st, None)
                  end
                else mret (st, None)
            end
        end
  end.

Fixpoint read_blocks (on_output_update : option (Callback string unit)) (now : Z)
    (st : Reader) (blocks : list JSON) : M (Reader * option Exn) :=
  match blocks with
  | [] => mret (st, None)
  | block :: rest =>
      '(st, e) ← read_block on_output_update now st block;
      match e with
      | Some _ => mret (st, e)
      | None => read_blocks on_output_update now st rest
      end
  end.

(** What [read_stdout] does with one parsed event. *)
Definition read_event (on_output_update : option (Callback string unit)) (now : Z)
    (st : Reader) (event : JSON) : M (Reader * option Exn) :=
  let st := {| events := events st ++ [event];
               accumulated_text := accumulated_text st;
               last_update_time := last_update_time st;
               was_stopped := was_stopped st |} in
  match get event "type" JNull with
  | Raise e => mret (st, Some e)
  | Ok ty =>
      if negb (is_str ty "assistant") then mret (st, None)
      else
        match message_obj ← get event "message" (JObj []);
              content ← get message_obj "content" (JArr []);
              iter content with
        | Raise e => mret (st, Some e)
        | Ok blocks => read_blocks on_output_update now st blocks
        end
  end.

(** [read_stdout]: the reader when the loop is left, and the exception that
    left it if any ([TimeoutError] of the read, [CancelledError] of the
    whole-run limit, or one raised by an event of unexpected shape). *)
Fixpoint read_stdout (on_output_update : option (Callback string unit))
    (reads : list (bool * Read)) (st : Reader) : M (Reader * option Exn) :=
  match reads with
  | [] => mret (st, None)
  | (stop_set, r) :: rest =>
      if stop_set
      then mret ({| events := events st;
                    accumulated_text := accumulated_text st;
                    last_update_time := last_update_time st;
                    was_stopped := true |}, None)
      else
        match r with
        | ReadEof => mret (st, None)
        | ReadTimeout => mret (st, Some TimeoutError)
        | WallClock => mret (st, Some CancelledError)
        | ReadLine now Blank => read_stdout on_output_update rest st
        | ReadLine now NonJson => read_stdout on_output_update rest st
        | ReadLine now (Json event) =>
            '(st, e) ← read_event on_output_update now st event;
            match e with
            | Some _ => mret (st, e)
            | None => read_stdout on_output_update rest st
            end
        end
  end.

(** The final update of a run: [if on_output_update and accumulated_text]. *)
Definition flush_output (on_output_update : option (Callback string unit))
    (accumulated_text : string) : M unit :=
  match on_output_update with
  | Some f =>
      if negb (String.eqb accumulated_text "")
      then _ ← try_ (call_output_update f accumulated_text); mret tt
      else mret tt
  | None => mret tt
  end.

(** The first [result] event flagged [is_error], as an error text. *)
Fixpoint structured_error (events : list JSON) : Res (option string) :=
  match events with
  | [] => Ok None
  | event :: rest =>
      ty ← get event "type" JNull;
      if is_str ty "result"
      then is_error ← get event "is_error" JNull;
           if truthy is_error
           then errors ← get event "errors" (JArr []);
                if truthy errors
                then Some <$> join_json "; " errors
                else Ok (Some "Unknown error")
           else structured_error rest
      else structured_error rest
  end.

Definition exit_fallback (returncode : Z) : string :=
  "Claude CLI exited with code " +:+ pretty returncode.

(** The error of a run that ended by itself (lines 325-336). *)
Definition classify_exit (returncode : Z) (stderr_text : string)
    (events : list JSON) : Res (option string) :=
  if returncode =? 0 then Ok None
  else
    let error := stderr_text in
    (* If stderr is empty, check for errors in JSON result event *)
    error ← (if String.eqb error ""
             then e ← structured_error events;
                  Ok (match e with Some x => x | None => error end)
             else Ok error);
    if String.eqb error ""
    then Ok (Some (exit_fallback returncode))
    else Ok (Some error).

(** [_run_claude_process_inner] once the process is spawned: the gathering
    of the two readers and what follows it.  The heartbeat task only calls
    [on_output_update] with a text of its own at times the model does not
    follow; it assigns none of the variables below and is stopped before
    any result is built. *)
Definition drain (on_output_update : option (Callback string unit))
    (process : ProcScript) : M RunResult :=
  '(st, stdout_exn) ← read_stdout on_output_update (stdout process) reader_init;
  let wall_clock :=
    match stdout_exn, stderr_end process with
    | Some CancelledError, _ => true
    | _, ErrWallClock => true
    | _, _ => false
    end in
  if wall_clock then
    (* Overall 30-minute wall clock timeout *)
    kill;; wait process;;
    mret {| run_events := events st; run_text := accumulated_text st;
            run_exit_code := -1; run_error := Some MSG_WALL_CLOCK;
            run_was_stopped := false |}
  else
    match stdout_exn with
    | Some r =>
        kill;; wait process;;
        match r with
        | TimeoutError =>
            mret {| run_events := events st; run_text := accumulated_text st;
                    run_exit_code := -1; run_error := Some MSG_NO_OUTPUT;
                    run_was_stopped := false |}
        | _ => raise r
        end
    | None =>
        if was_stopped st then
          kill;; wait process;;
          flush_output on_output_update (accumulated_text st);;
          mret {| run_events := events st; run_text := accumulated_text st;
                  run_exit_code := -1; run_error := Some MSG_STOPPED;
                  run_was_stopped := true |}
        else
          wait process;;
          flush_output on_output_update (accumulated_text st);;
          let stderr_text := join "" (stderr process) in
          error ← lift (classify_exit (returncode process) stderr_text (events st));
          mret {| run_events := events st; run_text := accumulated_text st;
                  run_exit_code := returncode process; run_error := error;
                  run_was_stopped := false |}
    end.

(** Inner implementation of [_run_claude_process] (without semaphore). *)
Definition _run_claude_process_inner (cmd : list string) (workspace_dir : Path)
    (on_output_update : option (Callback string unit)) : M RunResult :=
  process ← create_subprocess_exec cmd workspace_dir;
  drain on_output_update process.

(** Run Claude CLI subprocess and parse stream-json output.  The semaphore
    admits at most two runs at a time; one call is followed here. *)
Definition _run_claude_process (cmd : list string) (workspace_dir : Path)
    (on_output_update : option (Callback string unit)) : M RunResult :=
  _run_claude_process_inner cmd workspace_dir on_output_update.

(** *** The orchestrator *)

Record Settings := {
  claude_cli_path : string;
  workspace_dir : Path;           (* Path(settings.workspace_dir) *)
}.

(** The arguments of [execute_claude].  [stop_event] is read through the
    polls of the process scripts; [pre_approved_tools] is given in the
    order the set is iterated. *)
Record Args := {
  message : string;
  session_id : string;
  user_id : Z;
  continue_session : bool;
  on_output_update : option (Callback string unit);
  on_permission_request : option (Callback (list JSON) (list string));
  on_question : option (Callback JSON (option (gmap Z string)));
  pre_approved_tools : option (list string);
}.

(** Response from Claude CLI.  [text] is a string except when a failed
    first run takes it from a [result] field that holds something else. *)
Record ClaudeResponse := {
  text : JSON;
  created_files : list Path;
  exit_code : Z;
  error : option string;
  tool_actions : option (list ToolAction);
}.

(** Safe tools that don't need user approval *)
Definition SAFE_TOOLS : list string :=
  ["Read"; "Glob"; "Grep"; "Explore"; "Task"; "TaskOutput"].

(** Tools to filter out from permission requests (not dangerous) *)
Definition SKIP_PERMISSION_TOOLS : list string :=
  ["EnterPlanMode"; "ExitPlanMode"; "TodoWrite"; "TaskCreate"; "TaskUpdate";
   "TaskList"; "TaskGet"; "NotebookEdit"].

Definition MSG_NOT_ANSWERED : string :=
  "Пользователь не ответил на вопросы, продолжай без ответов.".
Definition MSG_ANSWER_HEADER : string := "Ответ пользователя:".
Definition MSG_GRANTED : string := "Разрешения выданы".
Definition MSG_GRANTED_RETRY : string := "Разрешения выданы, попробуй снова".

Definition pre_approved (a : Args) : list string :=
  match pre_approved_tools a with
  | Some l => l
  | None => []
  end.

Definition stopped_response (accumulated_text : string) : ClaudeResponse :=
  {| text := JStr accumulated_text; created_files := []; exit_code := -1;
     error := Some MSG_STOPPED; tool_actions := None |}.

(** [f"Вопрос {idx+1}"] *)
Definition default_question (idx : Z) : string := "Вопрос " +:+ pretty (idx + 1).

(** Format answers as text for Claude *)
Definition format_answers (tool_input : JSON) (answers : gmap Z string) : Res string :=
  questions ← get tool_input "questions" (JArr []);
  parts ← mapM (fun idx =>
                  let answer := default "" (answers !! idx) in
                  n ← len questions;
                  q_text ← (if idx <? Z.of_nat n
                            then q ← getitem_int questions idx;
                                 get q "question" (JStr (default_question idx))
                            else Ok (JStr (default_question idx)));
                  Ok (str q_text +:+ nl +:+ "Ответ: " +:+ answer))
               (merge_sort Z.le (elements (dom answers)));
  Ok (MSG_ANSWER_HEADER +:+ nl +:+ nl +:+ join (nl +:+ nl) parts).

(** Handle AskUserQuestion: show to user and get answers.  The value is
    [question_answer_text]. *)
Definition ask_question (a : Args) (question_denials : list JSON) : M (option string) :=
  match question_denials, on_question a with
  | d :: _, Some f =>
      tool_input ← lift (get d "tool_input" (JObj []));
      _ ← lift (keys tool_input);
      r ← try_ (retry_async (call_question f tool_input) 3 1 2);
      let answers :=
        match r with
        | Ok (Some (Some answers)) =>
            if bool_decide (answers = ∅) then None else Some answers
        | _ => None
        end in
      match answers with
      | Some answers => Some <$> lift (format_answers tool_input answers)
      | None => mret (Some MSG_NOT_ANSWERED)
      end
  | _, _ => mret None
  end.

(** [name in SKIP_PERMISSION_TOOLS]: lists and dicts cannot be hashed. *)
Definition in_skip (name : JSON) : Res bool :=
  match name with
  | JStr s => Ok (bool_decide (s ∈ SKIP_PERMISSION_TOOLS))
  | JArr _ | JObj _ => Raise TypeError
  | _ => Ok false
  end.

(** What one iteration of the retry loop settles before it resumes or
    breaks.  [approved_tools] is [None] when it holds Python's [None];
    [asked_permission] tells that the branch
    [if real_denials and on_permission_request] was taken. *)
Record Negotiation := {
  question_answer_text : option string;
  approved_tools : option (list string);
  auto_tools : list string;
  asked_permission : bool;
}.

(** [not approved_tools] *)
Definition none_approved (n : Negotiation) : bool :=
  match approved_tools n with
  | None | Some [] => true
  | Some (_ :: _) => false
  end.

(** Lines 465-488: the partition of the other denials and the permission
    request. *)
Definition request_permissions (a : Args) (other_denials : list JSON)
    (question_answer_text : option string) : M Negotiation :=
  (* Separate real permission requests from auto-approvable tools *)
  real_denials ← lift (filterM (fun d => n ← get d "tool_name" JNull;
                                         negb <$> in_skip n) other_denials);
  auto_denials ← lift (filterM (fun d => n ← get d "tool_name" JNull;
                                         in_skip n) other_denials);
  auto_names ← lift (mapM (fun d => n ← get d "tool_name" JNull; as_str n) auto_denials);
  let auto_tools := fromkeys auto_names in
  _ ← lift (mapM (fun d => getitem d "tool_name") real_denials);
  match real_denials, on_permission_request a with
  | _ :: _, Some f =>
      (* Ask user for approval of real tools only *)
      r ← try_ (retry_async (call_permission f real_denials) 3 1 2);
      let approved_tools := match r with Ok x => x | Raise _ => Some [] end in
      mret {| question_answer_text := question_answer_text;
              approved_tools := approved_tools;
              auto_tools := auto_tools; asked_permission := true |}
  | _, _ =>
      mret {| question_answer_text := question_answer_text;
              approved_tools := Some [];
              auto_tools := auto_tools; asked_permission := false |}
  end.

(** Lines 435-488: the question, then the permissions. *)
Definition negotiate (a : Args) (denials : JSON) : M Negotiation :=
  ds ← lift (iter denials);
  (* Separate AskUserQuestion denials *)
  question_denials ← lift (filterM (fun d => n ← get d "tool_name" JNull;
                                             Ok (is_str n "AskUserQuestion")) ds);
  other_denials ← lift (filterM (fun d => n ← get d "tool_name" JNull;
                                          Ok (negb (is_str n "AskUserQuestion"))) ds);
  question_answer_text ← ask_question a question_denials;
  request_permissions a other_denials question_answer_text.

(** The two [break]s of an iteration: line 486, after a permission request
    that approved nothing, and line 492, when there is nothing to retry.
    Both ask that no tool was approved and that [question_answer_text] is
    not set. *)
Definition breaks (n : Negotiation) : bool :=
  (asked_permission n && none_approved n
   && negb (bool_decide (is_Some (question_answer_text n))))
  || (none_approved n
      && bool_decide (auto_tools n = [])
      && negb (bool_decide (is_Some (question_answer_text n)))).

(** Lines 530-538: the text kept after a continuation run. *)
Definition merge_text (prev_accumulated text_new : string) : string :=
  if negb (String.eqb text_new "") && negb (String.eqb (strip text_new) "")
  then
    if negb (String.eqb prev_accumulated "")
       && negb (String.eqb (strip prev_accumulated) "")
    then strip prev_accumulated +:+ nl +:+ nl +:+ strip text_new
    else text_new
  else prev_accumulated.

(** The variables of [execute_claude] that the retry loop assigns. *)
Record Loop := {
  cur_events : list JSON;
  cur_text : string;              (* accumulated_text *)
  cur_exit_code : Z;
  cur_error : option string;
}.

(** How one iteration of the retry loop ends: [break], the next iteration,
    or [return]. *)
Inductive Step :=
| Break
| Next (lp : Loop)
| Return (r : ClaudeResponse).

Definition base_cmd (s : Settings) : list string :=
  [claude_cli_path s; "-p"; "--output-format"; "stream-json"; "--verbose"].

(** Lines 494-547: resume the session with the tools settled by [n]. *)
Definition resume (s : Settings) (a : Args) (workspace_dir : Path)
    (n : Negotiation) (lp : Loop) : M Step :=
  approved_tools ← match approved_tools n with
                   | Some l => mret l
                   | None => raise TypeError
                   end;
  (* Combine user-approved + auto-approved + safe tools + pre-approved + AskUserQuestion *)
  let all_tools :=
    fromkeys (approved_tools ++ auto_tools n ++ SAFE_TOOLS ++ pre_approved a
              ++ ["AskUserQuestion"]) in
  (* Determine the continuation message *)
  let continue_message :=
    match question_answer_text n, approved_tools with
    | Some q, _ :: _ => MSG_GRANTED +:+ ". " +:+ q
    | Some q, [] => q
    | None, _ => MSG_GRANTED_RETRY
    end in
  (* Retry with --resume and --allowedTools *)
  let retry_cmd :=
    base_cmd s ++ ["--resume"; session_id a; "--allowedTools"; join "," all_tools;
                   "--"; continue_message] in
  (* Preserve first-run text in case retry only returns a brief confirmation *)
  let prev_accumulated := cur_text lp in
  r ← _run_claude_process retry_cmd workspace_dir (on_output_update a);
  let accumulated_text := merge_text prev_accumulated (run_text r) in
  if run_was_stopped r
  then mret (Return (stopped_response accumulated_text))
  else mret (Next {| cur_events := run_events r; cur_text := accumulated_text;
                     cur_exit_code := run_exit_code r; cur_error := run_error r |}).

(** The body of [for retry in range(MAX_PERMISSION_RETRIES)]. *)
Definition retry_iteration (s : Settings) (a : Args) (workspace_dir : Path)
    (lp : Loop) : M Step :=
  denials ← lift (_get_permission_denials (cur_events lp));
  if negb (truthy denials) then mret Break
  else
    n ← negotiate a denials;
    if breaks n then mret Break
    else resume s a workspace_dir n lp.

(** The retry loop with [retries] iterations left: the variables when the
    loop ends, or the response it returns. *)
Fixpoint retry_loop (s : Settings) (a : Args) (workspace_dir : Path)
    (retries : nat) (lp : Loop) : M (Loop + ClaudeResponse) :=
  match retries with
  | O => mret (inl lp)
  | S retries =>
      st ← retry_iteration s a workspace_dir lp;
      match st with
      | Break => mret (inl lp)
      | Next lp => retry_loop s a workspace_dir retries lp
      | Return r => mret (inr r)
      end
  end.

(** Lines 549-578: the response after the loop. *)
Definition finish (workspace_dir : Path) (files_before : gset Path) (lp : Loop)
    : M ClaudeResponse :=
  (* Prefer accumulated_text (full step-by-step output) over result summary *)
  result_text ← (if negb (String.eqb (cur_text lp) "")
                 then mret (JStr (cur_text lp))
                 else lift (_get_result_text (cur_events lp)));
  _ ← match result_text with
      | JStr _ => mret tt
      | _ => if truthy result_text then raise AttributeError else mret tt
      end;
  (* Snapshot files after execution *)
  files_after ← snapshot workspace_dir;
  let created_files := elements (files_after ∖ files_before) in
  (* Filter out session files and logs *)
  let created_files := List.filter keep_created created_files in
  (* Extract tool activity log *)
  tool_actions ← lift (_extract_tool_actions (cur_events lp));
  mret {| text := result_text; created_files := created_files;
          exit_code := cur_exit_code lp; error := cur_error lp;
          tool_actions := Some tool_actions |}.

Definition user_workspace (s : Settings) (a : Args) : Path :=
  workspace_dir s ++ ["user_" +:+ pretty (user_id a)].

(** The [try] block of [execute_claude]. *)
Definition execute_claude_body (s : Settings) (a : Args) : M ClaudeResponse :=
  let workspace_dir := user_workspace s a in
  mkdir;;
  files_before ← snapshot workspace_dir;
  (* Combine safe tools with any pre-approved tools (session or always) *)
  let initial_tools := fromkeys (SAFE_TOOLS ++ pre_approved a) in
  (* Build base command *)
  let cmd :=
    base_cmd s ++ ["--allowedTools"; join "," initial_tools]
    ++ (if continue_session a then ["--resume"; session_id a]
        else ["--session-id"; session_id a])
    ++ ["--"; message a] in
  (* First run *)
  r ← _run_claude_process cmd workspace_dir (on_output_update a);
  if run_was_stopped r then mret (stopped_response (run_text r))
  else if match run_error r with
          | Some e => negb (String.eqb e "") && negb (run_exit_code r =? 0)
          | None => false
          end
  then
    (* Use result text if we have it, otherwise accumulated text *)
    result_text ← lift (_get_result_text (run_events r));
    mret {| text := or_else result_text (JStr (run_text r));
            created_files := []; exit_code := run_exit_code r;
            error := run_error r; tool_actions := None |}
  else
    (* Check for permission denials and retry loop *)
    l ← retry_loop s a workspace_dir MAX_PERMISSION_RETRIES
          {| cur_events := run_events r; cur_text := run_text r;
             cur_exit_code := run_exit_code r; cur_error := run_error r |};
    match l with
    | inr response => mret response
    | inl lp => finish workspace_dir files_before lp
    end.

Definition failure_response (e : Exn) : ClaudeResponse :=
  {| text := JStr ""; created_files := []; exit_code := -1;
     error := Some ("Failed to execute Claude CLI: " +:+ str_exn e);
     tool_actions := None |}.

(** Execute Claude CLI with the given message. *)
Definition execute_claude (s : Settings) (a : Args) (w : World)
    : ClaudeResponse * World :=
  match execute_claude_body s a w with
  | (Ok response, w') => (response, w')
  | (Raise e, w') => (failure_response e, w')
  end.

(** *** The properties stated about the executor *)

(** [v.get(k)] as an option, for any value. *)
Definition field (v : JSON) (k : string) : option JSON :=
  match v with
  | JObj kvs => assoc k kvs
  | _ => None
  end.

Definition is_jstr (v : JSON) : bool :=
  match v with JStr _ => true | _ => false end.

(** An event of the agent's stream as section 6 of the specification gives
    it: an object; the content of an [assistant] message is a list of
    objects whose text blocks hold a string; the [errors] of a [result]
    are strings. *)
Definition wf_block (b : JSON) : bool :=
  match b with
  | JObj kvs =>
      if is_str (default JNull (assoc "type" kvs)) "text"
      then match assoc "text" kvs with Some (JStr _) => true | _ => false end
      else true
  | _ => false
  end.

Definition wf_event (e : JSON) : bool :=
  match e with
  | JObj kvs =>
      if is_str (default JNull (assoc "type" kvs)) "assistant" then
        match assoc "message" kvs with
        | None => true
        | Some (JObj mkvs) =>
            match assoc "content" mkvs with
            | None => true
            | Some (JArr blocks) => forallb wf_block blocks
            | Some _ => false
            end
        | Some _ => false
        end
      else if is_str (default JNull (assoc "type" kvs)) "result" then
        match assoc "errors" kvs with
        | None => true
        | Some (JArr errors) => forallb is_jstr errors
        | Some _ => false
        end
      else true
  | _ => false
  end.

(** The text content of one block and of one event. *)
Definition block_text (b : JSON) : string :=
  if is_str (default JNull (field b "type")) "text"
  then match field b "text" with Some (JStr s) => s | _ => "" end
  else "".

Definition event_text (e : JSON) : string :=
  if is_str (default JNull (field e "type")) "assistant"
  then match field e "message" with
       | Some message =>
           match field message "content" with
           | Some (JArr blocks) => String.concat "" (block_text <$> blocks)
           | _ => ""
           end
       | None => ""
       end
  else "".

(** The concatenation, in arrival order, of the text content of every
    assistant text block of a stream. *)
Definition stream_text (events : list JSON) : string :=
  String.concat "" (event_text <$> events).

(** The events a run reads from a script: those before the first poll that
    finds the stop signal set, the end of the stream, a read timeout or the
    whole-run limit. *)
Fixpoint consumed (reads : list (bool * Read)) : list JSON :=
  match reads with
  | (false, ReadLine _ (Json e)) :: rest => e :: consumed rest
  | (false, ReadLine _ _) :: rest => consumed rest
  | _ => []
  end.

(** Every event read is well formed. *)
Definition valid_stream (reads : list (bool * Read)) : bool :=
  forallb wf_event (consumed reads).

(** How the reading of a script ends. *)
Inductive ReadEnd :=
| EndOfStream
| StopObserved
| ReadTimedOut
| WallClockExpired.

Fixpoint read_end (reads : list (bool * Read)) : ReadEnd :=
  match reads with
  | [] => EndOfStream
  | (true, _) :: _ => StopObserved
  | (false, ReadLine _ _) :: rest => read_end rest
  | (false, ReadEof) :: _ => EndOfStream
  | (false, ReadTimeout) :: _ => ReadTimedOut
  | (false, WallClock) :: _ => WallClockExpired
  end.

(** The exception that leaves [read_stdout], if any. *)
Definition end_exception (r : ReadEnd) : option Exn :=
  match r with
  | EndOfStream | StopObserved => None
  | ReadTimedOut => Some TimeoutError
  | WallClockExpired => Some CancelledError
  end.

(** The cancellation signal is observed by a poll of the run. *)
Definition stop_observed (reads : list (bool * Read)) : bool :=
  match read_end reads with
  | StopObserved => true
  | _ => false
  end.

(** The final output update of a run, as an effect. *)
Definition flushed (on_output_update : option (Callback string unit)) (text : string)
    : list Effect :=
  match on_output_update with
  | Some _ => if String.eqb text "" then [] else [OutputUpdate text]
  | None => []
  end.

(** The whole-run limit expires during the run. *)
Definition wall_clock_expires (p : ProcScript) : bool :=
  match read_end (stdout p), stderr_end p with
  | WallClockExpired, _ => true
  | _, ErrWallClock => true
  | _, _ => false
  end.

(** What a run does after the reading, as effects. *)
Definition closing (on_output_update : option (Callback string unit)) (p : ProcScript)
    : list Effect :=
  if wall_clock_expires p then [Kill; Wait]
  else match read_end (stdout p) with
       | ReadTimedOut | WallClockExpired => [Kill; Wait]
       | StopObserved =>
           [Kill; Wait] ++ flushed on_output_update (stream_text (consumed (stdout p)))
       | EndOfStream =>
           [Wait] ++ flushed on_output_update (stream_text (consumed (stdout p)))
       end.

(** [s] holds a character that is not whitespace. *)
Definition substantive (s : string) : Prop :=
  exists c, c ∈ String.list_ascii_of_string s /\ isspace c = false.

(** The error strings of the first [result] event flagged [is_error]. *)
Fixpoint flagged_errors (events : list JSON) : option (list string) :=
  match events with
  | [] => None
  | e :: rest =>
      if is_str (default JNull (field e "type")) "result"
         && truthy (default JNull (field e "is_error"))
      then Some match field e "errors" with
                | Some (JArr errors) =>
                    omap (fun x => match x with JStr s => Some s | _ => None end) errors
                | _ => []
                end
      else flagged_errors rest
  end.

(** The error of a run that ended by itself, case by case. *)
Definition exit_error (returncode : Z) (stderr_text : string) (events : list JSON)
    : option string :=
  if returncode =? 0 then None
  else if negb (String.eqb stderr_text "") then Some stderr_text
  else match flagged_errors events with
       | Some [] => Some "Unknown error"
       | Some errors =>
           if String.eqb (join "; " errors) "" then Some (exit_fallback returncode)
           else Some (join "; " errors)
       | None => Some (exit_fallback returncode)
       end.

(** C6 as the specification words it: the joined error strings of the
    flagged result event, the fallback when there is none. *)
Definition exit_error_as_stated (returncode : Z) (stderr_text : string)
    (events : list JSON) : option string :=
  if returncode =? 0 then None
  else if negb (String.eqb stderr_text "") then Some stderr_text
  else match flagged_errors events with
       | Some errors => Some (join "; " errors)
       | None => Some (exit_fallback returncode)
       end.

(** The result of the run of a script whose events are well formed. *)
Definition scripted_result (p : ProcScript) : RunResult :=
  let events := consumed (stdout p) in
  let text := stream_text events in
  if wall_clock_expires p
  then {| run_events := events; run_text := text; run_exit_code := -1;
          run_error := Some MSG_WALL_CLOCK; run_was_stopped := false |}
  else match read_end (stdout p) with
       | WallClockExpired =>
           {| run_events := events; run_text := text; run_exit_code := -1;
              run_error := Some MSG_WALL_CLOCK; run_was_stopped := false |}
       | ReadTimedOut =>
           {| run_events := events; run_text := text; run_exit_code := -1;
              run_error := Some MSG_NO_OUTPUT; run_was_stopped := false |}
       | StopObserved =>
           {| run_events := events; run_text := text; run_exit_code := -1;
              run_error := Some MSG_STOPPED; run_was_stopped := true |}
       | EndOfStream =>
           {| run_events := events; run_text := text;
              run_exit_code := returncode p;
              run_error := exit_error (returncode p) (join "" (stderr p)) events;
              run_was_stopped := false |}
       end.

(** C5 as the specification words it. *)
Definition merge_as_stated (prev_accumulated text_new : string) : string :=
  if negb (String.eqb (strip text_new) "")
  then if negb (String.eqb prev_accumulated "")
       then prev_accumulated +:+ nl +:+ nl +:+ text_new
       else text_new
  else prev_accumulated.

Definition is_spawn (e : Effect) : bool :=
  match e with Spawn _ _ => true | _ => false end.

Definition is_ask (e : Effect) : bool :=
  match e with AskQuestion _ => true | _ => false end.

Definition is_update (e : Effect) : bool :=
  match e with OutputUpdate _ => true | _ => false end.

(** The number of processes spawned in a trace. *)
Definition spawn_count (tr : list Effect) : nat := List.length (List.filter is_spawn tr).

(** The prompts of the processes spawned in a trace: the last argument of
    each command. *)
Definition prompts (tr : list Effect) : list (option string) :=
  omap (fun e => match e with Spawn cmd _ => Some (last cmd) | _ => None end) tr.

Definition asked_permission_in (tr : list Effect) : bool :=
  existsb (fun e => match e with AskPermission _ => true | _ => false end) tr.

(** The payloads passed to the question callback in a trace, in order. *)
Definition asked (tr : list Effect) : list JSON :=
  omap (fun e => match e with AskQuestion x => Some x | _ => None end) tr.

(** The denials that name the question tool. *)
Definition question_denials_of (denials : JSON) : list JSON :=
  match denials with
  | JArr ds =>
      List.filter (fun d => is_str (default JNull (field d "tool_name"))
                                   "AskUserQuestion") ds
  | _ => []
  end.

(** The payload [ask_question] passes for a list of question denials. *)
Definition payload_of (question_denials : list JSON) : JSON :=
  match question_denials with
  | d :: _ => default (JObj []) (field d "tool_input")
  | [] => JNull
  end.

(** The callback returns whenever it is called (it never raises). *)
Definition never_raises {A B} (f : option (Callback A B)) : Prop :=
  forall g, f = Some g -> forall k x, exists v, g k x = Ok v.

(** The payload of the first question denial of the first [result] event. *)
Definition first_question_payload (events : list JSON) : JSON :=
  match _get_permission_denials events with
  | Ok denials => payload_of (question_denials_of denials)
  | Raise _ => JNull
  end.

(** From [w] to [w'] nothing happened but calls of [on_output_update]. *)
Definition updates_only (w w' : World) : Prop :=
  procs w' = procs w /\ fs w' = fs w
  /\ q_calls w' = q_calls w /\ p_calls w' = p_calls w
  /\ exists d, trace w' = trace w ++ d /\ Forall (fun e => is_update e = true) d.

(** The text an iteration leaves: [accumulated_text] for the next
    iteration, or the text of the response it returns. *)
Definition step_text (st : Step) : option string :=
  match st with
  | Break => None
  | Next lp => Some (cur_text lp)
  | Return r => match text r with JStr t => Some t | _ => None end
  end.

(** The computation [c] adds to the trace only effects that satisfy [P]. *)
Definition emits_only {A} (P : Effect -> bool) (c : M A) : Prop :=
  forall w, exists d, trace (c w).2 = trace w ++ d /\ Forall (fun e => P e = true) d.

Definition not_spawn (e : Effect) : bool := negb (is_spawn e).
Definition not_ask (e : Effect) : bool := negb (is_ask e).
Definition quiet (e : Effect) : bool := negb (is_spawn e) && negb (is_ask e).

(** What a computation asks: [j] calls of the question callback, all with
    payload [x], at most [n] of them, and one at most when the callback
    does not raise. *)
Definition asks {A} (c : M A) (x : JSON) (n : nat) (sure : Prop) : Prop :=
  forall w, exists j d,
    trace (c w).2 = trace w ++ d
    /\ asked d = replicate j x
    /\ (j <= n)%nat
    /\ (sure -> (j <= 1)%nat).

(** The file at relative path [rel] is in the tree and in none of the
    skipped directories: it is part of the recursive snapshot. *)
Inductive reaches : Node -> list string -> Prop :=
| reaches_file entries name :
    (name, File) ∈ entries -> reaches (Dir entries) [name]
| reaches_dir entries name sub rel :
    (name, Dir sub) ∈ entries -> skip_dir name = false ->
    reaches (Dir sub) rel -> reaches (Dir entries) (name :: rel).

(** What [walk] reports for one entry of a directory. *)
Definition walk_entry (dirpath : Path) (entry : string * Node) : list Path :=
  match entry with
  | (name, File) => [dirpath ++ [name]]
  | (name, Dir sub) =>
      if skip_dir name then [] else walk (dirpath ++ [name]) (Dir sub)
  end.

(** Induction on directory trees. *)
Fixpoint Node_tree_ind (P : Node -> Prop) (HF : P File)
    (HD : forall entries, Forall (fun e => P e.2) entries -> P (Dir entries))
    (n : Node) {struct n} : P n :=
  match n with
  | File => HF
  | Dir entries =>
      HD entries
         ((fix go (l : list (string * Node)) : Forall (fun e => P e.2) l :=
             match l with
             | [] => @List.Forall_nil _ _
             | e :: t =>
                 @List.Forall_cons _ _ e t
                   (match e as e0 return P e0.2 with
                    | (_, child) => Node_tree_ind P HF HD child
                    end)
                   (go t)
             end) entries)
  end.

(** The workspace after a run that added the file [name] at its top and
    changed nothing else. *)
Definition with_new_file (entries : list (string * Node)) (name : string) : Node :=
  Dir (entries ++ [(name, File)]).

(** The workspace before the run holds notes and an internal directory;
    the run is stopped at once, after [out.txt] was written. *)
Definition fs_before : option Node :=
  Some (Dir [("notes.md", File); (".claude", Dir [("session.json", File)])]).

(** *** Scenarios *)

Definition text_block (s : string) : JSON :=
  JObj [("type", JStr "text"); ("text", JStr s)].

Definition assistant_event (blocks : list JSON) : JSON :=
  JObj [("type", JStr "assistant"); ("message", JObj [("content", JArr blocks)])].

Definition result_event (is_error : bool) (errors denials : list JSON) : JSON :=
  JObj [("type", JStr "result"); ("is_error", JBool is_error);
        ("result", JStr ""); ("errors", JArr errors);
        ("permission_denials", JArr denials)].

Definition denial (tool_name : string) (tool_input : JSON) : JSON :=
  JObj [("tool_name", JStr tool_name); ("tool_input", tool_input)].

Definition world_of (ps : list ProcScript) (fs : option Node) : World :=
  {| procs := ps; fs := fs; u_calls := 0; q_calls := 0; p_calls := 0; trace := [] |}.

Definition always_ok : Callback string unit := fun _ _ => Ok tt.

(** Two assistant events around a line that is not JSON, then the result. *)
Definition p_hello : ProcScript :=
  {| stdout := [(false, ReadLine 100 (Json (assistant_event
                                               [text_block "Hello, "; text_block "wor"])));
                (false, ReadLine 101 NonJson);
                (false, ReadLine 103 (Json (assistant_event [text_block "ld"])));
                (false, ReadLine 104 (Json (result_event false [] [])));
                (false, ReadEof)];
     stderr := []; stderr_end := ErrEof; returncode := 0;
     workspace_after := Some (Dir []) |}.

(** The stop signal is found set by the first poll. *)
Definition p_stopped_at_once : ProcScript :=
  {| stdout := [(true, ReadEof)];
     stderr := []; stderr_end := ErrEof; returncode := 0;
     workspace_after := Some (Dir [("out.txt", File)]) |}.

(** The stop signal is found set after some text was streamed. *)
Definition p_stopped_later : ProcScript :=
  {| stdout := [(false, ReadLine 100 (Json (assistant_event [text_block "Working"])));
                (true, ReadLine 101 Blank)];
     stderr := []; stderr_end := ErrTimeout; returncode := 0;
     workspace_after := Some (Dir []) |}.

(** Exit code 1, nothing on standard error, a result flagged [is_error]
    with no error strings. *)
Definition p_flagged : ProcScript :=
  {| stdout := [(false, ReadLine 100 (Json (result_event true [] [])))];
     stderr := []; stderr_end := ErrEof; returncode := 1;
     workspace_after := Some (Dir []) |}.

(** Exit code 2 and a diagnostic on standard error. *)
Definition p_failed : ProcScript :=
  {| stdout := [(false, ReadLine 100 (Json (result_event true [JStr "boom"] [])))];
     stderr := ["fatal: "; "no session"]; stderr_end := ErrEof; returncode := 2;
     workspace_after := Some (Dir []) |}.

(** The first run is denied the question tool, twice, and nothing else. *)
Definition payload_a : JSON :=
  JObj [("questions", JArr [JObj [("question", JStr "Which branch?")]])].
Definition payload_b : JSON :=
  JObj [("questions", JArr [JObj [("question", JStr "Which remote?")]])].

Definition p_asks : ProcScript :=
  {| stdout := [(false, ReadLine 100 (Json (assistant_event [text_block "Let me ask."])));
                (false, ReadLine 101
                   (Json (result_event false []
                            [denial "AskUserQuestion" payload_a;
                             denial "AskUserQuestion" payload_b])))];
     stderr := []; stderr_end := ErrEof; returncode := 0;
     workspace_after := Some (Dir []) |}.

Definition lp_asks : Loop :=
  {| cur_events := consumed (stdout p_asks); cur_text := "Let me ask.";
     cur_exit_code := 0; cur_error := None |}.

Definition demo_settings : Settings :=
  {| claude_cli_path := "claude"; workspace_dir := ["/"; "srv"; "workspaces"] |}.

(** Callbacks that approve [Bash] and do not answer questions. *)
Definition demo_args : Args :=
  {| message := "build it"; session_id := "s-1"; user_id := 7;
     continue_session := false;
     on_output_update := Some always_ok;
     on_permission_request := Some (fun _ _ => Ok ["Bash"]);
     on_question := Some (fun _ _ => Ok None);
     pre_approved_tools := None |}.

Definition n_bash : Negotiation :=
  {| question_answer_text := None; approved_tools := Some ["Bash"];
     auto_tools := []; asked_permission := true |}.

Definition lp_prior : Loop :=
  {| cur_events := [result_event false [] [denial "Bash" (JObj [])]];
     cur_text := "Prior text. "; cur_exit_code := 0; cur_error := None |}.

(** The question callback fails once (a transport error), then the user
    answers question 0. *)
Definition flaky_args : Args :=
  {| message := "build it"; session_id := "s-1"; user_id := 7;
     continue_session := false;
     on_output_update := None;
     on_permission_request := None;
     on_question := Some (fun k _ => match k with
                                     | O => Raise (CallbackError "timed out")
                                     | S _ => Ok (Some {[ 0 := "main" ]})
                                     end);
     pre_approved_tools := None |}.

(** The permission callback approves nothing; there is no question
    callback. *)
Definition deny_args : Args :=
  {| message := "build it"; session_id := "s-1"; user_id := 7;
     continue_session := false;
     on_output_update := None;
     on_permission_request := Some (fun _ _ => Ok []);
     on_question := None;
     pre_approved_tools := None |}.

Definition p_stopped_after_write : ProcScript :=
  {| stdout := [(true, ReadEof)];
     stderr := []; stderr_end := ErrEof; returncode := 0;
     workspace_after :=
       Some (with_new_file
               [("notes.md", File); (".claude", Dir [("session.json", File)])]
               "out.txt") |}.

(** A complete run that writes [out.txt], a log and a session file. *)
Definition p_writes : ProcScript :=
  {| stdout := [(false, ReadLine 100 (Json (assistant_event [text_block "Done."])));
                (false, ReadLine 101 (Json (result_event false [] [])))];
     stderr := []; stderr_end := ErrEof; returncode := 0;
     workspace_after :=
       Some (Dir [("notes.md", File);
                  (".claude", Dir [("session.json", File); ("new.json", File)]);
                  ("build.log", File);
                  ("out.txt", File)]) |}.

(** A complete run that only adds [out.txt] to the workspace [fs_before]. *)
Definition p_writes_out : ProcScript :=
  {| stdout := [(false, ReadLine 100 (Json (assistant_event [text_block "Done."])));
                (false, ReadLine 101 (Json (result_event false [] [])))];
     stderr := []; stderr_end := ErrEof; returncode := 0;
     workspace_after :=
       Some (with_new_file
               [("notes.md", File); (".claude", Dir [("session.json", File)])]
               "out.txt") |}.

(** *** More scenarios *)

(** A workspace with a repository directory. *)
Definition fs_repo : option Node :=
  Some (Dir [("main.py", File); (".git", Dir [("hooks", Dir [("pre-commit", File)])])]).

(** The event is a JSON object, of type [result] or not. *)
Definition is_object (e : JSON) : bool :=
  match e with JObj _ => true | _ => false end.

Definition is_result (e : JSON) : bool :=
  is_object e && is_str (default JNull (field e "type")) "result".

Definition is_other (e : JSON) : bool :=
  is_object e && negb (is_str (default JNull (field e "type")) "result").

(** No [result] event of the stream carries a text. *)
Definition no_result_text (events : list JSON) : bool :=
  forallb (fun e => negb (is_result e
                          && truthy (default (JStr "") (field e "result")))) events.

(** The tools whose uses the activity log reports. *)
Definition LOGGED_TOOLS : list string :=
  ["Bash"; "Read"; "Glob"; "Grep"; "Write"; "Edit"; "Task"].

(** The delays slept in a trace, in order. *)
Definition is_sleep (e : Effect) : bool :=
  match e with Sleep _ => true | _ => false end.

Definition not_sleep (e : Effect) : bool := negb (is_sleep e).

Definition sleeps (tr : list Effect) : list Z :=
  omap (fun e => match e with Sleep d => Some d | _ => None end) tr.

(** The first [n] delays of an exponential backoff:
    [delay], [delay * backoff], [delay * backoff * backoff], ... *)
Fixpoint backoff_delays (delay backoff : Z) (n : nat) : list Z :=
  match n with
  | O => []
  | S n => delay :: backoff_delays (delay * backoff) backoff n
  end.

(** A question callback that fails twice before the user answers. *)
Definition twice_flaky : Callback JSON (option (gmap Z string)) :=
  fun k _ => match k with
             | O | S O => Raise (CallbackError "timed out")
             | _ => Ok (Some {[ 0 := "main" ]})
             end.

(** A process that prints one line and then nothing for ten minutes. *)
Definition p_silent : ProcScript :=
  {| stdout := [(false, ReadLine 100 (Json (assistant_event [text_block "Thinking"])));
                (false, ReadTimeout)];
     stderr := []; stderr_end := ErrTimeout; returncode := 0;
     workspace_after := Some (Dir []) |}.

(** Every read of the script is a line, read while the stop signal is not
    set. *)
Definition all_lines (reads : list (bool * Read)) : bool :=
  forallb (fun r => match r with
                    | (false, ReadLine _ _) => true
                    | _ => false
                    end) reads.

(** The process prints a greeting, then a line that holds a number. *)
Definition p_number : ProcScript :=
  {| stdout := [(false, ReadLine 100 (Json (assistant_event [text_block "Hi"])));
                (false, ReadLine 101 (Json (JNum 42)));
                (false, ReadLine 102 (Json (result_event false [] [])))];
     stderr := []; stderr_end := ErrEof; returncode := 0;
     workspace_after := Some (Dir []) |}.

(** Exit code 1 with a diagnostic, after a result that lists a denial. *)
Definition p_denied_then_failed : ProcScript :=
  {| stdout := [(false, ReadLine 100
                   (Json (result_event true [] [denial "Bash" (JObj [])])))];
     stderr := ["quota exceeded"]; stderr_end := ErrEof; returncode := 1;
     workspace_after := Some (Dir [("out.txt", File)]) |}.

(** A denial the user may be asked about: its tool is none of the tools
    approved without asking and is not the question tool. *)
Definition presentable (d : JSON) : bool :=
  match default JNull (field d "tool_name") with
  | JStr s => negb (bool_decide (s ∈ SKIP_PERMISSION_TOOLS))
              && negb (String.eqb s "AskUserQuestion")
  | _ => true
  end.

(** The permission callback is only called with a list of such denials
    that is not empty. *)
Definition asks_presentable (e : Effect) : bool :=
  match e with
  | AskPermission [] => false
  | AskPermission ds => forallb presentable ds
  | _ => true
  end.

End Executor.

(** ** bot/handlers.py: the callers of the managers *)

Module Handlers.

(** Telegram message size limit *)
Definition TELEGRAM_MAX_MESSAGE_LENGTH : nat := 4096.

(** [s[n:]] *)
Definition str_drop (n : nat) (s : string) : string :=
  String.concat "" (drop n (codepoints s)).

(** The string is the encoding of a text: it does not begin in the middle
    of a code point. *)
Definition aligned (s : string) : bool :=
  match s with
  | EmptyString => true
  | String c _ => negb (is_continuation c)
  end.

(** The bytes of [s] that begin a code point. *)
Fixpoint starts (s : string) : nat :=
  match s with
  | EmptyString => 0
  | String c s' => ((if is_continuation c then 0 else 1) + starts s')%nat
  end.

(** One code point: a byte followed by continuation bytes only. *)
Definition one_codepoint (cp : string) : Prop :=
  match cp with
  | EmptyString => False
  | String _ t => starts t = 0%nat
  end.

(** The outcome of one call of the Bot API: the call returns, or it raises
    [telegram.error.BadRequest] or another exception. *)
Inductive TelegramError := BadRequest | OtherError.

Inductive Outcome :=
| Delivered
| Fails (e : TelegramError).

(** What a handler asks of the Bot API, in order, and how it ends. *)
Inductive Action :=
| AnswerQuery (text : option string)
| EditMessageText (text : string)
| ReplyText (text : string).

Inductive Ended (A : Type) :=
| Returned (a : A)
| Raised (e : TelegramError).
Arguments Returned {A} a.
Arguments Raised {A} e.

(** *** The streaming callback *)

Definition MSG_PROCESSING : string := "⏳ Обрабатываю запрос...".
Definition MSG_TO_BE_CONTINUED : string := "... (продолжение следует)".

(** The text [update_callback] shows for the accumulated text [text]. *)
Definition display_text (text : string) : string :=
  if (TELEGRAM_MAX_MESSAGE_LENGTH - 100 <? str_len text)%nat
  then str_take (TELEGRAM_MAX_MESSAGE_LENGTH - 100) text
       +:+ nl +:+ nl +:+ MSG_TO_BE_CONTINUED
  else text.

(** [update_callback] of [create_streaming_callback], with the variable
    [last_text] of the enclosing call: the edit it asks for, if any, and
    the new [last_text].  Whatever the edit raises is logged and dropped,
    so the callback returns in every case. *)
Definition update_callback (text : string) (last_text : string)
    : list Action * string :=
  if String.eqb text last_text then ([], last_text)
  else ([EditMessageText (MSG_PROCESSING +:+ nl +:+ nl +:+ display_text text)], text).

(** *** The permission buttons *)

Record CallbackQuery := {
  from_username : option string;    (* query.from_user.username *)
  data : string;                    (* query.data *)
  message_text : option string;     (* query.message.text *)
}.

Definition MSG_ACCESS_DENIED : string := "⛔ Доступ запрещён.".
Definition MSG_EXPIRED : string := "⚠️ Запрос разрешения уже истёк или был обработан.".

(** The data of the two buttons of the request [request_id]. *)
Definition approve_data (request_id : string) : string := "perm_approve_" +:+ request_id.
Definition deny_data (request_id : string) : string := "perm_deny_" +:+ request_id.

(** Handle permission approve/deny button press.  [answered] is the
    outcome of [query.answer] and [edited] the outcome of
    [query.edit_message_text]. *)
Definition permission_button_callback (allowed_username : string)
    (query : CallbackQuery) (answered edited : Outcome) (m : PermissionManager.t)
    : list Action * Ended unit * PermissionManager.t :=
  if negb (bool_decide (from_username query = Some allowed_username)) then
    ([AnswerQuery (Some MSG_ACCESS_DENIED)],
     match answered with Delivered => Returned tt | Fails e => Raised e end, m)
  else
    match answered with
    | Fails e => ([AnswerQuery None], Raised e, m)
    | Delivered =>
        let parsed :=
          if startswith "perm_approve_" (data query)
          then Some (str_drop (str_len "perm_approve_") (data query), true)
          else if startswith "perm_deny_" (data query)
          then Some (str_drop (str_len "perm_deny_") (data query), false)
          else None in
        match parsed with
        | None => ([AnswerQuery None], Returned tt, m)
        | Some (request_id, approved) =>
            let '(resolved, m) := PermissionManager.resolve request_id approved m in
            let text :=
              if resolved
              then default "" (message_text query) +:+ nl +:+ nl
                   +:+ (if approved then "✅" else "❌") +:+ " "
                   +:+ (if approved then "Одобрено" else "Отклонено")
              else MSG_EXPIRED in
            ([AnswerQuery None; EditMessageText text],
             match edited with
             | Delivered | Fails BadRequest => Returned tt
             | Fails e => Raised e
             end, m)
        end
    end.

(** *** A text message while a question waits for a free text *)

(** Handle free-text answer for 'Other' question option. Returns True if
    handled.  [replied] is the outcome of [update.message.reply_text]. *)
Definition question_text_handler (chat_id : Z) (answer_text : string)
    (replied : Outcome) (m : QuestionManager.t)
    : list Action * Ended bool * QuestionManager.t :=
  match QuestionManager.get_awaiting_text chat_id m with
  | None => ([], Returned false, m)
  | Some (request_id, question_idx) =>
      let m := QuestionManager.clear_awaiting_text chat_id m in
      let m := (QuestionManager.set_answer request_id question_idx answer_text m).2 in
      ([ReplyText ("✅ Ответ принят: " +:+ answer_text)],
       match replied with Delivered => Returned true | Fails e => Raised e end, m)
  end.

(** *** The messages of a permission request *)






End Handlers.

(** * Theorems *)

(** ** Results and the world monad *)

Lemma Res_bind_Ok {A B} (r : Res A) (f : A -> Res B) (b : B) :
  r ≫= f = Ok b -> exists a, r = Ok a /\ f a = Ok b.
Proof. destruct r as [a|e]; simpl; [eauto | discriminate]. Qed.

Section world_monad.
Import Executor.
Context {A B : Type}.

Lemma M_bind_inv (c : M A) (f : A -> M B) w r w' :
  (c ≫= f) w = (r, w') ->
  (exists a w1, c w = (Ok a, w1) /\ f a w1 = (r, w'))
  \/ (exists e, c w = (Raise e, w') /\ r = Raise e).
Proof.
  unfold mbind, M_bind. destruct (c w) as [[a|e] w1]; intros H.
  - left. eauto.
  - right. injection H as <- <-. eauto.
Qed.

Lemma M_bind_Ok (c : M A) (f : A -> M B) w b w' :
  (c ≫= f) w = (Ok b, w') ->
  exists a w1, c w = (Ok a, w1) /\ f a w1 = (Ok b, w').
Proof.
  intros [H|(e & _ & H)]%M_bind_inv; [done | discriminate].
Qed.

Lemma lift_Ok (r : Res A) w a w' : lift r w = (Ok a, w') -> r = Ok a /\ w' = w.
Proof. unfold lift. by intros [= -> ->]. Qed.

Lemma emits_only_ret P (a : A) : emits_only P (mret a).
Proof. intros w. exists []. by rewrite app_nil_r. Qed.

Lemma emits_only_raise P e : emits_only P (raise e : M A).
Proof. intros w. exists []. by rewrite app_nil_r. Qed.

Lemma emits_only_lift P (r : Res A) : emits_only P (lift r).
Proof. intros w. exists []. by rewrite app_nil_r. Qed.

Lemma emits_only_bind P (c : M A) (f : A -> M B) :
  emits_only P c -> (forall a, emits_only P (f a)) -> emits_only P (c ≫= f).
Proof.
  intros Hc Hf w. destruct (Hc w) as (d1 & H1 & F1).
  unfold mbind, M_bind. destruct (c w) as [[a|e] w1]; simpl in *.
  - destruct (Hf a w1) as (d2 & H2 & F2). exists (d1 ++ d2).
    split; [by rewrite H2, H1, app_assoc | by apply Forall_app].
  - by exists d1.
Qed.

Lemma emits_only_try P (c : M A) : emits_only P c -> emits_only P (try_ c).
Proof.
  intros Hc w. destruct (Hc w) as (d & H & F). exists d.
  unfold try_. by destruct (c w).
Qed.

Lemma emits_only_fmap P (g : A -> B) (c : M A) :
  emits_only P c -> emits_only P (g <$> c).
Proof.
  intros Hc w. destruct (Hc w) as (d & H & F). exists d.
  unfold fmap, M_fmap. by destruct (c w) as [[a|e] w1].
Qed.

Lemma emits_only_weaken (P Q : Effect -> bool) (c : M A) :
  (forall e, P e = true -> Q e = true) -> emits_only P c -> emits_only Q c.
Proof.
  intros HPQ Hc w. destruct (Hc w) as (d & H & F). exists d. split; [done|].
  eapply Forall_impl; [exact F | done].
Qed.
End world_monad.

Lemma emits_only_emit P e : P e = true -> Executor.emits_only P (Executor.emit e).
Proof. intros H w. exists [e]. split; [done | by constructor]. Qed.

Lemma emits_only_retry_async {A} P (func : Executor.M A) n delay backoff :
  (forall d, P (Executor.Sleep d) = true) ->
  Executor.emits_only P func ->
  Executor.emits_only P (Executor.retry_async func n delay backoff).
Proof.
  intros Hs Hf. revert delay.
  induction n as [|n IH]; intros delay; simpl.
  - apply emits_only_ret.
  - apply emits_only_bind; [by apply emits_only_try|].
    intros [a|e]; [apply emits_only_ret|].
    destruct n; [apply emits_only_raise|].
    apply emits_only_bind; [by apply emits_only_emit|]. intros _. apply IH.
Qed.

(** ** PermissionManager: one-shot resolution *)

(** The fold of [cancel_all] over the pending requests: a future that is
    done keeps its state, a future some pending request waits on is
    completed with [v] if it was not done, and no other future changes. *)
Lemma cancel_all_fold {R A} (fut : R -> nat) (v : A)
    (fut0 : gmap nat (Future A)) (pend : gmap string R) :
  let fs := map_fold (fun _ req fs =>
                        if done (fs !! fut req) then fs
                        else <[fut req := Done v]> fs) fut0 pend in
  forall f,
    (done (fut0 !! f) = true -> fs !! f = fut0 !! f)
    /\ ((exists rid req, pend !! rid = Some req /\ fut req = f) ->
        done (fut0 !! f) = false -> fs !! f = Some (Done v))
    /\ ((forall rid req, pend !! rid = Some req -> fut req <> f) ->
        fs !! f = fut0 !! f).
Proof.
  simpl. intros f.
  cut ((done (fut0 !! f) = true ->
        map_fold (fun _ req fs => if done (fs !! fut req) then fs
                                  else <[fut req := Done v]> fs) fut0 pend !! f
        = fut0 !! f)
       /\ ((exists rid req, pend !! rid = Some req /\ fut req = f) ->
           done (fut0 !! f) = false ->
           map_fold (fun _ req fs => if done (fs !! fut req) then fs
                                     else <[fut req := Done v]> fs) fut0 pend !! f
           = Some (Done v))
       /\ ((forall rid req, pend !! rid = Some req -> fut req <> f) ->
           map_fold (fun _ req fs => if done (fs !! fut req) then fs
                                     else <[fut req := Done v]> fs) fut0 pend !! f
           = fut0 !! f)
       /\ (done (fut0 !! f) = false ->
           map_fold (fun _ req fs => if done (fs !! fut req) then fs
                                     else <[fut req := Done v]> fs) fut0 pend !! f
           = fut0 !! f
           \/ map_fold (fun _ req fs => if done (fs !! fut req) then fs
                                        else <[fut req := Done v]> fs) fut0 pend !! f
              = Some (Done v))).
  { intros (H1 & H2 & H3 & _). auto. }
  revert f.
  apply (map_fold_weak_ind (fun fs pend => forall f,
    (done (fut0 !! f) = true -> fs !! f = fut0 !! f)
    /\ ((exists rid req, pend !! rid = Some req /\ fut req = f) ->
        done (fut0 !! f) = false -> fs !! f = Some (Done v))
    /\ ((forall rid req, pend !! rid = Some req -> fut req <> f) ->
        fs !! f = fut0 !! f)
    /\ (done (fut0 !! f) = false ->
        fs !! f = fut0 !! f \/ fs !! f = Some (Done v)))).
  - intros f. repeat split; try done; [|by left].
    by intros (rid & req & H%lookup_empty_Some & _).
  - intros rid req pd fs Hnone IH f.
    destruct (IH f) as (IH1 & IH2 & IH3 & IH4).
    destruct (decide (fut req = f)) as [Heq|Hne].
    + subst f. destruct (done (fs !! fut req)) eqn:Hfs.
      * repeat split; try done.
        -- intros _ Hd. destruct (IH4 Hd) as [Hx|Hx]; [|done].
           rewrite Hx in Hfs. congruence.
        -- intros Hno. exfalso. eapply (Hno rid req); [apply lookup_insert_eq | done].
      * rewrite lookup_insert_eq. repeat split; try done.
        -- intros Hd. rewrite (IH1 Hd) in Hfs. congruence.
        -- intros Hno. exfalso. eapply (Hno rid req); [apply lookup_insert_eq | done].
        -- by right.
    + assert (Hsame : (if done (fs !! fut req) then fs
                       else <[fut req := Done v]> fs) !! f = fs !! f).
      { destruct (done (fs !! fut req)); [done|]. by rewrite lookup_insert_ne. }
      rewrite Hsame. repeat split.
      * exact IH1.
      * intros (rid' & req' & Hl & Hf) Hd. apply IH2; [|done].
        destruct (decide (rid' = rid)) as [->|Hr].
        -- rewrite lookup_insert_eq in Hl. congruence.
        -- rewrite lookup_insert_ne in Hl by done. by exists rid', req'.
      * intros Hno. apply IH3. intros rid' req' Hl. apply (Hno rid' req').
        destruct (decide (rid' = rid)) as [->|Hr]; [congruence|].
        by rewrite lookup_insert_ne.
      * exact IH4.
Qed.

Module PermissionFacts.
Import PermissionManager.

Lemma resolve_unknown m rid approved :
  _pending m !! rid = None -> resolve rid approved m = (false, m).
Proof. intros H. unfold resolve. by rewrite H. Qed.

Lemma resolve_not_pending m rid approved :
  _pending (resolve rid approved m).2 !! rid = None.
Proof.
  unfold resolve. destruct (_pending m !! rid) as [r|] eqn:E; simpl; [|done].
  destruct (done _); simpl; apply lookup_delete_eq.
Qed.

Lemma resolve_delivers m rid approved r :
  _pending m !! rid = Some r ->
  let f := response_future r in
  done (futures (resolve rid approved m).2 !! f) = true
  /\ (done (futures m !! f) = true ->
        futures (resolve rid approved m).2 !! f = futures m !! f)
  /\ (done (futures m !! f) = false ->
        futures (resolve rid approved m).2 !! f = Some (Done approved)).
Proof.
  intros H f. unfold resolve. rewrite H. simpl. fold f.
  destruct (done (futures m !! f)) eqn:E; simpl.
  - rewrite E. by repeat split.
  - rewrite lookup_insert_eq. by repeat split.
Qed.

(** A slot that is done keeps its state through every later [resolve]. *)
Lemma resolve_keeps_done m rid approved f :
  done (futures m !! f) = true ->
  futures (resolve rid approved m).2 !! f = futures m !! f.
Proof.
  intros Hf. unfold resolve.
  destruct (_pending m !! rid) as [r|]; simpl; [|done].
  destruct (done (futures m !! response_future r)) eqn:Hd; simpl; [done|].
  destruct (decide (response_future r = f)) as [Heq|Hne].
  - rewrite Heq, Hf in Hd. discriminate.
  - by rewrite lookup_insert_ne.
Qed.

(** C8. Resolving a request id a second time, or resolving an id that is
    not pending, returns [false] and leaves the manager as it is, every
    outcome slot included.  The slot of a pending request is done after
    the first resolution: it holds the value of that resolution if it was
    not done before, and what it held before otherwise; the second
    resolution does not touch it, nor any other slot. *)
Theorem resolve_second_time_is_noop m rid a1 a2 :
  let m1 := (resolve rid a1 m).2 in
  resolve rid a2 m1 = (false, m1)
  /\ (_pending m !! rid = None -> resolve rid a1 m = (false, m))
  /\ (forall r, _pending m !! rid = Some r ->
        let f := response_future r in
        futures m1 !! f
          = (if done (futures m !! f) then futures m !! f else Some (Done a1))
        /\ done (futures m1 !! f) = true
        /\ futures (resolve rid a2 m1).2 !! f = futures m1 !! f)
  /\ (forall f, futures (resolve rid a2 m1).2 !! f = futures m1 !! f)
  /\ (forall f, done (futures m !! f) = true ->
        futures (resolve rid a2 m1).2 !! f = futures m !! f).
Proof.
  intros m1.
  assert (H2 : resolve rid a2 m1 = (false, m1))
    by (apply resolve_unknown, resolve_not_pending).
  repeat split.
  - exact H2.
  - apply resolve_unknown.
  - destruct (resolve_delivers m rid a1 r H) as (_ & Hd & Hp).
    destruct (done (futures m !! response_future r)); auto.
  - by destruct (resolve_delivers m rid a1 r H) as (Hd & _).
  - by rewrite H2.
  - by rewrite H2.
  - intros Hf. rewrite H2. simpl. by apply resolve_keeps_done.
Qed.

Lemma resolve_second_time_is_noop_witness :
  resolve "r1" false (resolve "r1" true m_bash).2 = (false, (resolve "r1" true m_bash).2)
  /\ resolve "zz" true m_bash = (false, m_bash)
  /\ futures (resolve "r1" false (resolve "r1" true m_bash).2).2 !! 0%nat
     = Some (Done true).
Proof.
  destruct (resolve_second_time_is_noop m_bash "r1" true false) as (H1 & _ & H3 & _).
  destruct (resolve_second_time_is_noop m_bash "zz" true false) as (_ & H2 & _).
  split; [exact H1|]. split; [apply H2; vm_compute; reflexivity|].
  destruct (H3 {| tool_name := "Bash"; tool_input := JObj [("command", JStr "ls")];
                  request_id := "r1"; response_future := 0%nat |}) as (Hv & _ & Hs).
  - vm_compute. reflexivity.
  - simpl in Hv, Hs. rewrite Hs, Hv. vm_compute. reflexivity.
Defined.

(** A request that was just created is resolved by the first [resolve] on
    its id: the call returns [True], the request's future holds the
    approval given, the id is no longer pending, and the future of no
    earlier request is touched. *)
Theorem created_request_is_resolved tool_name tool_input rid approved m :
  let '(r, m1) := create_request tool_name tool_input rid m in
  let '(b, m2) := resolve rid approved m1 in
  b = true
  /\ request_id r = rid
  /\ futures m !! response_future r = None
  /\ futures m1 !! response_future r = Some Pending
  /\ futures m2 !! response_future r = Some (Done approved)
  /\ _pending m2 !! rid = None
  /\ (forall f, f <> response_future r -> futures m2 !! f = futures m !! f).
Proof.
  unfold create_request, resolve. simpl.
  rewrite lookup_insert_eq. simpl.
  rewrite lookup_insert_eq. simpl.
  pose proof (is_fresh (dom (futures m))) as Hfresh.
  apply not_elem_of_dom in Hfresh.
  repeat split; try exact Hfresh;
    try apply lookup_insert_eq; try apply lookup_delete_eq.
  intros f Hf. by rewrite !lookup_insert_ne.
Qed.

(** A request created under an id that is already pending takes the place
    of the earlier one, whose future no call on that id reaches any more:
    if it was not done, it is still not done after the id is resolved or
    cancelled. *)
Theorem replaced_request_is_never_resolved tool_name tool_input rid old approved m :
  _pending m !! rid = Some old ->
  futures m !! response_future old = Some Pending ->
  let m1 := (create_request tool_name tool_input rid m).2 in
  futures (resolve rid approved m1).2 !! response_future old = Some Pending
  /\ futures (cancel rid m1) !! response_future old = Some Pending
  /\ _pending (resolve rid approved m1).2 !! rid = None
  /\ _pending (cancel rid m1) !! rid = None.
Proof.
  intros Hold Hf m1.
  assert (Hne : fresh (dom (futures m)) <> response_future old).
  { intros Heq. pose proof (is_fresh (dom (futures m))) as Hfresh.
    apply not_elem_of_dom in Hfresh. rewrite Heq in Hfresh. congruence. }
  unfold m1, create_request, resolve, cancel. simpl.
  rewrite !lookup_insert_eq. simpl. rewrite ?lookup_insert_eq. simpl.
  repeat split; try apply lookup_delete_eq; by rewrite !lookup_insert_ne.
Qed.

Lemma replaced_request_is_never_resolved_witness :
  let m1 := (create_request "Edit" (JObj []) "r1" m_bash).2 in
  futures (resolve "r1" true m1).2 !! 0%nat = Some Pending
  /\ futures (resolve "r1" true m1).2 !! 1%nat = Some (Done true).
Proof.
  destruct (replaced_request_is_never_resolved "Edit" (JObj []) "r1"
              {| tool_name := "Bash"; tool_input := JObj [("command", JStr "ls")];
                 request_id := "r1"; response_future := 0%nat |} true m_bash)
    as (H & _).
  - vm_compute. reflexivity.
  - vm_compute. reflexivity.
  - split; [exact H | vm_compute; reflexivity].
Defined.

(** [cancel_all] leaves no request pending and denies every pending
    request that was not settled: a future some pending request waits on
    holds [False] afterwards unless it was done, a future that was done
    keeps its state, and a future no pending request waits on is not
    touched. *)
Theorem cancel_all_denies_what_is_pending m f :
  _pending (cancel_all m) = ∅
  /\ (done (futures m !! f) = true -> futures (cancel_all m) !! f = futures m !! f)
  /\ (awaited m f -> done (futures m !! f) = false ->
      futures (cancel_all m) !! f = Some (Done false))
  /\ (~ awaited m f -> futures (cancel_all m) !! f = futures m !! f).
Proof.
  destruct (cancel_all_fold response_future false (futures m) (_pending m) f)
    as (H1 & H2 & H3).
  split; [reflexivity|]. split; [exact H1|]. split; [exact H2|].
  intros Hno. apply H3. intros rid req Hl Hf. apply Hno. by exists rid, req.
Qed.

Lemma run_op_keeps_done m o f :
  done (futures m !! f) = true -> futures (run_op m o) !! f = futures m !! f.
Proof.
  intros Hd. destruct o as [tn ti rid|rid a|rid|]; unfold run_op.
  - unfold create_request. simpl. pose proof (is_fresh (dom (futures m))) as Hfresh.
    apply not_elem_of_dom in Hfresh.
    rewrite lookup_insert_ne; [done|]. intros Heq. rewrite Heq in Hfresh.
    by rewrite Hfresh in Hd.
  - by apply resolve_keeps_done.
  - unfold cancel. destruct (_pending m !! rid) as [r|]; simpl; [|done].
    destruct (done (futures m !! response_future r)) eqn:Hr; simpl; [done|].
    rewrite lookup_insert_ne; [done|]. intros Heq. rewrite Heq in Hr. congruence.
  - destruct (cancel_all_fold response_future false (futures m) (_pending m) f)
      as (H1 & _). by apply H1.
Qed.

(** An outcome is delivered once: a future that is done keeps its state
    through every sequence of calls on the manager. *)
Theorem settled_permission_is_final ops m f :
  done (futures m !! f) = true ->
  futures (run_ops ops m) !! f = futures m !! f.
Proof.
  revert m. induction ops as [|o ops IH]; intros m Hd; [done|].
  unfold run_ops. simpl. fold (run_ops ops (run_op m o)).
  rewrite IH; [by apply run_op_keeps_done|].
  by rewrite run_op_keeps_done.
Qed.

Lemma settled_permission_is_final_witness :
  futures (run_ops [Resolve "r1" false; CreateRequest "Bash" (JObj []) "r1";
                    Cancel "r1"; CancelAll]
                   (resolve "r1" true m_bash).2) !! 0%nat
  = Some (Done true).
Proof.
  rewrite (settled_permission_is_final _ (resolve "r1" true m_bash).2 0%nat).
  - vm_compute. reflexivity.
  - vm_compute. reflexivity.
Defined.

End PermissionFacts.

(** ** QuestionManager: selections and completion *)

Module QuestionFacts.
Import QuestionManager.

(** *** Toggling *)

Lemma toggle_toggle (s : gset Z) (o : Z) :
  (let s1 := if bool_decide (o ∈ s) then s ∖ {[o]} else s ∪ {[o]} in
   if bool_decide (o ∈ s1) then s1 ∖ {[o]} else s1 ∪ {[o]}) = s.
Proof.
  simpl. destruct (bool_decide (o ∈ s)) eqn:E.
  - apply bool_decide_eq_true in E.
    rewrite bool_decide_eq_false_2 by set_solver.
    apply set_eq. intros x. destruct (decide (x = o)); set_solver.
  - apply bool_decide_eq_false in E.
    rewrite bool_decide_eq_true_2 by set_solver.
    set_solver.
Qed.

Lemma toggle_twice_state m rid qi oi :
  (toggle_multi_select rid qi oi (toggle_multi_select rid qi oi m).2)
  = (selections_of m rid qi, entry_made m rid qi).
Proof.
  unfold toggle_multi_select at 2. unfold entry_made, selections_of.
  destruct (_pending m !! rid) as [r|] eqn:E; simpl.
  - unfold toggle_multi_select. simpl. rewrite lookup_insert_eq. simpl.
    rewrite lookup_insert_eq.
    pose proof (toggle_toggle
                  (match multi_selections r !! qi with Some s => s | None => ∅ end)
                  oi) as T.
    simpl in T. rewrite T.
    unfold with_pending, with_multi_selections. simpl.
    by rewrite !insert_insert_eq.
  - unfold toggle_multi_select. by rewrite E.
Qed.

Lemma entry_made_selections m rid qi rid' qj :
  selections_of (entry_made m rid qi) rid' qj = selections_of m rid' qj.
Proof.
  unfold entry_made. destruct (_pending m !! rid) as [r|] eqn:E; [|done].
  unfold selections_of at 1 3. simpl.
  destruct (decide (rid = rid')) as [<-|Hne].
  - rewrite lookup_insert_eq, E. simpl.
    destruct (decide (qi = qj)) as [<-|Hq].
    + rewrite lookup_insert_eq. unfold selections_of. by rewrite E.
    + by rewrite lookup_insert_ne.
  - by rewrite lookup_insert_ne.
Qed.

Lemma entry_made_id m rid qi r s :
  _pending m !! rid = Some r -> multi_selections r !! qi = Some s ->
  entry_made m rid qi = m.
Proof.
  intros E Hs. unfold entry_made, selections_of. rewrite E, Hs.
  rewrite (insert_id (multi_selections r)) by done.
  destruct m as [p a f], r as [? ? ? ? ? ?]. unfold with_pending, with_multi_selections.
  simpl in *. f_equal. by apply insert_id.
Qed.

(** C9. Toggling the same option of the same question twice in succession
    gives back the selection set the question had: the second call returns
    it, every selection set of every request reads as before, answers,
    futures and the other requests are untouched, an option that was not
    selected is not selected again, and when the question already had an
    entry the manager is exactly as before. *)
Theorem toggle_twice_restores m rid qi oi :
  let m2 := (toggle_multi_select rid qi oi (toggle_multi_select rid qi oi m).2).2 in
  let s2 := (toggle_multi_select rid qi oi (toggle_multi_select rid qi oi m).2).1 in
  s2 = selections_of m rid qi
  /\ (forall rid' qj, selections_of m2 rid' qj = selections_of m rid' qj)
  /\ (oi ∉ selections_of m rid qi -> oi ∉ selections_of m2 rid qi)
  /\ futures m2 = futures m
  /\ _awaiting_text m2 = _awaiting_text m
  /\ (forall rid', rid' <> rid -> _pending m2 !! rid' = _pending m !! rid')
  /\ (forall r, _pending m !! rid = Some r ->
        exists r2, _pending m2 !! rid = Some r2
                   /\ answers r2 = answers r /\ questions r2 = questions r
                   /\ response_future r2 = response_future r)
  /\ (forall r s, _pending m !! rid = Some r -> multi_selections r !! qi = Some s ->
        m2 = m).
Proof.
  intros m2 s2. subst m2 s2. rewrite toggle_twice_state. simpl.
  split; [done|]. split; [intros; apply entry_made_selections|].
  split; [by rewrite entry_made_selections|].
  unfold entry_made.
  destruct (_pending m !! rid) as [r|] eqn:E; simpl.
  - repeat split; try done.
    + intros rid' Hne. by rewrite lookup_insert_ne.
    + intros r0 [= <-]. eexists. rewrite lookup_insert_eq. done.
    + intros r0 s [= <-] Hs.
      pose proof (entry_made_id m rid qi r s E Hs) as H.
      unfold entry_made in H. by rewrite E in H.
  - repeat split; try done.
Qed.

Lemma toggle_twice_restores_witness :
  (toggle_multi_select "q1" 0 0 (toggle_multi_select "q1" 0 0 m_toggled).2).2 = m_toggled
  /\ 0 ∉ selections_of
           (toggle_multi_select "q1" 0 0 (toggle_multi_select "q1" 0 0 m_toggled).2).2
           "q1" 0.
Proof.
  destruct (toggle_twice_restores m_toggled "q1" 0 0) as (_ & _ & H3 & _ & _ & _ & _ & H8).
  split.
  - eapply H8; vm_compute; reflexivity.
  - apply H3. vm_compute. set_solver.
Defined.

(** *** Completion *)

(** With every key a question index, counting the answers decides whether
    every question has one. *)
Lemma size_answered_all n (ans : gmap Z string) :
  keys_in_range n ans -> (size ans = n <-> answered_all n ans).
Proof.
  intros Hk.
  set (full := list_to_set (seqZ 0 (Z.of_nat n)) : gset Z).
  assert (Hfull : size full = n).
  { unfold full. rewrite size_list_to_set by apply NoDup_seqZ.
    rewrite length_seqZ. lia. }
  assert (Hsub : dom ans ⊆ full).
  { intros i Hi. apply elem_of_dom in Hi. apply Hk in Hi.
    unfold full. rewrite elem_of_list_to_set, elem_of_seqZ. lia. }
  rewrite <- (size_dom (D := gset Z) ans). split.
  - intros Hs i Hi.
    assert (dom ans = full) as Heq
      by (apply set_subseteq_size_eq; [done | lia]).
    apply elem_of_dom. rewrite Heq. unfold full.
    rewrite elem_of_list_to_set, elem_of_seqZ. lia.
  - intros Ha. apply Nat.le_antisymm.
    + rewrite <- Hfull. by apply subseteq_size.
    + rewrite <- Hfull. apply subseteq_size. intros i Hi.
      unfold full in Hi. rewrite elem_of_list_to_set, elem_of_seqZ in Hi.
      apply elem_of_dom, Ha. lia.
Qed.

Lemma status_set_answer rid f n m i a :
  0 <= i < Z.of_nat n -> status rid f n m ->
  status rid f n (set_answer rid i a m).2.
Proof.
  intros Hi [r Hp Hf Hn Hfut Hk Hna | ans Hp Hfut Ha].
  - unfold set_answer. rewrite Hp. cbn -[all_answered].
    assert (Hk' : keys_in_range n (<[i:=a]> (answers r))).
    { intros j Hj. destruct (decide (i = j)) as [<-|Hne]; [done|].
      rewrite lookup_insert_ne in Hj by done. by apply Hk. }
    rewrite Hf, Hfut. simpl. rewrite andb_true_r.
    unfold all_answered. simpl. rewrite Hn.
    destruct (bool_decide (size (<[i:=a]> (answers r)) = n)) eqn:Hs; simpl.
    + apply bool_decide_eq_true in Hs.
      apply status_resolved with (ans := <[i:=a]> (answers r)); simpl.
      * apply lookup_delete_eq.
      * apply lookup_insert_eq.
      * by apply size_answered_all.
    + apply bool_decide_eq_false in Hs.
      eapply status_pending; simpl.
      * apply lookup_insert_eq.
      * done.
      * done.
      * done.
      * done.
      * intros Hall. apply Hs. by apply size_answered_all.
  - unfold set_answer. rewrite Hp. simpl. by eapply status_resolved.
Qed.

Lemma status_toggle rid f n m i o :
  status rid f n m -> status rid f n (toggle_multi_select rid i o m).2.
Proof.
  intros [r Hp Hf Hn Hfut Hk Hna | ans Hp Hfut Ha].
  - unfold toggle_multi_select. rewrite Hp. simpl.
    eapply status_pending; simpl; [apply lookup_insert_eq | done ..].
  - unfold toggle_multi_select. rewrite Hp. simpl. by eapply status_resolved.
Qed.

Lemma status_do_call rid f n m c :
  0 <= call_index c < Z.of_nat n -> status rid f n m ->
  status rid f n (do_call rid m c).
Proof.
  intros Hi Hs. destruct c as [i a | i o | i]; simpl in *.
  - by apply status_set_answer.
  - by apply status_toggle.
  - destruct (finalize_multi_select rid i m) as [[b m']|e] eqn:E; [|done].
    unfold finalize_multi_select in E.
    destruct (_pending m !! rid) as [r|] eqn:Hp.
    + destruct (list_index (questions r) i) as [q|]; simpl in E; [|done].
      destruct (get q "options" (JArr [])) as [opts|]; simpl in E; [|done].
      destruct (selected_labels opts _) as [labels|]; simpl in E; [|done].
      apply Res_bind_Ok in E as (answer & _ & E).
      injection E as E. apply (f_equal snd) in E. simpl in E. subst m'.
      by apply status_set_answer.
    + by injection E as _ <-.
Qed.

Lemma status_do_calls rid f n cs m :
  Forall (fun c => 0 <= call_index c < Z.of_nat n) cs ->
  status rid f n m -> status rid f n (do_calls rid cs m).
Proof.
  unfold do_calls. revert m.
  induction cs as [|c cs IH]; intros m Hcs Hs; simpl; [done|].
  apply Forall_cons in Hcs as [Hc Hcs].
  apply IH; [done|]. by apply status_do_call.
Qed.

Lemma status_create_request rid qs m :
  qs <> [] ->
  status rid (response_future (create_request rid qs m).1) (List.length qs)
         (create_request rid qs m).2.
Proof.
  intros Hne. unfold create_request. simpl.
  eapply status_pending; simpl.
  - apply lookup_insert_eq.
  - done.
  - done.
  - apply lookup_insert_eq.
  - intros i [x Hx]. simpl in Hx. by rewrite lookup_empty in Hx.
  - intros Hall. destruct qs as [|q qs]; [done|].
    destruct (Hall 0) as [x Hx]; [simpl; lia|].
    simpl in Hx. by rewrite lookup_empty in Hx.
Qed.

(** C7, as stated, fails: an answer filed under an index outside the
    question list is counted like any other, so two answers complete a
    two-question request whose question 1 has none; and a request with no
    question has every question answered, yet nothing completes it. *)
Lemma partial_answers_complete_future :
  (let f := response_future (create_request "q1" [q_plain; q_plain] init).1 in
   let m' := do_calls "q1" calls_out_of_range
               (create_request "q1" [q_plain; q_plain] init).2 in
   completed_with m' f (collected m' "q1" f)
   /\ ~ answered_all 2 (collected m' "q1" f))
  /\ (let f := response_future (create_request "q0" [] init).1 in
      let m0 := (create_request "q0" [] init).2 in
      answered_all 0 (collected m0 "q0" f) /\ futures m0 !! f = Some Pending).
Proof.
  split; [split|split].
  - vm_compute. reflexivity.
  - intros H. destruct (H 1) as [x Hx]; [simpl; lia|].
    vm_compute in Hx. discriminate.
  - intros i Hi. simpl in Hi. lia.
  - vm_compute. reflexivity.
Qed.

(** C7, amended. For a request with at least one question, after any
    sequence of [set_answer], [toggle_multi_select] and
    [finalize_multi_select] calls whose question indices lie in the
    question list, the outcome future is completed with the collected
    answers if and only if every question index has an answer; it is never
    completed with anything else, and the request is pending exactly while
    the future is. *)
Theorem future_completes_iff_all_answered m rid qs cs :
  qs <> [] ->
  Forall (fun c => 0 <= call_index c < Z.of_nat (List.length qs)) cs ->
  let f := response_future (create_request rid qs m).1 in
  let m' := do_calls rid cs (create_request rid qs m).2 in
  (completed_with m' f (collected m' rid f)
   <-> answered_all (List.length qs) (collected m' rid f))
  /\ (forall v, futures m' !! f = Some (Done v) -> v = Some (collected m' rid f))
  /\ (futures m' !! f = Some Pending <-> is_Some (_pending m' !! rid)).
Proof.
  intros Hne Hcs f m'.
  assert (Hs : status rid f (List.length qs) m').
  { apply status_do_calls; [done|]. by apply status_create_request. }
  unfold completed_with, collected.
  destruct Hs as [r Hp Hf Hn Hfut Hk Hna | ans Hp Hfut Ha].
  - rewrite Hp, Hfut. repeat split; try done.
  - rewrite Hp, Hfut. repeat split; try done.
    by intros v [= <-].
Qed.

Lemma future_completes_iff_all_answered_witness :
  let f := response_future (create_request "q1" [q_colour; q_plain] init).1 in
  let m' := do_calls "q1" calls_in_range
              (create_request "q1" [q_colour; q_plain] init).2 in
  completed_with m' f (collected m' "q1" f)
  <-> answered_all 2 (collected m' "q1" f).
Proof.
  refine (proj1 (future_completes_iff_all_answered init "q1" [q_colour; q_plain]
                   calls_in_range _ _)).
  - discriminate.
  - unfold calls_in_range. repeat constructor; simpl; lia.
Defined.

(** *** Delivery *)

Lemma set_answer_keeps_done rid i a m f :
  done (futures m !! f) = true -> futures (set_answer rid i a m).2 !! f = futures m !! f.
Proof.
  intros Hd. unfold set_answer. destruct (_pending m !! rid) as [r|]; [|done].
  cbn -[all_answered].
  destruct (all_answered _ && negb (done (futures m !! response_future r))) eqn:Hc;
    [|done].
  simpl. apply andb_true_iff in Hc as [_ Hn]. apply negb_true_iff in Hn.
  rewrite lookup_insert_ne; [done|]. intros Heq. rewrite Heq in Hn. congruence.
Qed.

Lemma question_op_keeps_done m o f :
  done (futures m !! f) = true -> futures (run_op m o) !! f = futures m !! f.
Proof.
  intros Hd. destruct o as [rid qs|rid c|c rid qi|c|rid|]; unfold run_op.
  - unfold create_request. simpl.
    pose proof (is_fresh (dom (futures m))) as Hfresh.
    apply not_elem_of_dom in Hfresh.
    rewrite lookup_insert_ne; [done|]. intros Heq. rewrite Heq in Hfresh.
    by rewrite Hfresh in Hd.
  - destruct c as [i a|i o|i]; unfold do_call.
    + by apply set_answer_keeps_done.
    + unfold toggle_multi_select. by destruct (_pending m !! rid).
    + destruct (finalize_multi_select rid i m) as [[b m']|e] eqn:Hfin; [|done].
      unfold finalize_multi_select in Hfin.
      destruct (_pending m !! rid) as [r|]; [|by injection Hfin as _ <-].
      apply Res_bind_Ok in Hfin as (q & _ & Hfin).
      apply Res_bind_Ok in Hfin as (opts & _ & Hfin).
      apply Res_bind_Ok in Hfin as (ls & _ & Hfin).
      apply Res_bind_Ok in Hfin as (ans & _ & Hfin).
      injection Hfin as Hfin.
      replace m' with (set_answer rid i ans m).2 by (by rewrite Hfin).
      by apply set_answer_keeps_done.
  - done.
  - done.
  - unfold cancel. destruct (_pending m !! rid) as [r|]; simpl; [|done].
    destruct (done (futures m !! response_future r)) eqn:Hr; simpl; [done|].
    rewrite lookup_insert_ne; [done|]. intros Heq. rewrite Heq in Hr. congruence.
  - destruct (cancel_all_fold response_future None (futures m) (_pending m) f)
      as (H1 & _). by apply H1.
Qed.

(** An outcome is delivered once: a future that is done, with the answers
    or with [None], keeps its state through every sequence of calls on the
    manager. *)
Theorem settled_question_is_final ops m f :
  done (futures m !! f) = true ->
  futures (run_ops ops m) !! f = futures m !! f.
Proof.
  revert m. induction ops as [|o ops IH]; intros m Hd; [done|].
  unfold run_ops. simpl. fold (run_ops ops (run_op m o)).
  rewrite IH; [by apply question_op_keeps_done|].
  by rewrite question_op_keeps_done.
Qed.

Lemma settled_question_is_final_witness :
  futures (run_ops [OnRequest "q1" (SetAnswer 0 "green"); Cancel "q1";
                    CreateRequest "q1" [q_plain]; CancelAll]
                   (set_answer "q1" 0 "red" m_toggled).2) !! 0%nat
  = Some (Done (Some {[ 0 := "red" ]})).
Proof.
  rewrite (settled_question_is_final _ (set_answer "q1" 0 "red" m_toggled).2 0%nat).
  - vm_compute. reflexivity.
  - vm_compute. reflexivity.
Defined.

(** [cancel_all] leaves no request pending and no chat awaiting a text,
    and cancels every pending request that was not settled: a future some
    pending request waits on holds [None] afterwards unless it was done, a
    future that was done keeps its state, and a future no pending request
    waits on is not touched. *)
Theorem cancel_all_cancels_what_is_pending m f :
  _pending (cancel_all m) = ∅
  /\ _awaiting_text (cancel_all m) = ∅
  /\ (done (futures m !! f) = true -> futures (cancel_all m) !! f = futures m !! f)
  /\ (awaited m f -> done (futures m !! f) = false ->
      futures (cancel_all m) !! f = Some (Done None))
  /\ (~ awaited m f -> futures (cancel_all m) !! f = futures m !! f).
Proof.
  destruct (cancel_all_fold response_future None (futures m) (_pending m) f)
    as (H1 & H2 & H3).
  split; [reflexivity|]. split; [reflexivity|]. split; [exact H1|]. split; [exact H2|].
  intros Hno. apply H3. intros rid req Hl Hf. apply Hno. by exists rid, req.
Qed.

(** *** Multi-select answers *)

Lemma mapM_as_str_fmap (ls : list string) : mapM as_str (JStr <$> ls) = Ok ls.
Proof.
  induction ls as [|l ls IH]; [done|]. rewrite fmap_cons.
  cbn [mapM as_str mbind Res_bind]. by rewrite IH.
Qed.

Lemma selected_labels_in_range opts labels idxs :
  Forall2 (fun o l => getitem o "label" = Ok (JStr l)) opts labels ->
  Forall (fun i => 0 <= i < Z.of_nat (List.length opts)) idxs ->
  selected_labels (JArr opts) idxs = Ok (JStr <$> labels_at labels idxs)
  /\ List.length (labels_at labels idxs) = List.length idxs.
Proof.
  intros Hl Hi. induction Hi as [|i idxs Hr _ [IH IHn]]; [done|].
  assert (exists o l, opts !! Z.to_nat i = Some o /\ labels !! Z.to_nat i = Some l
                      /\ getitem o "label" = Ok (JStr l)) as (o & l & Ho & Hlab & Hg).
  { destruct (lookup_lt_is_Some_2 opts (Z.to_nat i)) as [o Ho]; [lia|].
    destruct (Forall2_lookup_l _ _ _ _ _ Hl Ho) as (l & Hlab & Hg). by exists o, l. }
  cbn [selected_labels len]. cbn [mbind Res_bind].
  assert ((i <? Z.of_nat (List.length opts)) = true) as -> by lia.
  unfold getitem_int, list_index.
  assert ((i <? 0) = false) as -> by lia.
  assert (((0 <=? i) && (i <? Z.of_nat (List.length opts))) = true) as -> by lia.
  rewrite Ho. cbn [mbind Res_bind]. rewrite Hg. cbn [mbind Res_bind].
  rewrite IH. cbn [mbind Res_bind].
  unfold labels_at. cbn [omap list_omap]. rewrite Hlab. split; [done|].
  simpl. f_equal. exact IHn.
Qed.

(** Finalising a multi-select question whose selected indices are option
    indices answers it with the labels of the selected options, in the
    order of the options whatever the order they were selected in, joined
    by a comma and a space; with nothing selected the answer is the fixed
    text for an empty selection.  The call does not raise. *)
Theorem finalize_joins_selected_labels m rid qi r q opts labels :
  _pending m !! rid = Some r ->
  list_index (questions r) qi = Ok q ->
  get q "options" (JArr []) = Ok (JArr opts) ->
  Forall2 (fun o l => getitem o "label" = Ok (JStr l)) opts labels ->
  (forall i, i ∈ selections_of m rid qi -> 0 <= i < Z.of_nat (List.length opts)) ->
  let idxs := merge_sort Z.le (elements (selections_of m rid qi)) in
  Sorted Z.le idxs
  /\ idxs ≡ₚ elements (selections_of m rid qi)
  /\ finalize_multi_select rid qi m
     = Ok (set_answer rid qi
             (if decide (selections_of m rid qi = ∅) then NOTHING_SELECTED
              else join ", " (labels_at labels idxs)) m).
Proof.
  intros Hp Hq Ho Hl Hr idxs.
  assert (Hperm : idxs ≡ₚ elements (selections_of m rid qi))
    by apply merge_sort_Permutation.
  split; [apply Sorted_merge_sort; apply _|]. split; [exact Hperm|].
  assert (Hin : Forall (fun i => 0 <= i < Z.of_nat (List.length opts)) idxs).
  { apply Forall_forall. intros i Hi. apply Hr.
    rewrite Hperm in Hi. by apply elem_of_elements in Hi. }
  destruct (selected_labels_in_range opts labels idxs Hl Hin) as [Hs Hn].
  unfold finalize_multi_select. rewrite Hp, Hq. cbn [mbind Res_bind].
  rewrite Ho. cbn [mbind Res_bind].
  assert (Hsel : match multi_selections r !! qi with Some s => s | None => ∅ end
                 = selections_of m rid qi) by (unfold selections_of; by rewrite Hp).
  rewrite Hsel. fold idxs. rewrite Hs. cbn [mbind Res_bind].
  destruct (decide (selections_of m rid qi = ∅)) as [He|Hne].
  - assert (idxs = []) as Hnil.
    { apply Permutation_nil_r. rewrite Hperm, He. by rewrite elements_empty. }
    rewrite Hnil. done.
  - destruct (labels_at labels idxs) as [|l ls] eqn:Hls.
    + exfalso. apply Hne. apply leibniz_equiv, elements_empty_inv.
      apply Permutation_nil_r. rewrite <- Hperm.
      by rewrite (nil_length_inv idxs).
    + rewrite <- Hls.
      replace (JStr <$> labels_at labels idxs)
        with (JStr l :: (JStr <$> ls)) by (by rewrite Hls).
      change (JStr l :: (JStr <$> ls)) with (JStr <$> (l :: ls)).
      rewrite mapM_as_str_fmap. rewrite Hls. done.
Qed.

Lemma finalize_joins_selected_labels_witness :
  finalize_multi_select "q2" 0 m_sizes
  = Ok (set_answer "q2" 0 "small, large" m_sizes).
Proof.
  assert (Hs : selections_of m_sizes "q2" 0 = {[0; 2]}) by (vm_compute; reflexivity).
  destruct (finalize_joins_selected_labels m_sizes "q2" 0
              {| request_id := "q2"; questions := [q_sizes; q_plain];
                 answers := ∅; multi_selections := {[ 0 := {[0; 2]} ]};
                 response_future := 0%nat; awaiting_text := ∅ |}
              q_sizes
              [JObj [("label", JStr "small")]; JObj [("label", JStr "medium")];
               JObj [("label", JStr "large")]]
              ["small"; "medium"; "large"]) as (_ & _ & H).
  - vm_compute. reflexivity.
  - reflexivity.
  - reflexivity.
  - repeat constructor.
  - intros i Hi. rewrite Hs in Hi.
    apply elem_of_union in Hi as [Hi|Hi]; apply elem_of_singleton in Hi;
      subst i; simpl; lia.
  - rewrite H. vm_compute. reflexivity.
Defined.

(** *** After the outcome *)

Lemma not_pending_ignores m rid : _pending m !! rid = None -> ignores m rid.
Proof.
  intros H i a o.
  unfold set_answer, toggle_multi_select, finalize_multi_select, cancel.
  by rewrite H.
Qed.

(** Once a request is completed by its last answer, or cancelled, every
    later call on its id is ignored: [set_answer] and
    [finalize_multi_select] return [False], [toggle_multi_select] returns
    the empty set, and the manager, the delivered answers included, stays
    as it is. *)
Theorem settled_request_ignores_calls m rid i a :
  ((set_answer rid i a m).1 = true -> ignores (set_answer rid i a m).2 rid)
  /\ ignores (cancel rid m) rid.
Proof.
  split.
  - intros Ht. apply not_pending_ignores. revert Ht. unfold set_answer.
    destruct (_pending m !! rid) as [r|]; [|done].
    cbn -[all_answered].
    destruct (all_answered _ && _); [|done].
    intros _. simpl. apply lookup_delete_eq.
  - apply not_pending_ignores. unfold cancel.
    destruct (_pending m !! rid) as [r|] eqn:E; [|done].
    simpl. destruct (done _); simpl; apply lookup_delete_eq.
Qed.

(** *** One toggle *)

(** A toggle on a pending request flips the option it names and no other:
    the set returned is the question's new selection, the option is in it
    exactly when it was not selected, every other option is as before, the
    selections of the other questions and requests are as before, and no
    answer or outcome is touched. *)
Theorem toggle_flips_one_option m rid qi oi r :
  _pending m !! rid = Some r ->
  let s := (toggle_multi_select rid qi oi m).1 in
  let m1 := (toggle_multi_select rid qi oi m).2 in
  s = selections_of m1 rid qi
  /\ (oi ∈ s <-> oi ∉ selections_of m rid qi)
  /\ (forall o, o <> oi -> (o ∈ s <-> o ∈ selections_of m rid qi))
  /\ (forall rid' qj, (rid', qj) <> (rid, qi) ->
        selections_of m1 rid' qj = selections_of m rid' qj)
  /\ (exists r1, _pending m1 !! rid = Some r1 /\ answers r1 = answers r)
  /\ futures m1 = futures m.
Proof.
  intros Hp s m1. subst s m1. unfold toggle_multi_select, selections_of.
  rewrite Hp. simpl. rewrite !lookup_insert_eq. simpl. rewrite lookup_insert_eq.
  set (s0 := match multi_selections r !! qi with Some s => s | None => ∅ end).
  split; [done|]. split; [|split; [|split; [|split]]].
  - destruct (bool_decide (oi ∈ s0)) eqn:E.
    + apply bool_decide_eq_true in E. set_solver.
    + apply bool_decide_eq_false in E. set_solver.
  - intros o Ho. destruct (bool_decide (oi ∈ s0)); set_solver.
  - intros rid' qj Hne. destruct (decide (rid' = rid)) as [->|Hr].
    + rewrite lookup_insert_eq, Hp. simpl.
      rewrite lookup_insert_ne; [done|]. intros ->. by apply Hne.
    + by rewrite lookup_insert_ne.
  - eexists. split; [reflexivity|done].
  - done.
Qed.

Lemma toggle_flips_one_option_witness :
  (1 ∉ (toggle_multi_select "q1" 0 1 m_toggled).1)
  /\ (0 ∈ (toggle_multi_select "q1" 0 0 m_toggled).1).
Proof.
  assert (Hs : selections_of m_toggled "q1" 0 = {[1]}) by (vm_compute; reflexivity).
  assert (Hp : _pending m_toggled !! "q1"
               = Some {| request_id := "q1"; questions := [q_colour];
                         answers := ∅; multi_selections := {[ 0 := {[1]} ]};
                         response_future := 0%nat; awaiting_text := ∅ |})
    by (vm_compute; reflexivity).
  split.
  - destruct (toggle_flips_one_option m_toggled "q1" 0 1 _ Hp) as (_ & H & _).
    intros Hin. apply H in Hin. apply Hin. rewrite Hs. set_solver.
  - destruct (toggle_flips_one_option m_toggled "q1" 0 0 _ Hp) as (_ & H & _).
    apply H. rewrite Hs. set_solver.
Defined.

End QuestionFacts.

(** ** Executor *)

Module ExecutorFacts.
Import Executor.

(** *** Strings *)

Lemma append_cons (x : ascii) (a b : string) :
  String x a +:+ b = String x (a +:+ b).
Proof. reflexivity. Qed.

Lemma append_empty_l (a : string) : "" +:+ a = a.
Proof. reflexivity. Qed.

Lemma append_assoc (a b c : string) : (a +:+ b) +:+ c = a +:+ (b +:+ c).
Proof.
  induction a as [|x a IH]; [done|]. by rewrite !append_cons, IH.
Qed.

Lemma append_empty_r (a : string) : a +:+ "" = a.
Proof. induction a as [|x a IH]; [done|]. by rewrite append_cons, IH. Qed.

Lemma concat_empty_cons (x : string) (l : list string) :
  String.concat "" (x :: l) = x +:+ String.concat "" l.
Proof. destruct l; simpl; [by rewrite append_empty_r | done]. Qed.

Lemma concat_empty_app (l1 l2 : list string) :
  String.concat "" (l1 ++ l2) = String.concat "" l1 +:+ String.concat "" l2.
Proof.
  induction l1 as [|x l1 IH]; [done|].
  change ((x :: l1) ++ l2) with (x :: (l1 ++ l2)).
  by rewrite !concat_empty_cons, IH, append_assoc.
Qed.

Lemma eqb_empty_false (s : string) : String.eqb s "" = false <-> s <> "".
Proof. apply String.eqb_neq. Qed.

Lemma lstrip_nil (l : list ascii) :
  lstrip_list l = [] <-> Forall (fun c => isspace c = true) l.
Proof.
  induction l as [|c l IH]; simpl; [by split; [constructor|]|].
  destruct (isspace c) eqn:E.
  - rewrite IH. split; [by constructor | by inversion 1].
  - split; [done|]. inversion 1; congruence.
Qed.

Lemma lstrip_head (l : list ascii) :
  lstrip_list l <> [] -> exists c, c ∈ lstrip_list l /\ isspace c = false.
Proof.
  induction l as [|c l IH]; simpl; [done|].
  destruct (isspace c) eqn:E; [done|].
  intros _. exists c. split; [left | done].
Qed.

Lemma lstrip_sub (l : list ascii) c : c ∈ lstrip_list l -> c ∈ l.
Proof.
  induction l as [|x l IH]; simpl; [done|].
  destruct (isspace x); [right; auto | done].
Qed.

(** [strip] leaves the empty string exactly for the strings that hold
    whitespace only. *)
Lemma strip_empty (s : string) : strip s = "" <-> ~ substantive s.
Proof.
  unfold strip, substantive.
  set (l := String.list_ascii_of_string s).
  assert (Hnil : forall k, String.string_of_list_ascii k = "" <-> k = []).
  { intros [|x k]; simpl; split; done. }
  rewrite Hnil. split.
  - intros H (c & Hc & Hs).
    assert (H1 : lstrip_list (rev (lstrip_list l)) = [])
      by (rewrite <- (rev_involutive (lstrip_list (rev (lstrip_list l)))), H; done).
    apply lstrip_nil in H1.
    assert (H2 : lstrip_list l = []).
    { destruct (lstrip_list l) as [|y k] eqn:E; [done|].
      destruct (lstrip_head l) as (d & Hd & Hds); [by rewrite E|].
      rewrite E in Hd. rewrite Forall_forall in H1.
      rewrite (H1 d) in Hds; [done|]. apply list_elem_of_In.
      apply -> in_rev. by apply list_elem_of_In. }
    apply lstrip_nil in H2. rewrite Forall_forall in H2.
    by rewrite (H2 c) in Hs.
  - intros H.
    assert (H2 : lstrip_list l = []).
    { apply lstrip_nil, Forall_forall. intros c Hc.
      destruct (isspace c) eqn:E; [done|]. destruct H. exists c.
      done. }
    by rewrite H2.
Qed.

Lemma strip_nonempty (s : string) : String.eqb (strip s) "" = false <-> substantive s.
Proof.
  rewrite eqb_empty_false, strip_empty. split; [|tauto].
  intros H. unfold substantive.
  destruct (decide (Exists (fun c => isspace c = false) (String.list_ascii_of_string s)))
    as [He|He].
  - apply Exists_exists in He as (c & Hc & Hs). by exists c.
  - destruct H. intros (c & Hc & Hs). apply He. apply Exists_exists.
    by exists c.
Qed.

Lemma substantive_nonempty (s : string) : substantive s -> s <> "".
Proof. intros (c & Hc & _) ->. simpl in Hc. by apply elem_of_nil in Hc. Qed.

(** *** Merging the text of a continuation *)

Lemma merge_text_both prev new :
  substantive new -> substantive prev ->
  merge_text prev new = strip prev +:+ nl +:+ nl +:+ strip new.
Proof.
  intros Hn Hp. unfold merge_text.
  rewrite (proj2 (strip_nonempty new) Hn), (proj2 (strip_nonempty prev) Hp).
  rewrite (proj2 (eqb_empty_false new)) by by apply substantive_nonempty.
  rewrite (proj2 (eqb_empty_false prev)) by by apply substantive_nonempty.
  done.
Qed.

Lemma merge_text_new_only prev new :
  substantive new -> ~ substantive prev -> merge_text prev new = new.
Proof.
  intros Hn Hp. unfold merge_text.
  rewrite (proj2 (strip_nonempty new) Hn).
  rewrite (proj2 (eqb_empty_false new)) by by apply substantive_nonempty.
  apply strip_empty in Hp. rewrite Hp. simpl. by rewrite andb_false_r.
Qed.

Lemma merge_text_silent prev new :
  ~ substantive new -> merge_text prev new = prev.
Proof.
  intros Hn. unfold merge_text. apply strip_empty in Hn. rewrite Hn. simpl.
  by rewrite andb_false_r.
Qed.

(** *** Reading the stream *)

Lemma updates_only_refl w : updates_only w w.
Proof. repeat split. exists []. by rewrite app_nil_r. Qed.

Lemma updates_only_trans w1 w2 w3 :
  updates_only w1 w2 -> updates_only w2 w3 -> updates_only w1 w3.
Proof.
  intros (A1 & A2 & A3 & A4 & d1 & A5 & A6) (B1 & B2 & B3 & B4 & d2 & B5 & B6).
  repeat split; try congruence.
  exists (d1 ++ d2). split; [by rewrite B5, A5, app_assoc | by apply Forall_app].
Qed.

Lemma call_output_update_updates_only f text w :
  updates_only w (call_output_update f text w).2.
Proof.
  repeat split. exists [OutputUpdate text]. split; [done|]. by repeat constructor.
Qed.

Lemma get_field v k d x : get v k d = Ok x -> x = default d (field v k).
Proof. destruct v; simpl; try discriminate. by intros [= <-]. Qed.

Lemma get_obj kvs k d : get (JObj kvs) k d = Ok (default d (assoc k kvs)).
Proof. reflexivity. Qed.

Lemma block_text_read b ty s :
  get b "type" JNull = Ok ty -> is_str ty "text" = true ->
  (t ← getitem b "text"; as_str t) = Ok s -> block_text b = s.
Proof.
  intros Hty Ht Hs. apply get_field in Hty. subst ty.
  unfold block_text. rewrite Ht.
  destruct b; try discriminate. simpl in *.
  destruct (assoc "text" kvs) as [[]|]; simpl in Hs; try discriminate.
  by injection Hs.
Qed.

Lemma wf_block_read b ty :
  wf_block b = true -> get b "type" JNull = Ok ty -> is_str ty "text" = true ->
  exists s, (t ← getitem b "text"; as_str t) = Ok s.
Proof.
  intros Hwf Hty Ht. apply get_field in Hty. subst ty.
  destruct b; try discriminate. simpl in *. rewrite Ht in Hwf.
  destruct (assoc "text" kvs) as [[]|]; try discriminate. by eexists.
Qed.

Lemma wf_block_get b : wf_block b = true -> exists ty, get b "type" JNull = Ok ty.
Proof. destruct b; try discriminate. intros _. rewrite get_obj. by eexists. Qed.

Lemma block_text_other b ty :
  get b "type" JNull = Ok ty -> is_str ty "text" = false -> block_text b = "".
Proof.
  intros Hty Ht. apply get_field in Hty. subst ty. unfold block_text. by rewrite Ht.
Qed.

Ltac returns_unchanged :=
  eexists _, _, _; split; [reflexivity|];
  split; [apply updates_only_refl|]; split; [done|]; split; [done|].

Lemma read_block_spec cb now st b w :
  exists st' e w',
    read_block cb now st b w = (Ok (st', e), w')
    /\ updates_only w w'
    /\ events st' = events st /\ was_stopped st' = was_stopped st
    /\ (wf_block b = true ->
        e = None /\ accumulated_text st' = accumulated_text st +:+ block_text b).
Proof.
  unfold read_block.
  destruct (get b "type" JNull) as [ty|e] eqn:Hty.
  2:{ returns_unchanged.
      intros Hwf; apply wf_block_get in Hwf as [ty Hty']; congruence. }
  destruct (is_str ty "text") eqn:Ht; simpl.
  2:{ returns_unchanged.
      by rewrite (block_text_other b ty), append_empty_r. }
  destruct (t ← getitem b "text"; as_str t) as [s|e] eqn:Hs.
  2:{ returns_unchanged.
      intros Hwf; destruct (wf_block_read b ty Hwf Hty Ht) as [s Hs'];
        congruence. }
  rewrite <- (block_text_read b ty s Hty Ht Hs).
  destruct cb as [f|].
  2:{ returns_unchanged. done. }
  simpl. destruct (update_interval <=? now - last_update_time st).
  2:{ returns_unchanged. done. }
  unfold mbind, M_bind, try_. simpl.
  destruct (f (u_calls w) (accumulated_text st +:+ block_text b)) as [[]|e];
    eexists _, _, _; (split; [reflexivity|]);
    (split; [apply (call_output_update_updates_only f _ w)|]); done.
Qed.

Lemma read_blocks_cons cb now st b rest w :
  read_blocks cb now st (b :: rest) w =
  match read_block cb now st b w with
  | (Ok (st1, Some x), w1) => (Ok (st1, Some x), w1)
  | (Ok (st1, None), w1) => read_blocks cb now st1 rest w1
  | (Raise e, w1) => (Raise e, w1)
  end.
Proof.
  simpl. unfold mbind, M_bind.
  destruct (read_block cb now st b w) as [[[st1 [x|]]|e] w1]; reflexivity.
Qed.

Lemma read_blocks_spec cb now bs : forall st w,
  exists st' e w',
    read_blocks cb now st bs w = (Ok (st', e), w')
    /\ updates_only w w'
    /\ events st' = events st /\ was_stopped st' = was_stopped st
    /\ (forallb wf_block bs = true ->
        e = None
        /\ accumulated_text st' =
           accumulated_text st +:+ String.concat "" (block_text <$> bs)).
Proof.
  induction bs as [|b bs IH]; intros st w.
  - returns_unchanged. by rewrite append_empty_r.
  - destruct (read_block_spec cb now st b w)
      as (st1 & e1 & w1 & H1 & U1 & Ev1 & Ws1 & T1).
    rewrite read_blocks_cons, H1.
    destruct e1 as [x|].
    + eexists _, _, _. split; [reflexivity|]. split; [done|].
      split; [done|]. split; [done|].
      intros [Hb _]%andb_prop. by destruct (T1 Hb).
    + destruct (IH st1 w1) as (st2 & e2 & w2 & H2 & U2 & Ev2 & Ws2 & T2).
      eexists _, _, _. split; [exact H2|].
      split; [by eapply updates_only_trans|].
      split; [congruence|]. split; [congruence|].
      intros [Hb Hbs]%andb_prop.
      destruct (T1 Hb) as [_ Tb]. destruct (T2 Hbs) as [-> Tbs].
      split; [done|].
      rewrite Tbs, Tb, fmap_cons, concat_empty_cons. by rewrite append_assoc.
Qed.

Lemma wf_event_get event :
  wf_event event = true -> exists ty, get event "type" JNull = Ok ty.
Proof. destruct event; try discriminate. intros _. rewrite get_obj. by eexists. Qed.

Lemma event_text_other event ty :
  get event "type" JNull = Ok ty -> is_str ty "assistant" = false ->
  event_text event = "".
Proof.
  intros Hty Ht. apply get_field in Hty. subst ty. unfold event_text. by rewrite Ht.
Qed.

Lemma wf_event_blocks event ty :
  wf_event event = true -> get event "type" JNull = Ok ty ->
  is_str ty "assistant" = true ->
  exists blocks,
    (message_obj ← get event "message" (JObj []);
     content ← get message_obj "content" (JArr []);
     iter content) = Ok blocks
    /\ forallb wf_block blocks = true
    /\ event_text event = String.concat "" (block_text <$> blocks).
Proof.
  intros Hwf Hty Ht. apply get_field in Hty. subst ty.
  unfold event_text. rewrite Ht.
  destruct event as [| | | |l|kvs]; try discriminate.
  simpl in Ht. simpl in Hwf. rewrite Ht in Hwf. rewrite get_obj. simpl field.
  destruct (assoc "message" kvs) as [message|]; simpl.
  2:{ by exists []. }
  destruct message as [| | | |l|mkvs]; try discriminate.
  rewrite get_obj. simpl.
  destruct (assoc "content" mkvs) as [content|]; simpl.
  2:{ by exists []. }
  destruct content as [| | |c|blocks|ckvs]; try discriminate.
  by exists blocks.
Qed.

Lemma read_event_spec cb now st event w :
  exists st' e w',
    read_event cb now st event w = (Ok (st', e), w')
    /\ updates_only w w'
    /\ events st' = events st ++ [event] /\ was_stopped st' = was_stopped st
    /\ (wf_event event = true ->
        e = None
        /\ accumulated_text st' = accumulated_text st +:+ event_text event).
Proof.
  unfold read_event.
  destruct (get event "type" JNull) as [ty|e] eqn:Hty.
  2:{ returns_unchanged.
      intros Hwf; apply wf_event_get in Hwf as [ty Hty']; congruence. }
  destruct (is_str ty "assistant") eqn:Ht; unfold negb; lazy iota.
  2:{ returns_unchanged.
      by rewrite (event_text_other event ty), append_empty_r. }
  destruct (message_obj ← get event "message" (JObj []);
            content ← get message_obj "content" (JArr []);
            iter content) as [blocks|e] eqn:Hb.
  2:{ returns_unchanged.
      intros Hwf. destruct (wf_event_blocks event ty Hwf Hty Ht) as (bs & Hbs & _).
      congruence. }
  lazy beta iota.
  match goal with
  | |- context [read_blocks cb now ?s blocks w] =>
      destruct (read_blocks_spec cb now blocks s w)
        as (st2 & e2 & w2 & H2 & U2 & Ev2 & Ws2 & T2)
  end.
  eexists _, _, _. split; [exact H2|]. split; [done|].
  split; [done|]. split; [done|].
  intros Hwf. destruct (wf_event_blocks event ty Hwf Hty Ht) as (bs & Hbs & Hwb & Htx).
  rewrite Hb in Hbs. injection Hbs as <-.
  destruct (T2 Hwb) as [-> Tt]. split; [done|]. by rewrite Tt, Htx.
Qed.

Lemma read_stdout_json cb st now event rest w :
  read_stdout cb ((false, ReadLine now (Json event)) :: rest) st w =
  match read_event cb now st event w with
  | (Ok (st1, Some x), w1) => (Ok (st1, Some x), w1)
  | (Ok (st1, None), w1) => read_stdout cb rest st1 w1
  | (Raise e, w1) => (Raise e, w1)
  end.
Proof.
  simpl. unfold mbind, M_bind.
  destruct (read_event cb now st event w) as [[[st1 [x|]]|e] w1]; reflexivity.
Qed.

(** [read_stdout] always leaves the loop with the reader it built, having
    done nothing but output updates; on a stream of well-formed events the
    reader holds the events read and the concatenation of their texts. *)
Lemma read_stdout_spec cb reads : forall st w,
  exists st' e w',
    read_stdout cb reads st w = (Ok (st', e), w')
    /\ updates_only w w'
    /\ (valid_stream reads = true ->
        events st' = events st ++ consumed reads
        /\ accumulated_text st' =
           accumulated_text st +:+ stream_text (consumed reads)
        /\ was_stopped st' = was_stopped st || stop_observed reads
        /\ e = end_exception (read_end reads)).
Proof.
  induction reads as [|[stop r] rest IH]; intros st w.
  - eexists _, _, _. split; [reflexivity|]. split; [apply updates_only_refl|].
    intros _. by rewrite app_nil_r, append_empty_r, orb_false_r.
  - destruct stop.
    { eexists _, _, _. split; [reflexivity|]. split; [apply updates_only_refl|].
      intros _. simpl. by rewrite app_nil_r, append_empty_r, orb_true_r. }
    destruct r as [now line| | |].
    2,3,4: eexists _, _, _; (split; [reflexivity|]);
      (split; [apply updates_only_refl|]); intros _; simpl;
      by rewrite app_nil_r, append_empty_r, orb_false_r.
    destruct line as [| |event].
    1,2: destruct (IH st w) as (st2 & e2 & w2 & H2 & U2 & T2);
      eexists _, _, _; (split; [exact H2|]); (split; [done|]); exact T2.
    rewrite read_stdout_json.
    destruct (read_event_spec cb now st event w)
      as (st1 & e1 & w1 & H1 & U1 & Ev1 & Ws1 & T1).
    rewrite H1. destruct e1 as [x|].
    + eexists _, _, _. split; [reflexivity|]. split; [done|].
      unfold valid_stream. simpl. intros [Hwf _]%andb_prop. by destruct (T1 Hwf).
    + destruct (IH st1 w1) as (st2 & e2 & w2 & H2 & U2 & T2).
      eexists _, _, _. split; [exact H2|].
      split; [by eapply updates_only_trans|].
      unfold valid_stream. simpl. intros [Hwf Hrest]%andb_prop.
      destruct (T1 Hwf) as [_ Tt]. destruct (T2 Hrest) as (E2 & X2 & S2 & R2).
      split; [by rewrite E2, Ev1, <- app_assoc|].
      split.
      { rewrite X2, Tt. unfold stream_text. rewrite fmap_cons, concat_empty_cons.
        by rewrite append_assoc. }
      split; [by rewrite S2, Ws1|done].
Qed.

(** *** Exit classification *)

Lemma mapM_as_str (errors : list JSON) :
  forallb is_jstr errors = true ->
  mapM as_str errors =
  Ok (omap (fun x => match x with JStr s => Some s | _ => None end) errors).
Proof.
  induction errors as [|x errors IH]; [done|].
  intros [Hx Hr]%andb_prop. destruct x; try discriminate.
  simpl. rewrite (IH Hr). done.
Qed.

Lemma structured_error_wf (events : list JSON) :
  forallb wf_event events = true ->
  structured_error events =
  Ok match flagged_errors events with
     | Some [] => Some "Unknown error"
     | Some errors => Some (join "; " errors)
     | None => None
     end.
Proof.
  induction events as [|e events IH]; [done|].
  intros [He Hr]%andb_prop. specialize (IH Hr).
  destruct e as [| | | |l|kvs]; try discriminate.
  simpl. simpl in He.
  destruct (is_str (default JNull (assoc "type" kvs)) "result") eqn:Ht; [|exact IH].
  simpl.
  destruct (truthy (default JNull (assoc "is_error" kvs))) eqn:Hi; [|exact IH].
  destruct (is_str (default JNull (assoc "type" kvs)) "assistant") eqn:Ha.
  { (* the type is "result" *)
    destruct (default JNull (assoc "type" kvs)) as [| | |s| |]; try discriminate.
    simpl in *. apply String.eqb_eq in Ht. subst s. discriminate. }
  destruct (assoc "errors" kvs) as [errors|]; simpl; [|done].
  destruct errors as [| | | |errors|]; try discriminate.
  destruct errors as [|x errors]; [done|].
  unfold join_json. cbn [truthy iter mbind Res_bind].
  rewrite (mapM_as_str (x :: errors) He). cbn [fmap Res_fmap mbind Res_bind].
  destruct x; try discriminate. done.
Qed.

Lemma classify_exit_wf returncode stderr_text events :
  forallb wf_event events = true ->
  classify_exit returncode stderr_text events
  = Ok (exit_error returncode stderr_text events).
Proof.
  intros Hwf. unfold classify_exit, exit_error.
  destruct (returncode =? 0); [done|].
  destruct (String.eqb stderr_text "") eqn:Hs; simpl.
  2:{ unfold mbind, Res_bind. by rewrite Hs. }
  rewrite (structured_error_wf events Hwf). unfold mbind, Res_bind.
  apply String.eqb_eq in Hs. subst stderr_text.
  destruct (flagged_errors events) as [[|x errors]|]; [done| |done].
  by destruct (String.eqb (join "; " (x :: errors)) "").
Qed.

(** *** One process run *)

Lemma flush_output_spec cb text w :
  exists w', flush_output cb text w = (Ok tt, w')
             /\ procs w' = procs w /\ fs w' = fs w
             /\ q_calls w' = q_calls w /\ p_calls w' = p_calls w
             /\ trace w' = trace w ++ flushed cb text.
Proof.
  unfold flush_output, flushed. destruct cb as [f|].
  2:{ eexists. split; [reflexivity|]. by rewrite app_nil_r. }
  destruct (String.eqb text ""); simpl.
  { eexists. split; [reflexivity|]. by rewrite app_nil_r. }
  unfold mbind, M_bind, try_, call_output_update. simpl.
  eexists. split; [reflexivity|]. done.
Qed.

(** The run of a script whose events are well formed returns the result
    [scripted_result] and does: spawn, output updates, [closing]. *)
Lemma run_valid cmd ws cb w p rest :
  procs w = p :: rest -> valid_stream (stdout p) = true ->
  exists w' d,
    _run_claude_process_inner cmd ws cb w = (Ok (scripted_result p), w')
    /\ procs w' = rest /\ fs w' = workspace_after p
    /\ q_calls w' = q_calls w /\ p_calls w' = p_calls w
    /\ Forall (fun e => is_update e = true) d
    /\ trace w' = trace w ++ [Spawn cmd ws] ++ d ++ closing cb p.
Proof.
  intros Hp Hv. unfold _run_claude_process_inner.
  unfold mbind at 1. unfold M_bind at 1. unfold create_subprocess_exec at 1.
  rewrite Hp. unfold drain.
  unfold mbind at 1. unfold M_bind at 1.
  match goal with
  | |- context [read_stdout cb (stdout p) reader_init ?w1] =>
      destruct (read_stdout_spec cb (stdout p) reader_init w1)
        as (st & e & w2 & Hr & (U1 & U2 & U3 & U4 & d & U5 & U6) & T)
  end.
  destruct (T Hv) as (Tev & Ttx & Tst & Te). clear T.
  simpl in Tev, Ttx, Tst, U1, U2, U3, U4, U5. rewrite append_empty_l in Ttx.
  rewrite Hr.
  unfold scripted_result, closing, wall_clock_expires, stop_observed in *.
  rewrite Te, Tev, Ttx, Tst.
  destruct (read_end (stdout p)) eqn:Hend; simpl;
    destruct (stderr_end p) eqn:Hse; simpl;
    unfold mbind, M_bind, kill, emit, wait, lift, mret, M_ret; simpl.
  all: try (eexists _, d; split; [reflexivity|]; simpl;
            repeat split; try done; rewrite U5, <- !app_assoc; done).
  all: match goal with
       | |- context [flush_output ?c ?t ?w3] =>
           destruct (flush_output_spec c t w3) as (w4 & Hf & F1 & F2 & F3 & F4 & F5);
           rewrite Hf
       end.
  all: try rewrite (classify_exit_wf _ _ _ Hv).
  all: eexists _, d; split; [reflexivity|]; simpl in *;
       repeat split; try congruence;
       rewrite F5; simpl; rewrite U5, <- !app_assoc; done.
Qed.

(** C1. For every stream of well-formed events read by one process run,
    whatever way the run ends, the run returns, its events are the events
    read and its accumulated text is the concatenation, in arrival order,
    of the text of every text block of their assistant events. *)
Theorem accumulated_text_is_stream_text cmd ws cb w p rest :
  procs w = p :: rest -> valid_stream (stdout p) = true ->
  exists r w',
    _run_claude_process cmd ws cb w = (Ok r, w')
    /\ run_events r = consumed (stdout p)
    /\ run_text r = stream_text (run_events r).
Proof.
  intros Hp Hv. destruct (run_valid cmd ws cb w p rest Hp Hv) as (w' & d & H & _).
  exists (scripted_result p), w'. split; [exact H|].
  unfold scripted_result. destruct (wall_clock_expires p); [done|].
  by destruct (read_end (stdout p)).
Qed.

Lemma accumulated_text_is_stream_text_witness :
  exists r w',
    _run_claude_process ["claude"] ["/"; "ws"] (Some always_ok)
      (world_of [p_hello] None) = (Ok r, w')
    /\ run_events r = consumed (stdout p_hello)
    /\ run_text r = stream_text (run_events r).
Proof.
  apply (accumulated_text_is_stream_text _ _ _ _ p_hello []); reflexivity.
Defined.

(** C3, as stated, fails: a run stopped before any text was accumulated is
    killed and waited on and reports the stop, but makes no output update
    at all, although an output-update callback is given. *)
Lemma stopped_run_without_flush :
  let out := _run_claude_process ["claude"] ["/"; "ws"] (Some always_ok)
               (world_of [p_stopped_at_once] None) in
  run_was_stopped <$> out.1 = Ok true
  /\ trace out.2 = [Spawn ["claude"] ["/"; "ws"]; Kill; Wait].
Proof. vm_compute. done. Qed.

(** C3, amended. For every run of well-formed events in which a poll finds
    the stop signal set and the whole-run limit does not expire, the run
    returns after killing the process and waiting on it; after that it
    calls the output-update callback once more, with the accumulated text,
    exactly when a callback is given and that text is not empty; the result
    reports [was_stopped = True] with exit code -1 and the fixed stop
    message as its error text. *)
Theorem stopped_run_is_killed_and_reported cmd ws cb w p rest :
  procs w = p :: rest -> valid_stream (stdout p) = true ->
  stop_observed (stdout p) = true -> wall_clock_expires p = false ->
  exists r w' d,
    _run_claude_process cmd ws cb w = (Ok r, w')
    /\ run_was_stopped r = true
    /\ run_exit_code r = -1
    /\ run_error r = Some MSG_STOPPED
    /\ procs w' = rest
    /\ Forall (fun e => is_update e = true) d
    /\ trace w' = trace w ++ [Spawn cmd ws] ++ d ++ [Kill; Wait]
                          ++ flushed cb (run_text r).
Proof.
  intros Hp Hv Hs Hw.
  destruct (run_valid cmd ws cb w p rest Hp Hv)
    as (w' & d & H & P1 & _ & _ & _ & Hd & Ht).
  exists (scripted_result p), w', d. split; [exact H|].
  unfold scripted_result, closing, stop_observed in *. rewrite Hw in *.
  destruct (read_end (stdout p)); try discriminate. done.
Qed.

Lemma stopped_run_is_killed_and_reported_witness :
  exists r w' d,
    _run_claude_process ["claude"] ["/"; "ws"] (Some always_ok)
      (world_of [p_stopped_later] None) = (Ok r, w')
    /\ run_was_stopped r = true
    /\ run_exit_code r = -1
    /\ run_error r = Some MSG_STOPPED
    /\ procs w' = []
    /\ Forall (fun e => is_update e = true) d
    /\ trace (world_of [p_stopped_later] None)
         ++ [Spawn ["claude"] ["/"; "ws"]] ++ d ++ [Kill; Wait]
         ++ flushed (Some always_ok) (run_text r)
       = trace w'.
Proof.
  destruct (stopped_run_is_killed_and_reported ["claude"] ["/"; "ws"]
              (Some always_ok) (world_of [p_stopped_later] None) p_stopped_later [])
    as (r & w' & d & H); try reflexivity.
  exists r, w', d. intuition.
Defined.

(** C6, as stated, fails: with exit code 1, nothing on standard error and
    a result event flagged [is_error] that carries no error strings, the
    error is the text "Unknown error": neither the joined error strings of
    that event nor the fallback naming the exit code. *)
Lemma flagged_result_without_errors :
  let out := _run_claude_process ["claude"] ["/"; "ws"] None
               (world_of [p_flagged] None) in
  run_exit_code <$> out.1 = Ok 1
  /\ run_error <$> out.1 = Ok (Some "Unknown error")
  /\ run_error <$> out.1
     <> Ok (exit_error_as_stated 1 "" (consumed (stdout p_flagged)))
  /\ exit_error_as_stated 1 "" (consumed (stdout p_flagged)) = Some ""
  /\ "Unknown error" <> exit_fallback 1.
Proof. vm_compute. repeat split; discriminate. Qed.

(** C6, amended. For every run of well-formed events that ends by itself
    (end of stream, no stop, no timeout): the exit code is the process's;
    exit code 0 yields no error; a non-zero exit yields the captured
    stderr text, or, if that is empty, the text taken from the first
    result event flagged [is_error] -- its error strings joined with "; ",
    or "Unknown error" when it has none --, or, if there is no such event
    or that text is empty, the fallback text naming the exit code. *)
Theorem exit_classification cmd ws cb w p rest :
  procs w = p :: rest -> valid_stream (stdout p) = true ->
  read_end (stdout p) = EndOfStream -> wall_clock_expires p = false ->
  exists r w',
    _run_claude_process cmd ws cb w = (Ok r, w')
    /\ run_exit_code r = returncode p
    /\ run_was_stopped r = false
    /\ run_error r = exit_error (returncode p) (join "" (stderr p)) (run_events r)
    /\ (returncode p = 0 -> run_error r = None)
    /\ (returncode p <> 0 -> join "" (stderr p) <> "" ->
        run_error r = Some (join "" (stderr p)))
    /\ (returncode p <> 0 -> join "" (stderr p) = "" ->
        match flagged_errors (run_events r) with
        | Some [] => run_error r = Some "Unknown error"
        | Some errors =>
            run_error r = Some (if String.eqb (join "; " errors) ""
                                then exit_fallback (returncode p)
                                else join "; " errors)
        | None => run_error r = Some (exit_fallback (returncode p))
        end).
Proof.
  intros Hp Hv He Hw.
  destruct (run_valid cmd ws cb w p rest Hp Hv) as (w' & d & H & _).
  exists (scripted_result p), w'. split; [exact H|].
  unfold scripted_result. rewrite Hw, He. simpl.
  split; [done|]. split; [done|]. split; [done|].
  unfold exit_error. split; [|split].
  - by intros ->.
  - intros H0 Hs. apply Z.eqb_neq in H0. rewrite H0.
    apply String.eqb_neq in Hs. by rewrite Hs.
  - intros H0 Hs. apply Z.eqb_neq in H0. rewrite H0, Hs. simpl.
    destruct (flagged_errors (consumed (stdout p))) as [[|x errors]|]; [done| |done].
    by destruct (String.eqb (join "; " (x :: errors)) "").
Qed.

Lemma exit_classification_witness :
  exists r w',
    _run_claude_process ["claude"] ["/"; "ws"] None (world_of [p_failed] None)
    = (Ok r, w')
    /\ run_exit_code r = 2
    /\ run_error r = Some "fatal: no session".
Proof.
  destruct (exit_classification ["claude"] ["/"; "ws"] None
              (world_of [p_failed] None) p_failed [])
    as (r & w' & H & Hc & _ & _ & _ & Hs & _); try reflexivity.
  exists r, w'. split; [exact H|]. split; [exact Hc|].
  apply Hs; vm_compute; discriminate.
Defined.

(** *** The text kept after a continuation *)

(** C5, as stated, fails: the merged text is built from the stripped
    texts, so it does not begin with a prior text that ends in a blank;
    and a prior text that is not empty but holds whitespace only is dropped
    without any separation. *)
Lemma merged_text_is_not_prior_then_continuation :
  (substantive "World" /\ "Hello " <> ""
   /\ merge_text "Hello " "World" = "Hello" +:+ nl +:+ nl +:+ "World"
   /\ merge_text "Hello " "World" <> merge_as_stated "Hello " "World"
   /\ String.prefix "Hello " (merge_text "Hello " "World") = false)
  /\ (" " <> "" /\ merge_text " " "World" = "World"
      /\ merge_text " " "World" <> merge_as_stated " " "World").
Proof.
  repeat split; try (vm_compute; discriminate); try (vm_compute; reflexivity).
  exists "W"%char. split; [|reflexivity]. simpl. left.
Qed.

(** C5, amended. For every retry iteration that resumes the process and
    returns: when both the continuation text and the prior accumulated
    text hold something other than whitespace, the merged text is the
    stripped prior text, two newlines and the stripped continuation text;
    when only the continuation does, the merged text is the continuation
    text as produced; when the continuation holds nothing but whitespace,
    the merged text is the prior text unchanged. *)
Theorem continuation_text_is_merged s a ws n lp w st w' :
  resume s a ws n lp w = (Ok st, w') ->
  exists cmd w0 r,
    _run_claude_process cmd ws (on_output_update a) w0 = (Ok r, w')
    /\ step_text st = Some (merge_text (cur_text lp) (run_text r))
    /\ (substantive (run_text r) -> substantive (cur_text lp) ->
        step_text st
        = Some (strip (cur_text lp) +:+ nl +:+ nl +:+ strip (run_text r)))
    /\ (substantive (run_text r) -> ~ substantive (cur_text lp) ->
        step_text st = Some (run_text r))
    /\ (~ substantive (run_text r) -> step_text st = Some (cur_text lp)).
Proof.
  unfold resume. destruct (approved_tools n) as [approved|];
    unfold mbind at 1; unfold M_bind at 1; simpl; [|intros H; discriminate H].
  unfold mbind at 1. unfold M_bind at 1.
  match goal with
  | |- context [_run_claude_process ?c ws (on_output_update a) w] =>
      set (cmd := c); destruct (_run_claude_process cmd ws (on_output_update a) w)
        as [[r|e] w1] eqn:Hr; intros H; simpl in H; [|discriminate H]
  end.
  exists cmd, w, r.
  assert (Hst : step_text st = Some (merge_text (cur_text lp) (run_text r))
                /\ w1 = w').
  { destruct (run_was_stopped r); injection H as <- <-; done. }
  destruct Hst as [Hst ->]. split; [done|]. split; [done|].
  rewrite Hst. repeat split.
  - intros. by rewrite merge_text_both.
  - intros. by rewrite merge_text_new_only.
  - intros. by rewrite merge_text_silent.
Qed.

Lemma continuation_text_is_merged_witness :
  exists st w' cmd w0 r,
    resume demo_settings demo_args ["/"; "ws"] n_bash lp_prior
      (world_of [p_hello] None) = (Ok st, w')
    /\ _run_claude_process cmd ["/"; "ws"] (on_output_update demo_args) w0 = (Ok r, w')
    /\ step_text st = Some (merge_text (cur_text lp_prior) (run_text r)).
Proof.
  destruct (resume demo_settings demo_args ["/"; "ws"] n_bash lp_prior
              (world_of [p_hello] None)) as [[st|e] w'] eqn:H.
  - destruct (continuation_text_is_merged _ _ _ _ _ _ _ _ H)
      as (cmd & w0 & r & Hr & Hm & _).
    exists st, w', cmd, w0, r. auto.
  - vm_compute in H. discriminate H.
Defined.

(** *** What the parts of an iteration add to the trace *)

Lemma quiet_not_spawn e : quiet e = true -> not_spawn e = true.
Proof. unfold quiet, not_spawn. by intros [? _]%andb_prop. Qed.

Lemma quiet_not_ask e : quiet e = true -> not_ask e = true.
Proof. unfold quiet, not_ask. by intros [_ ?]%andb_prop. Qed.

Lemma update_quiet e : is_update e = true -> quiet e = true.
Proof. by destruct e. Qed.

Lemma emits_only_call_output_update P f text :
  P (OutputUpdate text) = true -> emits_only P (call_output_update f text).
Proof. intros H w. exists [OutputUpdate text]. split; [done | by constructor]. Qed.

Lemma emits_only_call_permission {B} P (f : Callback (list JSON) B) ds :
  P (AskPermission ds) = true -> emits_only P (call_permission f ds).
Proof. intros H w. exists [AskPermission ds]. split; [done | by constructor]. Qed.

Lemma emits_only_call_question {B} P (f : Callback JSON B) x :
  P (AskQuestion x) = true -> emits_only P (call_question f x).
Proof. intros H w. exists [AskQuestion x]. split; [done | by constructor]. Qed.

Lemma emits_only_wait P p : P Wait = true -> emits_only P (wait p).
Proof. intros H w. exists [Wait]. split; [done | by constructor]. Qed.

Lemma emits_only_mkdir P : emits_only P mkdir.
Proof.
  intros w. exists []. rewrite app_nil_r. split; [|done].
  unfold mkdir. by destruct (fs w) as [[]|].
Qed.

Lemma emits_only_snapshot P ws : emits_only P (snapshot ws).
Proof. intros w. exists []. by rewrite app_nil_r. Qed.

Lemma emits_only_flush_output cb text : emits_only quiet (flush_output cb text).
Proof.
  intros w. destruct (flush_output_spec cb text w) as (w' & H & _ & _ & _ & _ & Ht).
  rewrite H. exists (flushed cb text). split; [done|].
  unfold flushed. destruct cb; [|done]. destruct (String.eqb text ""); [done|].
  by repeat constructor.
Qed.

Lemma emits_only_read_stdout cb reads st : emits_only quiet (read_stdout cb reads st).
Proof.
  intros w. destruct (read_stdout_spec cb reads st w)
    as (st' & e & w' & H & (_ & _ & _ & _ & d & Hd & Fd) & _).
  rewrite H. exists d. split; [done|].
  eapply Forall_impl; [exact Fd | apply update_quiet].
Qed.

(** Structural proof of [emits_only] goals. *)
Ltac emits :=
  repeat match goal with
    | |- emits_only _ (mret _) => apply emits_only_ret
    | |- emits_only _ (raise _) => apply emits_only_raise
    | |- emits_only _ (lift _) => apply emits_only_lift
    | |- emits_only _ mkdir => apply emits_only_mkdir
    | |- emits_only _ (snapshot _) => apply emits_only_snapshot
    | |- emits_only _ (read_stdout _ _ _) => apply emits_only_read_stdout
    | |- emits_only _ (flush_output _ _) => apply emits_only_flush_output
    | |- emits_only _ kill => apply emits_only_emit; reflexivity
    | |- emits_only _ (emit _) => apply emits_only_emit; reflexivity
    | |- emits_only _ (wait _) => apply emits_only_wait; reflexivity
    | |- emits_only _ (call_permission _ _) =>
        apply emits_only_call_permission; reflexivity
    | |- emits_only _ (call_output_update _ _) =>
        apply emits_only_call_output_update; reflexivity
    | |- emits_only _ (call_question _ _) =>
        apply emits_only_call_question; reflexivity
    | |- emits_only _ (retry_async _ _ _ _) =>
        apply emits_only_retry_async; [reflexivity|]
    | |- emits_only _ (try_ _) => apply emits_only_try
    | |- emits_only _ (_ <$> _) => apply emits_only_fmap
    | |- emits_only _ (_ ≫= _) => apply emits_only_bind; [|intros ?]
    | |- emits_only _ (let _ := _ in _) => lazy zeta
    | |- emits_only _ (match ?x with _ => _ end) => destruct x
    | |- emits_only _ (if ?x then _ else _) => destruct x
    end.

(** After the spawn a run adds no spawn and no question. *)
Lemma run_after_spawn_quiet cb process : emits_only quiet (drain cb process).
Proof. unfold drain. emits. Qed.

(** A process run spawns at most one process and asks no question. *)
Lemma run_trace cmd ws cb w :
  exists d,
    trace (_run_claude_process cmd ws cb w).2 = trace w ++ d
    /\ Forall (fun e => not_ask e = true) d
    /\ (spawn_count d <= 1)%nat.
Proof.
  unfold _run_claude_process, _run_claude_process_inner.
  unfold mbind at 1. unfold M_bind at 1. unfold create_subprocess_exec.
  destruct (procs w) as [|p rest].
  { exists []. simpl. rewrite app_nil_r. split; [done|]. split; [constructor|].
    unfold spawn_count. simpl. lia. }
  match goal with
  | |- context [drain cb p ?w1] =>
      destruct (run_after_spawn_quiet cb p w1) as (d & Hd & Fd)
  end.
  exists (Spawn cmd ws :: d). split; [|split].
  - rewrite Hd. simpl. by rewrite <- app_assoc.
  - constructor; [done|]. eapply Forall_impl; [exact Fd | apply quiet_not_ask].
  - unfold spawn_count. simpl.
    assert (List.filter is_spawn d = []) as ->; [|done].
    clear Hd. induction Fd as [|e d He _ IH]; [done|]. simpl.
    apply quiet_not_spawn in He. unfold not_spawn in He.
    destruct (is_spawn e); [done | exact IH].
Qed.

Lemma spawn_count_app d1 d2 :
  spawn_count (d1 ++ d2) = (spawn_count d1 + spawn_count d2)%nat.
Proof. unfold spawn_count. by rewrite List.filter_app, length_app. Qed.

Lemma spawn_count_not_spawn d :
  Forall (fun e => not_spawn e = true) d -> spawn_count d = 0%nat.
Proof.
  unfold spawn_count, not_spawn. induction 1 as [|e d He _ IH]; [done|].
  simpl. destruct (is_spawn e); [done | exact IH].
Qed.

Lemma asked_app d1 d2 : asked (d1 ++ d2) = asked d1 ++ asked d2.
Proof. unfold asked. apply omap_app. Qed.

Lemma asked_not_ask d : Forall (fun e => not_ask e = true) d -> asked d = [].
Proof.
  unfold asked, not_ask. induction 1 as [|e d He _ IH]; [done|].
  destruct e; try done; simpl; exact IH.
Qed.

Lemma request_permissions_quiet a ods qat :
  emits_only quiet (request_permissions a ods qat).
Proof. unfold request_permissions. emits. Qed.

Lemma negotiate_not_spawn a denials : emits_only not_spawn (negotiate a denials).
Proof.
  unfold negotiate, ask_question. emits.
  eapply emits_only_weaken; [apply quiet_not_spawn|apply request_permissions_quiet].
Qed.

Lemma resume_trace s a ws n lp w :
  exists d,
    trace (resume s a ws n lp w).2 = trace w ++ d
    /\ Forall (fun e => not_ask e = true) d
    /\ (spawn_count d <= 1)%nat.
Proof.
  unfold resume. destruct (approved_tools n) as [approved|];
    unfold mbind at 1; unfold M_bind at 1; simpl.
  2:{ exists []. rewrite app_nil_r. split; [done|]. split; [constructor|].
      unfold spawn_count. simpl. lia. }
  unfold mbind at 1. unfold M_bind at 1.
  match goal with
  | |- context [_run_claude_process ?c ws ?cb w] =>
      destruct (run_trace c ws cb w) as (d & Hd & Fd & Sd);
      destruct (_run_claude_process c ws cb w) as [[r|e] w1]
  end; simpl in *.
  - exists d. by destruct (run_was_stopped r).
  - by exists d.
Qed.

Lemma retry_iteration_spawns s a ws lp w :
  exists d,
    trace (retry_iteration s a ws lp w).2 = trace w ++ d
    /\ (spawn_count d <= 1)%nat.
Proof.
  unfold retry_iteration. unfold mbind at 1. unfold M_bind at 1. unfold lift at 1.
  destruct (_get_permission_denials (cur_events lp)) as [denials|e].
  2:{ exists []. rewrite app_nil_r. split; [done|]. unfold spawn_count. simpl. lia. }
  destruct (truthy denials); simpl.
  2:{ exists []. rewrite app_nil_r. split; [done|]. unfold spawn_count. simpl. lia. }
  unfold mbind at 1. unfold M_bind at 1.
  destruct (negotiate_not_spawn a denials w) as (d1 & H1 & F1).
  apply spawn_count_not_spawn in F1.
  destruct (negotiate a denials w) as [[n|e] w1]; simpl in *.
  2:{ exists d1. split; [done|]. lia. }
  destruct (breaks n).
  { exists d1. split; [done|]. lia. }
  destruct (resume_trace s a ws n lp w1) as (d2 & H2 & _ & S2).
  exists (d1 ++ d2). split; [by rewrite H2, H1, app_assoc|].
  rewrite spawn_count_app. lia.
Qed.

Lemma retry_loop_spawns s a ws retries : forall lp w,
  exists d,
    trace (retry_loop s a ws retries lp w).2 = trace w ++ d
    /\ (spawn_count d <= retries)%nat.
Proof.
  induction retries as [|retries IH]; intros lp w.
  { exists []. rewrite app_nil_r. split; [done|]. unfold spawn_count. simpl. lia. }
  destruct (retry_iteration_spawns s a ws lp w) as (d1 & H1 & S1).
  simpl. unfold mbind at 1. unfold M_bind at 1.
  destruct (retry_iteration s a ws lp w) as [[st|e] w1]; simpl in *.
  2:{ exists d1. split; [done|]. lia. }
  destruct st as [|lp1|r].
  - exists d1. split; [done|]. lia.
  - destruct (IH lp1 w1) as (d2 & H2 & S2).
    exists (d1 ++ d2). split; [by rewrite H2, H1, app_assoc|].
    rewrite spawn_count_app. lia.
  - exists d1. split; [done|]. lia.
Qed.

(** *** The retry loop *)

Lemma filterM_get (g : JSON -> bool) k ds l :
  filterM (fun d => n ← get d k JNull; Ok (g n)) ds = Ok l ->
  l = List.filter (fun d => g (default JNull (field d k))) ds.
Proof.
  revert l. induction ds as [|d ds IH]; intros l; simpl.
  - by intros [= <-].
  - destruct d as [| | | | |kvs]; try discriminate.
    simpl. destruct (filterM _ ds) as [l'|]; [|discriminate].
    simpl. intros [= <-]. by rewrite (IH l' eq_refl).
Qed.

Lemma filterM_get_not_arr (g : JSON -> bool) k denials ds l :
  iter denials = Ok ds ->
  filterM (fun d => n ← get d k JNull; Ok (g n)) ds = Ok l ->
  denials = JArr ds \/ l = [].
Proof.
  destruct denials as [| | |s|ds'|kvs]; try discriminate; simpl.
  - intros [= <-]. destruct (codepoints s); simpl;
      [intros [= <-]; by right | discriminate].
  - intros [= <-]. by left.
  - intros [= <-]. destruct kvs; simpl; [intros [= <-]; by right | discriminate].
Qed.

(** The question denials [negotiate] finds are those of the denial list. *)
Lemma question_denials_found denials ds l :
  iter denials = Ok ds ->
  filterM (fun d => n ← get d "tool_name" JNull;
                    Ok (is_str n "AskUserQuestion")) ds = Ok l ->
  l = question_denials_of denials.
Proof.
  intros Hi Hf. destruct (filterM_get_not_arr _ _ _ _ _ Hi Hf) as [->| ->].
  - by apply filterM_get in Hf.
  - destruct denials as [| | |s|ds'|kvs]; try done.
    simpl in Hi. injection Hi as <-. by apply filterM_get in Hf.
Qed.

Lemma ask_question_text a qds w qat w' :
  ask_question a qds w = (Ok qat, w') ->
  (qat = None <-> on_question a = None \/ qds = []).
Proof.
  unfold ask_question. destruct qds as [|d qds].
  { intros [= <- _]. split; auto. }
  destruct (on_question a) as [f|].
  2:{ intros [= <- _]. split; auto. }
  intros H. split; [|by intros [|]].
  intros ->.
  apply M_bind_Ok in H as (ti & w1 & _ & H).
  apply M_bind_Ok in H as (ks & w2 & _ & H).
  apply M_bind_Ok in H as (r & w3 & _ & H).
  destruct r as [[[answers|]|]|e]; simpl in H;
    try (injection H as H _; discriminate H).
  destruct (bool_decide (answers = ∅)); simpl in H.
  - injection H as H _. discriminate H.
  - unfold fmap, M_fmap in H.
    destruct (lift (format_answers ti answers) w3) as [[x|e] w4];
      injection H as H _; discriminate H.
Qed.

Lemma negotiate_question_text a denials w n w' :
  negotiate a denials w = (Ok n, w') ->
  (question_answer_text n = None
   <-> on_question a = None \/ question_denials_of denials = []).
Proof.
  unfold negotiate. intros H.
  apply M_bind_Ok in H as (ds & w1 & [Hds ->]%lift_Ok & H).
  apply M_bind_Ok in H as (qds & w2 & [Hq ->]%lift_Ok & H).
  apply M_bind_Ok in H as (ods & w3 & _ & H).
  apply M_bind_Ok in H as (qat & w4 & Hqat & H).
  unfold request_permissions in H.
  apply M_bind_Ok in H as (rds & w5 & _ & H).
  apply M_bind_Ok in H as (ads & w6 & _ & H).
  apply M_bind_Ok in H as (names & w7 & _ & H).
  apply M_bind_Ok in H as (logged & w8 & _ & H).
  assert (Hn : question_answer_text n = qat).
  { destruct rds as [|rd rds]; [by injection H as <- _|].
    destruct (on_permission_request a) as [f|]; [|by injection H as <- _].
    apply M_bind_Ok in H as (r & w9 & _ & H). by injection H as <- _. }
  rewrite Hn, <- (question_denials_found denials ds qds Hds Hq).
  by eapply ask_question_text.
Qed.

(** C2, as stated, fails: when the only denial is a question and the user
    does not answer it (the callback returns [None]; no tool is approved,
    no auto-approvable tool is denied), the iteration does not exit: the
    process is invoked again, with the text saying that the user did not
    answer. *)
Lemma unanswered_question_still_resumes :
  let out := execute_claude demo_settings demo_args (world_of [p_asks; p_hello] None) in
  on_question demo_args = Some (fun _ _ => Ok None)
  /\ asked (trace out.2) = [payload_a]
  /\ asked_permission_in (trace out.2) = false
  /\ spawn_count (trace out.2) = 2%nat
  /\ prompts (trace out.2) = [Some "build it"; Some MSG_NOT_ANSWERED].
Proof. vm_compute. repeat split. Qed.

(** C2, amended. The retry loop spawns the process at most 5 times; and an
    iteration exits the loop, spawning nothing, whenever no tool was newly
    approved, no auto-approvable tool was among the denials and no
    continuation text was made for a question -- which is the case exactly
    when there is no question callback or no question denial: a question
    put to the user and left unanswered does not exit the loop. *)
Theorem retry_loop_is_bounded_and_breaks s a ws lp w :
  (exists d,
     trace (retry_loop s a ws MAX_PERMISSION_RETRIES lp w).2 = trace w ++ d
     /\ (spawn_count d <= 5)%nat)
  /\ (forall denials n w1,
        _get_permission_denials (cur_events lp) = Ok denials ->
        truthy denials = true ->
        negotiate a denials w = (Ok n, w1) ->
        none_approved n = true -> auto_tools n = [] ->
        question_answer_text n = None ->
        retry_iteration s a ws lp w = (Ok Break, w1)
        /\ (forall k, retry_loop s a ws (S k) lp w = (Ok (inl lp), w1))
        /\ spawn_count (trace w1) = spawn_count (trace w))
  /\ (forall denials n w1,
        negotiate a denials w = (Ok n, w1) ->
        (question_answer_text n = None
         <-> on_question a = None \/ question_denials_of denials = [])).
Proof.
  split; [apply retry_loop_spawns|]. split.
  - intros denials n w1 Hd Ht Hn Ha Hauto Hq.
    assert (Hb : breaks n = true).
    { unfold breaks. rewrite Ha, Hauto, Hq. simpl. by rewrite orb_true_r. }
    assert (Hi : retry_iteration s a ws lp w = (Ok Break, w1)).
    { unfold retry_iteration. unfold mbind at 1. unfold M_bind at 1.
      unfold lift at 1. rewrite Hd, Ht. simpl.
      unfold mbind at 1. unfold M_bind at 1. by rewrite Hn, Hb. }
    split; [exact Hi|]. split.
    + intros k. simpl. unfold mbind at 1. unfold M_bind at 1. by rewrite Hi.
    + destruct (negotiate_not_spawn a denials w) as (d & Hd' & Fd).
      rewrite Hn in Hd'. simpl in Hd'. rewrite Hd', spawn_count_app.
      rewrite (spawn_count_not_spawn d Fd). lia.
  - intros denials n w1. apply negotiate_question_text.
Qed.

Lemma retry_loop_is_bounded_and_breaks_witness :
  exists w1,
    retry_iteration demo_settings deny_args ["/"; "ws"] lp_prior (world_of [] None)
    = (Ok Break, w1)
    /\ spawn_count (trace w1) = 0%nat.
Proof.
  destruct (retry_loop_is_bounded_and_breaks demo_settings deny_args ["/"; "ws"]
              lp_prior (world_of [] None)) as (_ & H & _).
  destruct (negotiate deny_args (JArr [denial "Bash" (JObj [])]) (world_of [] None))
    as [[n|e] w1] eqn:Hn.
  - exists w1.
    assert (Hv : n = {| question_answer_text := None; approved_tools := Some [];
                        auto_tools := []; asked_permission := true |}).
    { vm_compute in Hn. by injection Hn as <- _. }
    destruct (H (JArr [denial "Bash" (JObj [])]) n w1) as (Hi & _ & Hs);
      try (subst n; reflexivity); try exact Hn.
    split; [exact Hi | exact Hs].
  - vm_compute in Hn. discriminate Hn.
Defined.

(** *** The question callback *)

Lemma asks_nothing {A} (c : M A) x n sure : emits_only not_ask c -> asks c x n sure.
Proof.
  intros Hc w. destruct (Hc w) as (d & Hd & Fd). exists 0%nat, d.
  split; [done|]. split; [by apply asked_not_ask|]. split; lia.
Qed.

Lemma asks_then {A B} (c : M A) (f : A -> M B) x n sure :
  asks c x n sure -> (forall a, emits_only not_ask (f a)) -> asks (c ≫= f) x n sure.
Proof.
  intros Hc Hf w. destruct (Hc w) as (j & d1 & H1 & A1 & L1 & S1).
  unfold mbind, M_bind. destruct (c w) as [[a|e] w1]; simpl in *.
  - destruct (Hf a w1) as (d2 & H2 & F2). exists j, (d1 ++ d2).
    split; [by rewrite H2, H1, app_assoc|].
    split; [|done]. by rewrite asked_app, (asked_not_ask d2 F2), app_nil_r.
  - by exists j, d1.
Qed.

Lemma asks_after {A B} (r : Res A) (f : A -> M B) x n sure :
  (forall a, r = Ok a -> asks (f a) x n sure) -> asks (lift r ≫= f) x n sure.
Proof.
  intros Hf w. unfold mbind, M_bind, lift. destruct r as [a|e].
  - apply (Hf a eq_refl w).
  - exists 0%nat, []. simpl. rewrite app_nil_r. repeat split; lia.
Qed.

Lemma retry_async_asks (f : Callback JSON (option (gmap Z string))) x n :
  forall delay,
  asks (retry_async (call_question f x) n delay 2) x n
       (forall k y, exists v, f k y = Ok v).
Proof.
  induction n as [|n IH]; intros delay w.
  { exists 0%nat, []. simpl. rewrite app_nil_r. repeat split; lia. }
  simpl. unfold mbind at 1. unfold M_bind at 1. unfold try_, call_question at 1.
  destruct (f (q_calls w) x) as [v|e] eqn:Hf; simpl.
  - exists 1%nat, [AskQuestion x]. repeat split; lia.
  - destruct n as [|n].
    + exists 1%nat, [AskQuestion x]. simpl. split; [done|]. split; [done|].
      split; [lia|]. intros Hs. destruct (Hs (q_calls w) x) as [v Hv]. congruence.
    + unfold mbind at 1. unfold M_bind at 1. unfold emit at 1.
      match goal with
      | |- context [retry_async _ _ ?dl _ ?w1] =>
          destruct (IH dl w1) as (j & d & Hd & Ha & Hl & _)
      end.
      exists (S j), (AskQuestion x :: Sleep delay :: d).
      split; [rewrite Hd; simpl; by rewrite <- !app_assoc|].
      split; [simpl; by rewrite Ha|]. split; [lia|].
      intros Hs. destruct (Hs (q_calls w) x) as [v Hv]. congruence.
Qed.

Lemma ask_question_asks a qds :
  asks (ask_question a qds) (payload_of qds) 3 (never_raises (on_question a)).
Proof.
  unfold ask_question. destruct qds as [|d qds].
  { apply asks_nothing, emits_only_ret. }
  destruct (on_question a) as [f|] eqn:Hq.
  2:{ apply asks_nothing, emits_only_ret. }
  apply asks_after. intros ti Hti. apply get_field in Hti. subst ti.
  apply asks_after. intros ks _.
  apply asks_then.
  - intros w. destruct (retry_async_asks f (payload_of (d :: qds)) 3 1 w)
      as (j & dd & Hd & Ha & Hl & Hs).
    exists j, dd. unfold try_.
    destruct (retry_async _ _ _ _ w) as [r w1]. simpl in *.
    split; [done|]. split; [done|]. split; [done|].
    intros Hn. apply Hs. intros k y. by apply (Hn f).
  - intros r. emits.
Qed.

Lemma negotiate_asks a denials :
  asks (negotiate a denials) (payload_of (question_denials_of denials)) 3
       (never_raises (on_question a)).
Proof.
  unfold negotiate.
  apply asks_after. intros ds Hds.
  apply asks_after. intros qds Hq.
  apply asks_after. intros ods _.
  rewrite <- (question_denials_found denials ds qds Hds Hq).
  apply asks_then; [apply ask_question_asks|].
  intros qat. eapply emits_only_weaken; [apply quiet_not_ask|].
  apply request_permissions_quiet.
Qed.

(** C10, as stated, fails: when the question callback raises (a transport
    failure), it is called again in the same iteration; here it is called
    twice, both times with the payload of the first of two question
    denials. *)
Lemma question_callback_called_again :
  let out := retry_iteration demo_settings flaky_args ["/"; "ws"] lp_asks
               (world_of [p_hello] None) in
  question_denials_of (JArr [denial "AskUserQuestion" payload_a;
                             denial "AskUserQuestion" payload_b])
  = [denial "AskUserQuestion" payload_a; denial "AskUserQuestion" payload_b]
  /\ asked (trace out.2) = [payload_a; payload_a]
  /\ spawn_count (trace out.2) = 1%nat.
Proof. vm_compute. repeat split. Qed.

(** C10, amended. In one retry iteration the question callback is called
    at most three times -- once when it does not raise, again only after a
    call that raised -- and every call is made with the payload of the
    first question denial of the run's terminal result event; the payloads
    of the other question denials are never passed. *)
Theorem question_callback_gets_first_payload s a ws lp w :
  exists j d,
    trace (retry_iteration s a ws lp w).2 = trace w ++ d
    /\ asked d = replicate j (first_question_payload (cur_events lp))
    /\ (j <= 3)%nat
    /\ (never_raises (on_question a) -> (j <= 1)%nat).
Proof.
  revert w.
  change (asks (retry_iteration s a ws lp) (first_question_payload (cur_events lp)) 3
               (never_raises (on_question a))).
  unfold retry_iteration, first_question_payload.
  apply asks_after. intros denials ->.
  destruct (truthy denials); simpl; [|apply asks_nothing, emits_only_ret].
  apply asks_then; [apply negotiate_asks|].
  intros n. destruct (breaks n); [apply emits_only_ret|].
  intros w. destruct (resume_trace s a ws n lp w) as (d & Hd & Fd & _). by exists d.
Qed.

Lemma question_callback_gets_first_payload_witness :
  exists j d,
    trace (retry_iteration demo_settings demo_args ["/"; "ws"] lp_asks
             (world_of [p_hello] None)).2 = d
    /\ asked d = replicate j payload_a
    /\ (j <= 1)%nat.
Proof.
  destruct (question_callback_gets_first_payload demo_settings demo_args ["/"; "ws"]
              lp_asks (world_of [p_hello] None)) as (j & d & Hd & Ha & _ & Hs).
  exists j, d. split; [exact Hd|]. split; [exact Ha|].
  apply Hs. intros g Hg k x. injection Hg as <-. by eexists.
Defined.

(** *** The workspace snapshot and the created files *)

Lemma walk_dir ws entries : walk ws (Dir entries) = entries ≫= walk_entry ws.
Proof.
  induction entries as [|[name child] entries IH]; [done|].
  transitivity (walk_entry ws (name, child) ++ walk ws (Dir entries)).
  - destruct child; reflexivity.
  - by rewrite IH.
Qed.

(** [walk] reports exactly the files reached without entering a skipped
    directory. *)
Lemma walk_spec n : forall ws p,
  p ∈ walk ws n <-> exists rel, p = ws ++ rel /\ reaches n rel.
Proof.
  induction n as [|entries IH] using Node_tree_ind; intros ws p.
  - simpl. split; [by intros ?%elem_of_nil|]. intros (rel & _ & H). inversion H.
  - rewrite walk_dir, list_elem_of_bind. split.
    + intros ([name child] & Hp & He).
      rewrite Forall_forall in IH. specialize (IH _ He). simpl in IH.
      destruct child as [|sub]; simpl in Hp.
      * apply list_elem_of_singleton in Hp as ->. exists [name].
        split; [done|]. by constructor.
      * destruct (skip_dir name) eqn:Hs; [by apply elem_of_nil in Hp|].
        apply IH in Hp as (rel & -> & Hr). exists (name :: rel).
        split; [by rewrite <- app_assoc|]. by econstructor.
    + intros (rel & -> & Hr). inversion Hr as [? name He|? name sub rel' He Hs Hr']; subst.
      * exists (name, File). split; [|done]. simpl. by left.
      * exists (name, Dir sub). split; [|done]. simpl. rewrite Hs.
        rewrite Forall_forall in IH. apply (IH _ He). exists rel'.
        split; [by rewrite <- app_assoc|done].
Qed.

Lemma get_workspace_files_spec ws fs p :
  p ∈ get_workspace_files ws fs
  <-> exists n rel, fs = Some n /\ p = ws ++ rel /\ reaches n rel.
Proof.
  unfold get_workspace_files. destruct fs as [n|].
  - rewrite elem_of_list_to_set, walk_spec. split.
    + intros (rel & H1 & H2). by exists n, rel.
    + intros (n' & rel & [= <-] & H1 & H2). by exists rel.
  - split; [by intros ?%not_elem_of_empty|]. by intros (n & rel & H & _).
Qed.

Lemma keep_created_spec f :
  keep_created f = true
  <-> (forall part, part ∈ f -> startswith ".claude" part = false)
      /\ suffix f <> ".log" /\ suffix f <> ".tmp".
Proof.
  unfold keep_created. rewrite andb_true_iff, !negb_true_iff.
  rewrite bool_decide_eq_false. split.
  - intros [He Hs]. split.
    + intros part Hp. destruct (startswith ".claude" part) eqn:E; [|done].
      assert (existsb (startswith ".claude") f = true) as Hx; [|congruence].
      apply existsb_exists. exists part. split; [by apply list_elem_of_In | done].
    + split.
      * intros Heq. apply Hs. rewrite Heq. repeat constructor.
      * intros Heq. apply Hs. rewrite Heq. repeat constructor.
  - intros (Hp & H1 & H2). split.
    + destruct (existsb (startswith ".claude") f) eqn:E; [|done].
      apply existsb_exists in E as (part & Hin & Hpart).
      apply list_elem_of_In in Hin. by rewrite (Hp part Hin) in Hpart.
    + intros [Heq|[Heq|?%elem_of_nil]%elem_of_cons]%elem_of_cons; done.
Qed.

(** The response built after the loop. *)
Lemma finish_created ws files_before lp w resp w' :
  finish ws files_before lp w = (Ok resp, w') ->
  w' = w
  /\ is_Some (tool_actions resp)
  /\ created_files resp
     = List.filter keep_created
         (elements (get_workspace_files ws (fs w) ∖ files_before)).
Proof.
  unfold finish. intros H.
  apply M_bind_Ok in H as (rt & w1 & H1 & H).
  assert (w1 = w) as ->.
  { destruct (negb (String.eqb (cur_text lp) "")).
    - by injection H1 as _ <-.
    - by apply lift_Ok in H1 as [_ ->]. }
  apply M_bind_Ok in H as ([] & w2 & H2 & H).
  assert (w2 = w) as ->.
  { destruct rt; try (by injection H2 as <-);
      destruct (truthy _); try (by injection H2 as <-); discriminate H2. }
  apply M_bind_Ok in H as (fa & w3 & H3 & H).
  unfold snapshot in H3. injection H3 as <- <-.
  apply M_bind_Ok in H as (ta & w4 & [_ ->]%lift_Ok & H).
  cbv beta delta [mret M_ret] in H. injection H as <- <-. simpl.
  split; [done|]. split; [by eexists | done].
Qed.

Lemma resume_return s a ws n lp w r w' :
  resume s a ws n lp w = (Ok (Return r), w') -> tool_actions r = None.
Proof.
  unfold resume. intros H.
  apply M_bind_Ok in H as (approved & w1 & _ & H).
  apply M_bind_Ok in H as (run & w2 & _ & H).
  destruct (run_was_stopped run); cbv beta delta [mret M_ret] in H.
  - by injection H as <- _.
  - discriminate H.
Qed.

Lemma retry_iteration_return s a ws lp w r w' :
  retry_iteration s a ws lp w = (Ok (Return r), w') -> tool_actions r = None.
Proof.
  unfold retry_iteration. intros H.
  apply M_bind_Ok in H as (denials & w1 & _ & H).
  destruct (truthy denials); simpl in H; [|discriminate H].
  apply M_bind_Ok in H as (n & w2 & _ & H).
  destruct (breaks n); [discriminate H|].
  by eapply resume_return.
Qed.

Lemma retry_loop_return s a ws retries : forall lp w r w',
  retry_loop s a ws retries lp w = (Ok (inr r), w') -> tool_actions r = None.
Proof.
  induction retries as [|retries IH]; intros lp w r w' H; simpl in H.
  { discriminate H. }
  apply M_bind_Ok in H as (st & w1 & Hst & H).
  destruct st as [|lp1|r1].
  - discriminate H.
  - by eapply IH.
  - cbv beta delta [mret M_ret] in H. injection H as <- _.
    by eapply retry_iteration_return.
Qed.

Lemma mkdir_snapshot ws w w0 :
  mkdir w = (Ok tt, w0) ->
  get_workspace_files ws (fs w0) = get_workspace_files ws (fs w).
Proof.
  unfold mkdir. destruct (fs w) as [[|entries]|] eqn:E.
  - discriminate.
  - intros [= <-]. by rewrite E.
  - by intros [= <-].
Qed.

(** A response that carries tool actions was built after the loop, from
    the two snapshots. *)
Lemma execute_claude_final s a w resp w' :
  execute_claude s a w = (resp, w') -> is_Some (tool_actions resp) ->
  created_files resp
  = List.filter keep_created
      (elements (get_workspace_files (user_workspace s a) (fs w')
                 ∖ get_workspace_files (user_workspace s a) (fs w))).
Proof.
  unfold execute_claude. intros H [ta Hta].
  destruct (execute_claude_body s a w) as [[r|e] w2] eqn:Hb;
    injection H as <- <-; [|discriminate Hta].
  unfold execute_claude_body in Hb.
  apply M_bind_Ok in Hb as ([] & w0 & Hm & Hb).
  apply M_bind_Ok in Hb as (fb & w1 & Hs & Hb).
  unfold snapshot in Hs. injection Hs as <- <-.
  rewrite <- (mkdir_snapshot (user_workspace s a) _ _ Hm).
  apply M_bind_Ok in Hb as (run & w3 & _ & Hb).
  destruct (run_was_stopped run).
  { cbv beta delta [mret M_ret] in Hb. injection Hb as <- _. discriminate Hta. }
  match type of Hb with
  | (if ?c then _ else _) _ = _ => destruct c
  end.
  { apply M_bind_Ok in Hb as (rt & w4 & _ & Hb).
    cbv beta delta [mret M_ret] in Hb. injection Hb as <- _. discriminate Hta. }
  apply M_bind_Ok in Hb as (l & w4 & Hl & Hb).
  destruct l as [lp|response].
  - apply finish_created in Hb as (-> & _ & Hc). exact Hc.
  - cbv beta delta [mret M_ret] in Hb. injection Hb as <- _.
    apply retry_loop_return in Hl. congruence.
Qed.

Lemma new_file_difference ws entries name :
  name ∉ entries.*1 ->
  get_workspace_files ws (Some (with_new_file entries name))
  ∖ get_workspace_files ws (Some (Dir entries))
  = {[ ws ++ [name] ]}.
Proof.
  intros Hn. unfold with_new_file, get_workspace_files.
  rewrite !walk_dir, bind_app, list_to_set_app_L. simpl.
  assert (Hnot : ws ++ [name] ∉ (list_to_set (entries ≫= walk_entry ws) : gset Path)).
  { rewrite <- walk_dir, elem_of_list_to_set, walk_spec.
    intros (rel & Heq & Hr). apply app_inv_head in Heq. subst rel.
    inversion Hr as [? ? He|? ? sub rel' He Hs Hr']; subst.
    - apply Hn. apply list_elem_of_fmap. by exists (name, File).
    - inversion Hr'. }
  set_solver.
Qed.

(** C4, as stated, fails for the runs that return before the final
    snapshot: a run stopped by the user after [out.txt] was written
    reports no created file, although [out.txt] is the difference of the
    two snapshots and passes the filter. *)
Lemma stopped_run_reports_no_files :
  let w := world_of [p_stopped_after_write] fs_before in
  let out := execute_claude demo_settings demo_args w in
  let ws := user_workspace demo_settings demo_args in
  created_files out.1 = []
  /\ error out.1 = Some MSG_STOPPED
  /\ elements (get_workspace_files ws (fs out.2) ∖ get_workspace_files ws (fs w))
     = [ws ++ ["out.txt"]]
  /\ keep_created (ws ++ ["out.txt"]) = true.
Proof. vm_compute. repeat split. Qed.

(** C4, amended. For every run that reaches the final return (it was not
    cancelled, its first process run did not fail and nothing raised;
    such a response carries tool actions), the created files are, without
    repetition, exactly the files of the snapshot after the run that are
    not in the snapshot before it, have no path component starting with
    ".claude" and have neither the suffix ".log" nor ".tmp"; a snapshot
    holds the files of the workspace tree reached without entering a
    skipped directory; in particular, when the workspace path itself has
    no component starting with ".claude", a run that only adds [out.txt]
    at the top of the workspace reports exactly that file. *)
Theorem created_files_are_the_new_kept_files s a w resp w' :
  execute_claude s a w = (resp, w') -> is_Some (tool_actions resp) ->
  let ws := user_workspace s a in
  NoDup (created_files resp)
  /\ (forall f, (f ∈ created_files resp)
        <-> (f ∈ get_workspace_files ws (fs w')
             /\ (f ∉ get_workspace_files ws (fs w))
             /\ (forall part, part ∈ f -> startswith ".claude" part = false)
             /\ suffix f <> ".log" /\ suffix f <> ".tmp"))
  /\ (forall tree f, f ∈ get_workspace_files ws tree
        <-> exists n rel, tree = Some n /\ f = ws ++ rel /\ reaches n rel)
  /\ (forall entries,
        fs w = Some (Dir entries) ->
        fs w' = Some (with_new_file entries "out.txt") ->
        "out.txt" ∉ entries.*1 ->
        (forall part, part ∈ ws -> startswith ".claude" part = false) ->
        created_files resp = [ws ++ ["out.txt"]]).
Proof.
  intros H Hta ws. pose proof (execute_claude_final s a w resp w' H Hta) as Hc.
  fold ws in Hc. split; [|split; [|split]].
  - rewrite Hc. apply NoDup_ListNoDup, List.NoDup_filter, NoDup_ListNoDup, NoDup_elements.
  - intros f. rewrite Hc, list_elem_of_In, List.filter_In, <- list_elem_of_In.
    rewrite elem_of_elements, elem_of_difference, keep_created_spec. tauto.
  - intros tree f. apply get_workspace_files_spec.
  - intros entries Hb Ha Hn Hws. rewrite Hc, Hb, Ha, new_file_difference by done.
    rewrite elements_singleton. simpl.
    assert (keep_created (ws ++ ["out.txt"]) = true) as ->; [|done].
    apply keep_created_spec. split; [|split].
    + intros part [Hp| ->%list_elem_of_singleton]%elem_of_app; [by apply Hws | done].
    + unfold suffix. by rewrite last_snoc.
    + unfold suffix. by rewrite last_snoc.
Qed.

Lemma created_files_are_the_new_kept_files_witness :
  let w := world_of [p_writes_out] fs_before in
  let out := execute_claude demo_settings demo_args w in
  created_files out.1 = [user_workspace demo_settings demo_args ++ ["out.txt"]].
Proof.
  intros w out.
  refine (proj2 (proj2 (proj2
            (created_files_are_the_new_kept_files demo_settings demo_args
               w out.1 out.2 _ _)))
            [("notes.md", File); (".claude", Dir [("session.json", File)])] _ _ _ _).
  - apply surjective_pairing.
  - vm_compute. by eexists.
  - reflexivity.
  - reflexivity.
  - simpl. rewrite !elem_of_cons, elem_of_nil. by intros [|[|]].
  - intros part Hp. vm_compute in Hp.
    repeat (apply elem_of_cons in Hp as [->|Hp]; [reflexivity|]).
    by apply elem_of_nil in Hp.
Defined.

(** A complete run that writes [out.txt], a log file and a session file
    reports [out.txt] only. *)
Example only_kept_files_are_reported :
  created_files (execute_claude demo_settings demo_args
                   (world_of [p_writes] fs_before)).1
  = [user_workspace demo_settings demo_args ++ ["out.txt"]].
Proof. vm_compute. reflexivity. Qed.

(** *** The snapshot and the filter, path by path *)

Lemma reaches_not_skipped n : forall pre d post,
  skip_dir d = true -> post <> [] -> ~ reaches n (pre ++ d :: post).
Proof.
  induction n as [|entries IH] using Node_tree_ind; intros pre d post Hs Hp Hr.
  - inversion Hr.
  - inversion Hr as [? name He Heq|? name sub rel He Hns Hsub Heq]; subst.
    + destruct pre as [|x pre]; simplify_eq/=. by destruct pre.
    + rewrite Forall_forall in IH. specialize (IH _ He). simpl in IH.
      destruct pre as [|x pre]; simplify_eq/=.
      * congruence.
      * by eapply IH.
Qed.

(** The snapshot never looks inside a skipped directory, at any depth: no
    path that passes through a directory named [.git], [node_modules],
    [__pycache__], [.venv] or [.claude] is part of it. *)
Theorem skipped_directories_are_not_walked ws fs pre d post :
  skip_dir d = true -> post <> [] ->
  ws ++ pre ++ d :: post ∉ get_workspace_files ws fs.
Proof.
  intros Hs Hp Hin. apply get_workspace_files_spec in Hin as (n & rel & _ & Heq & Hr).
  apply app_inv_head in Heq. subst rel. by eapply reaches_not_skipped.
Qed.

Lemma skipped_directories_are_not_walked_witness :
  ["srv"; ".git"; "hooks"; "pre-commit"] ∉ get_workspace_files ["srv"] fs_repo.
Proof.
  apply (skipped_directories_are_not_walked ["srv"] fs_repo [] ".git"
           ["hooks"; "pre-commit"]).
  - reflexivity.
  - discriminate.
Defined.

Lemma string_length_app (a b : string) :
  String.length (a +:+ b) = (String.length a + String.length b)%nat.
Proof. induction a as [|c a IH]; [done|]. rewrite append_cons. simpl. by rewrite IH. Qed.

Lemma substring_app_r (a b : string) :
  String.substring (String.length a) (String.length b) (a +:+ b) = b.
Proof.
  induction a as [|c a IH].
  - rewrite append_empty_l. simpl. induction b as [|c b IHb]; [done|].
    simpl. by rewrite IHb.
  - rewrite append_cons. simpl. exact IH.
Qed.

Lemma rfind_dot_ext (stem ext : string) : forall pos,
  (forall p, rfind_dot ext p = None) ->
  rfind_dot (stem +:+ String "." ext) pos = Some (pos + String.length stem)%nat.
Proof.
  induction stem as [|c stem IH]; intros pos He.
  - rewrite append_empty_l. simpl. rewrite He. simpl. f_equal. lia.
  - rewrite append_cons. simpl. rewrite IH by done. f_equal. lia.
Qed.

Lemma name_suffix_ext (stem ext : string) :
  stem <> "" -> ext <> "" -> (forall p, rfind_dot ext p = None) ->
  name_suffix (stem +:+ String "." ext) = String "." ext.
Proof.
  intros Hs Hx He. unfold name_suffix. rewrite rfind_dot_ext by done. simpl.
  rewrite string_length_app. simpl.
  assert (0 < String.length stem)%nat by (destruct stem; [done|simpl; lia]).
  assert (0 < String.length ext)%nat by (destruct ext; [done|simpl; lia]).
  assert (((0 <? String.length stem)
           && (String.length stem <? String.length stem + S (String.length ext) - 1))%nat
          = true) as ->.
  { apply andb_true_iff. split; apply Nat.ltb_lt; lia. }
  replace (String.length stem + S (String.length ext) - String.length stem)%nat
    with (String.length (String "." ext)) by (simpl; lia).
  apply substring_app_r.
Qed.

(** A new file whose name ends in [.log] or [.tmp] after a stem that is
    not empty is never reported, in whatever directory it is; a file named
    exactly [.log] or [.tmp] has no suffix for [pathlib] and passes the
    filter. *)
Theorem log_and_tmp_files_are_dropped dir stem :
  (stem <> "" ->
   keep_created (dir ++ [stem +:+ ".log"]) = false
   /\ keep_created (dir ++ [stem +:+ ".tmp"]) = false)
  /\ ((forall part, part ∈ dir -> startswith ".claude" part = false) ->
      keep_created (dir ++ [".log"]) = true
      /\ keep_created (dir ++ [".tmp"]) = true).
Proof.
  split.
  - intros Hs. unfold keep_created, suffix. rewrite !last_snoc.
    rewrite (name_suffix_ext stem "log") by done.
    rewrite (name_suffix_ext stem "tmp") by done.
    split; apply andb_false_iff; right; reflexivity.
  - intros Hd. split; apply keep_created_spec.
    all: split; [|unfold suffix; rewrite last_snoc; split; discriminate].
    all: intros part [Hp|Hp]%elem_of_app; [by apply Hd|].
    all: apply list_elem_of_singleton in Hp; by subst part.
Qed.

(** *** The tools allowed to a run *)

Lemma fromkeys_elem (l : list string) x : x ∈ fromkeys l <-> x ∈ l.
Proof.
  induction l as [|y l IH]; [done|]. simpl. rewrite !elem_of_cons.
  rewrite <- IH. rewrite (list_elem_of_In (List.filter _ _) x), filter_In.
  rewrite <- list_elem_of_In.
  destruct (String.eqb_spec y x) as [->|Hne]; simpl.
  - split; auto.
  - split; [intros [?|[? _]]; auto|]. intros [->|?]; [by left|]. right. done.
Qed.

Lemma fromkeys_NoDup (l : list string) : NoDup (fromkeys l).
Proof.
  induction l as [|y l IH]; simpl; [constructor|]. constructor.
  - rewrite list_elem_of_In, filter_In. intros [_ H].
    by rewrite String.eqb_refl in H.
  - apply NoDup_ListNoDup, List.NoDup_filter, NoDup_ListNoDup, IH.
Qed.

Lemma fromkeys_id (l : list string) : NoDup l -> fromkeys l = l.
Proof.
  induction 1 as [|y l Hy _ IH]; [done|]. simpl. rewrite IH. f_equal.
  apply forallb_filter_id, forallb_forall. intros x Hx. apply negb_true_iff.
  destruct (String.eqb_spec y x) as [->|]; [|done].
  by apply list_elem_of_In in Hx.
Qed.

(** The tools a run is allowed: the list given to [--allowedTools] has no
    duplicate; for the first run it holds the safe tools and the
    pre-approved tools and nothing else, for a resumed run the approved
    and the auto-approved tools, the safe tools, the pre-approved tools and
    the question tool; without pre-approved tools the first list is the
    list of safe tools as it stands. *)
Theorem allowed_tools_are_listed_once (a : Args) approved auto_approved :
  let first := fromkeys (SAFE_TOOLS ++ pre_approved a) in
  let later := fromkeys (approved ++ auto_approved ++ SAFE_TOOLS ++ pre_approved a
                         ++ ["AskUserQuestion"]) in
  NoDup first /\ NoDup later
  /\ (forall x, x ∈ first <-> x ∈ SAFE_TOOLS \/ x ∈ pre_approved a)
  /\ (forall x, x ∈ later <->
        x ∈ approved \/ x ∈ auto_approved \/ x ∈ first \/ x = "AskUserQuestion")
  /\ (pre_approved_tools a = None -> first = SAFE_TOOLS).
Proof.
  intros first later. split; [apply fromkeys_NoDup|]. split; [apply fromkeys_NoDup|].
  split; [|split].
  - intros x. unfold first. by rewrite fromkeys_elem, elem_of_app.
  - intros x. unfold later, first.
    rewrite !fromkeys_elem, !elem_of_app, list_elem_of_singleton. tauto.
  - intros Hn. unfold first, pre_approved. rewrite Hn, app_nil_r.
    apply fromkeys_id. unfold SAFE_TOOLS. repeat (constructor; [set_solver|]).
    constructor.
Qed.

(** *** Reading the events of a finished run *)

(** Only the first [result] event of a stream is consulted for the
    permission denials and for the result text: after objects of other
    types, the first [result] event decides both, and the events after it
    are never looked at, whatever they are; without a [result] event the
    denials are the empty list and the text is empty. *)
Theorem first_result_event_decides pre e post :
  forallb is_other pre = true ->
  (is_result e = true ->
   _get_permission_denials (pre ++ e :: post)
   = Ok (default (JArr []) (field e "permission_denials"))
   /\ _get_result_text (pre ++ e :: post)
      = Ok (or_else (default (JStr "") (field e "result")) (JStr "")))
  /\ _get_permission_denials pre = Ok (JArr [])
  /\ _get_result_text pre = Ok (JStr "").
Proof.
  intros Hpre. induction pre as [|x pre IH].
  - split; [|done]. intros He. destruct e as [| | | | |kvs]; try discriminate.
    unfold is_result in He. simpl in He. simpl. rewrite He. done.
  - simpl in Hpre. apply andb_prop in Hpre as [Hx Hpre].
    destruct (IH Hpre) as (IH1 & IH2 & IH3). clear IH.
    destruct x as [| | | | |kvs]; try discriminate.
    unfold is_other in Hx. simpl in Hx. apply negb_true_iff in Hx.
    split; [|split].
    + intros He. destruct (IH1 He) as [H1 H2].
      simpl. rewrite Hx. split; [exact H1 | exact H2].
    + simpl. rewrite Hx. exact IH2.
    + simpl. rewrite Hx. exact IH3.
Qed.

Lemma first_result_event_decides_witness :
  _get_permission_denials
    [assistant_event [text_block "Hi"];
     result_event false [] [denial "Bash" (JObj [])];
     JNum 3; result_event false [] [denial "Edit" (JObj [])]]
  = Ok (JArr [denial "Bash" (JObj [])]).
Proof.
  destruct (first_result_event_decides [assistant_event [text_block "Hi"]]
              (result_event false [] [denial "Bash" (JObj [])])
              [JNum 3; result_event false [] [denial "Edit" (JObj [])]])
    as ((H & _) & _); [reflexivity|reflexivity|].
  exact H.
Defined.

Lemma text_parts_of_blocks blocks :
  forallb wf_block blocks = true ->
  exists ps : list (list string),
    mapM (fun block : JSON =>
            (ty ← get block "type" JNull;
             if is_str ty "text"
             then t ← getitem block "text"; Ok [t]
             else Ok []) : Res (list JSON)) blocks
    = Ok ((fun p : list string => JStr <$> p) <$> ps)
    /\ String.concat "" (concat ps) = String.concat "" (block_text <$> blocks).
Proof.
  induction blocks as [|b blocks IH]; intros Hwf.
  - exists []. done.
  - simpl in Hwf. apply andb_prop in Hwf as [Hb Hrest].
    destruct (IH Hrest) as (ps & Hps & Hc). clear IH.
    destruct b as [| | | | |kvs]; try discriminate.
    cbn [mapM]. rewrite get_obj. cbn [mbind Res_bind].
    simpl in Hb. rewrite fmap_cons, concat_empty_cons.
    unfold block_text at 1. cbn [field].
    destruct (is_str (default JNull (assoc "type" kvs)) "text") eqn:Ht.
    + destruct (assoc "text" kvs) as [[| | |s| |]|] eqn:Hx; try discriminate.
      cbn [getitem]. rewrite Hx. cbn [mbind Res_bind]. rewrite Hps.
      exists ([s] :: ps). split; [done|].
      change (concat ([s] :: ps)) with (s :: concat ps).
      rewrite concat_empty_cons. by rewrite Hc.
    + rewrite Hps. exists ([] :: ps). split; [done|].
      change (concat ([] :: ps)) with (concat ps). by rewrite append_empty_l.
Qed.

Lemma assistant_text_parts_wf event :
  wf_event event = true ->
  is_str (default JNull (field event "type")) "assistant" = true ->
  exists ps : list string,
    assistant_text_parts event = Ok (JStr <$> ps)
    /\ String.concat "" ps = event_text event.
Proof.
  intros Hwf Ha. destruct event as [| | | | |kvs]; try discriminate.
  simpl in Hwf, Ha. rewrite Ha in Hwf.
  unfold assistant_text_parts, event_text. cbn [field]. rewrite Ha, get_obj.
  cbn [mbind Res_bind].
  destruct (assoc "message" kvs) as [[| | | | |mkvs]|] eqn:Hm; try discriminate.
  - change (default (JObj []) (Some (JObj mkvs))) with (JObj mkvs).
    rewrite get_obj. cbn [mbind Res_bind field].
    destruct (assoc "content" mkvs) as [[| | | |blocks|]|] eqn:Hc; try discriminate.
    + change (default (JArr []) (Some (JArr blocks))) with (JArr blocks).
      cbn [iter mbind Res_bind].
      destruct (text_parts_of_blocks blocks Hwf) as (ps & Hps & Hcat).
      rewrite Hps. cbn [mbind Res_bind]. exists (concat ps). split; [|done].
      f_equal. clear. induction ps as [|p ps IH]; [done|].
      change (concat (p :: ps)) with (p ++ concat ps).
      rewrite fmap_app, <- IH. done.
    + by exists [].
  - by exists [].
Qed.

Lemma extract_loop_wf events : forall acc : list string,
  forallb wf_event events = true -> no_result_text events = true ->
  exists ps : list string,
    _extract_text_from_events_loop events (JStr <$> acc) = Ok (JStr <$> (acc ++ ps))
    /\ String.concat "" ps = stream_text events.
Proof.
  induction events as [|e events IH]; intros acc Hwf Hnr.
  - exists []. by rewrite app_nil_r.
  - simpl in Hwf, Hnr. apply andb_prop in Hwf as [He Hwf].
    apply andb_prop in Hnr as [Hr Hnr].
    unfold stream_text. rewrite fmap_cons, concat_empty_cons.
    fold (stream_text events).
    destruct e as [| | | | |kvs]; try discriminate.
    cbn [_extract_text_from_events_loop]. rewrite !get_obj.
    cbn [mbind Res_bind].
    destruct (is_str (default JNull (assoc "type" kvs)) "assistant") eqn:Ha.
    + destruct (assistant_text_parts_wf (JObj kvs) He) as (ps & Hps & Hcat);
        [done|].
      rewrite Hps. cbn [mbind Res_bind]. rewrite <- fmap_app.
      destruct (IH (acc ++ ps) Hwf Hnr) as (qs & Hqs & Hq).
      exists (ps ++ qs). split; [by rewrite Hqs, app_assoc|].
      rewrite concat_empty_app, Hcat, Hq. done.
    + assert (event_text (JObj kvs) = "") as ->.
      { unfold event_text. cbn [field]. by rewrite Ha. }
      rewrite append_empty_l.
      destruct (is_str (default JNull (assoc "type" kvs)) "result") eqn:Hres.
      * unfold is_result in Hr. cbn [is_object field andb] in Hr.
        rewrite Hres in Hr. simpl in Hr. apply negb_true_iff in Hr.
        rewrite Hr. simpl. by apply IH.
      * by apply IH.
Qed.

(** The batch extractor agrees with the streaming reader: on a stream of
    well-formed events in which no [result] event carries a text, the text
    extracted from the events is the concatenation, in arrival order, of
    the text of every text block of their assistant events, which is the
    text a run accumulates while it reads them. *)
Theorem extracted_text_is_the_streamed_text events :
  forallb wf_event events = true -> no_result_text events = true ->
  _extract_text_from_events events = Ok (stream_text events).
Proof.
  intros Hwf Hnr. unfold _extract_text_from_events.
  destruct (extract_loop_wf events [] Hwf Hnr) as (ps & Hps & Hcat).
  change (@nil JSON) with (JStr <$> (@nil string)).
  rewrite Hps. cbn [mbind Res_bind app]. unfold join_json. cbn [iter mbind Res_bind].
  rewrite QuestionFacts.mapM_as_str_fmap. cbn [mbind Res_bind].
  unfold join. by rewrite Hcat.
Qed.

Lemma extracted_text_is_the_streamed_text_witness :
  _extract_text_from_events (consumed (stdout p_hello)) = Ok "Hello, world".
Proof.
  rewrite (extracted_text_is_the_streamed_text (consumed (stdout p_hello)));
    reflexivity.
Defined.

(** *** The activity log *)

Lemma mapM_Ok {A B} (f : A -> Res B) l ys :
  mapM f l = Ok ys -> Forall2 (fun x y => f x = Ok y) l ys.
Proof.
  revert ys. induction l as [|x l IH]; intros ys H.
  - injection H as <-. constructor.
  - simpl in H. apply Res_bind_Ok in H as (y & Hy & H).
    apply Res_bind_Ok in H as (ys' & Hys & H). injection H as <-.
    constructor; [done | by apply IH].
Qed.

Lemma is_str_eq v s : is_str v s = true -> v = JStr s.
Proof.
  destruct v; try discriminate. simpl. by intros ->%String.eqb_eq.
Qed.

Lemma tool_summary_logged name input n s :
  tool_summary name input = Ok (Some (n, s)) -> n ∈ LOGGED_TOOLS.
Proof.
  unfold tool_summary, LOGGED_TOOLS. intros H.
  destruct (is_str name "Bash") eqn:E1.
  { apply Res_bind_Ok in H as (cmd & _ & H).
    apply Res_bind_Ok in H as (desc & _ & H).
    destruct (truthy desc); [injection H as <- _; set_solver|].
    apply Res_bind_Ok in H as (k & _ & H).
    destruct (80 <? k)%nat; [destruct cmd; try discriminate|];
      injection H as <- _; set_solver. }
  destruct (is_str name "Read" || is_str name "Glob" || is_str name "Grep") eqn:E2.
  { apply Res_bind_Ok in H as (fp & _ & H).
    apply Res_bind_Ok in H as (pa & _ & H).
    apply Res_bind_Ok in H as (pt & _ & H). injection H as <- _.
    apply orb_prop in E2 as [E2|E2]; [apply orb_prop in E2 as [E2|E2]|];
      apply is_str_eq in E2; subst name; set_solver. }
  destruct (is_str name "Write" || is_str name "Edit") eqn:E3.
  { apply Res_bind_Ok in H as (pa & _ & H). injection H as <- _.
    apply orb_prop in E3 as [E3|E3]; apply is_str_eq in E3; subst name; set_solver. }
  destruct (is_str name "Task") eqn:E4; [|discriminate].
  apply Res_bind_Ok in H as (d & _ & H). injection H as <- _. set_solver.
Qed.

Lemma block_tool_actions_logged block acts :
  block_tool_actions block = Ok acts ->
  Forall (fun act => tool_name act ∈ LOGGED_TOOLS /\ truthy (summary act) = true) acts.
Proof.
  unfold block_tool_actions. intros H.
  apply Res_bind_Ok in H as (ty & _ & H).
  destruct (negb (is_str ty "tool_use")); [injection H as <-; constructor|].
  apply Res_bind_Ok in H as (name & _ & H).
  apply Res_bind_Ok in H as (input & _ & H).
  apply Res_bind_Ok in H as (sm & Hs & H).
  destruct sm as [[n s]|]; [|injection H as <-; constructor].
  destruct (truthy s) eqn:Ht; injection H as <-; constructor; [|constructor].
  split; [by eapply tool_summary_logged | done].
Qed.

(** The activity log reports only uses of [Bash], [Read], [Glob], [Grep],
    [Write], [Edit] and [Task], and none with an empty summary: whenever
    the extraction returns, every action has one of these names and a
    summary that is not empty. *)
Theorem logged_actions_are_named_and_described events actions :
  _extract_tool_actions events = Ok actions ->
  Forall (fun act => tool_name act ∈ LOGGED_TOOLS /\ truthy (summary act) = true)
         actions.
Proof.
  revert actions. induction events as [|event events IH]; intros actions H.
  - injection H as <-. constructor.
  - cbn [_extract_tool_actions] in H.
    apply Res_bind_Ok in H as (ty & _ & H).
    destruct (negb (is_str ty "assistant")); [by apply IH|].
    apply Res_bind_Ok in H as (message & _ & H).
    apply Res_bind_Ok in H as (content & _ & H).
    apply Res_bind_Ok in H as (blocks & _ & H).
    apply Res_bind_Ok in H as (acts & Ha & H).
    apply Res_bind_Ok in H as (more & Hm & H). injection H as <-.
    apply Forall_app. split; [|by apply IH].
    apply mapM_Ok in Ha. apply Forall_concat.
    induction Ha as [|b a bs as' Hb _ IHa]; constructor; [|exact IHa].
    by eapply block_tool_actions_logged.
Qed.

Lemma logged_actions_are_named_and_described_witness :
  Forall (fun act => tool_name act ∈ LOGGED_TOOLS /\ truthy (summary act) = true)
         [{| tool_name := "Bash"; summary := JStr "ls -la" |}].
Proof.
  apply (logged_actions_are_named_and_described
           [assistant_event
              [JObj [("type", JStr "tool_use"); ("name", JStr "Bash");
                     ("input", JObj [("command", JStr "ls -la")])];
               JObj [("type", JStr "tool_use"); ("name", JStr "TodoWrite");
                     ("input", JObj [("todos", JArr [])])];
               JObj [("type", JStr "tool_use"); ("name", JStr "Write");
                     ("input", JObj [])]]]).
  reflexivity.
Defined.

(** *** Retrying *)

Lemma sleeps_app d1 d2 : sleeps (d1 ++ d2) = sleeps d1 ++ sleeps d2.
Proof. unfold sleeps. apply omap_app. Qed.

Lemma sleeps_not_sleep d : Forall (fun e => not_sleep e = true) d -> sleeps d = [].
Proof.
  induction 1 as [|e d He _ IH]; [done|]. unfold sleeps. simpl.
  destruct e; try done.
Qed.

Lemma retry_async_step {A} (func : M A) n delay backoff w :
  retry_async func (S n) delay backoff w
  = match func w with
    | (Ok a, w1) => (Ok (Some a), w1)
    | (Raise e, w1) =>
        match n with
        | O => (Raise e, w1)
        | S _ => retry_async func n (delay * backoff) backoff (emit (Sleep delay) w1).2
        end
    end.
Proof.
  cbn [retry_async]. unfold mbind, M_bind, try_.
  destruct (func w) as [[a|e] w1]; [done|]. by destruct n.
Qed.

(** [retry_async] sleeps between two attempts and at no other time: before
    the second attempt for [delay], before each later one [backoff] times
    longer, and not after the last attempt.  It makes no attempt and
    returns [None] when [max_retries] is zero; otherwise it returns the
    value of the first attempt that succeeds, and it raises only when
    [max_retries] attempts have failed.  The function retried is one that
    does not sleep by itself and whose attempts are not cancelled (a
    cancellation is no [Exception] and is not retried). *)
Theorem retry_async_backs_off {A} (func : M A) max_retries delay backoff w :
  emits_only not_sleep func ->
  (forall w0, (func w0).1 <> Raise CancelledError) ->
  let out := retry_async func max_retries delay backoff w in
  exists j d,
    trace out.2 = trace w ++ d
    /\ sleeps d = backoff_delays delay backoff j
    /\ (j <= max_retries - 1)%nat
    /\ (max_retries = 0%nat -> out = (Ok None, w))
    /\ (forall e, out.1 = Raise e -> S j = max_retries)
    /\ ((0 < max_retries)%nat -> out.1 <> Ok None).
Proof.
  intros Hf _. revert delay w.
  induction max_retries as [|n IH]; intros delay w out; subst out.
  - exists 0%nat, []. simpl. rewrite app_nil_r. repeat split; try done; lia.
  - rewrite retry_async_step.
    destruct (Hf w) as (d0 & Hd0 & Fd0).
    destruct (func w) as [[a|e] w1] eqn:Hrun; simpl in Hd0.
    + exists 0%nat, d0. simpl. repeat split; try done; try lia.
      by apply sleeps_not_sleep.
    + destruct n as [|n'].
      * exists 0%nat, d0. simpl. repeat split; try done; try lia.
        by apply sleeps_not_sleep.
      * destruct (IH (delay * backoff) (emit (Sleep delay) w1).2)
          as (j & d & Ht & Hs & Hj & _ & Hr & Hn).
        change (trace (emit (Sleep delay) w1).2)
          with (trace w1 ++ [Sleep delay]) in Ht.
        exists (S j), (d0 ++ [Sleep delay] ++ d).
        split; [by rewrite Ht, Hd0, <- !app_assoc|].
        split.
        { rewrite !sleeps_app, (sleeps_not_sleep d0) by done. simpl. by rewrite Hs. }
        split; [lia|]. split; [done|].
        split.
        { intros e0 He0. f_equal. by eapply Hr. }
        intros _. apply Hn. lia.
Qed.

Lemma retry_async_backs_off_witness :
  let out := retry_async (call_question twice_flaky payload_a) 3 1 2
                         (world_of [] None) in
  exists j d,
    trace out.2 = trace (world_of [] None) ++ d
    /\ sleeps d = backoff_delays 1 2 j
    /\ (j <= 3 - 1)%nat
    /\ (3%nat = 0%nat -> out = (Ok None, world_of [] None))
    /\ (forall e, out.1 = Raise e -> S j = 3%nat)
    /\ ((0 < 3)%nat -> out.1 <> Ok None).
Proof.
  apply (retry_async_backs_off (call_question twice_flaky payload_a) 3 1 2
           (world_of [] None)).
  - intros w. eexists. split; [reflexivity|]. by repeat constructor.
  - intros w. unfold call_question, twice_flaky. simpl.
    destruct (q_calls w) as [|[|k]]; discriminate.
Defined.

(** *** Leaving a run *)

Lemma drain_waits cb p w r w' :
  drain cb p w = (r, w') ->
  procs w' = procs w /\ fs w' = workspace_after p
  /\ exists d k d2,
       trace w' = trace w ++ d ++ k ++ [Wait] ++ d2
       /\ Forall (fun e => is_update e = true) d
       /\ (k = [] \/ k = [Kill])
       /\ Forall (fun e => is_update e = true) d2
       /\ (forall e, r = Raise e -> d2 = [] \/ k = []).
Proof.
  intros H. unfold drain in H.
  unfold mbind at 1 in H. unfold M_bind at 1 in H.
  destruct (read_stdout_spec cb (stdout p) reader_init w)
    as (st & e & w2 & Hr & (U1 & U2 & U3 & U4 & d & U5 & U6) & _).
  rewrite Hr in H.
  assert (Hflush : forall w3, exists w4 d2,
             flush_output cb (accumulated_text st) w3 = (Ok tt, w4)
             /\ procs w4 = procs w3 /\ fs w4 = fs w3
             /\ trace w4 = trace w3 ++ d2
             /\ Forall (fun e => is_update e = true) d2).
  { intros w3. destruct (flush_output_spec cb (accumulated_text st) w3)
      as (w4 & Hf & F1 & F2 & _ & _ & F5).
    exists w4, (flushed cb (accumulated_text st)). repeat split; try done.
    unfold flushed. destruct cb; [|constructor].
    destruct (String.eqb _ _); repeat constructor. }
  destruct e as [x|]; [destruct x|]; destruct (stderr_end p) eqn:Hse;
    try destruct (was_stopped st);
    unfold mbind, M_bind, kill, emit, wait, lift, mret, M_ret, raise in H;
    cbn [fst snd procs fs trace] in H.
  all: try match type of H with
       | context [flush_output ?c ?t ?w3] =>
           destruct (Hflush w3) as (w4 & d2 & Hf & F1 & F2 & F3 & F4);
           rewrite Hf in H; cbn [fst snd procs fs trace] in *
       end.
  all: try match type of H with
       | context [classify_exit ?r ?t ?ev] => destruct (classify_exit r t ev)
       end.
  all: injection H as <- <-; cbn [fst snd procs fs trace].
  all: split; [congruence|]; split; [congruence|].
  all: first
    [ exists d, [Kill], []; split;
      [rewrite U5, <- ?app_assoc; reflexivity|];
      repeat split; auto; intros; by left
    | exists d, [Kill], d2; split;
      [rewrite F3; cbn [trace]; rewrite U5, <- ?app_assoc; reflexivity|];
      repeat split; auto; intros; discriminate
    | exists d, [], d2; split;
      [rewrite F3; cbn [trace]; rewrite U5, <- ?app_assoc; reflexivity|];
      repeat split; auto; intros; by right ].
Qed.

(** Whatever the process writes and however the run ends, by a result or
    by an exception, a process that was spawned is waited on before the
    run is left, at once or right after it was killed; nothing follows the
    wait but the final output update, which is not made when the run
    raises after a kill, and the workspace is then as the process left
    it. *)
Theorem spawned_process_is_always_waited cmd ws cb w p rest :
  procs w = p :: rest ->
  let out := _run_claude_process_inner cmd ws cb w in
  procs out.2 = rest /\ fs out.2 = workspace_after p
  /\ exists d k d2,
       trace out.2 = trace w ++ [Spawn cmd ws] ++ d ++ k ++ [Wait] ++ d2
       /\ Forall (fun e => is_update e = true) d
       /\ (k = [] \/ k = [Kill])
       /\ Forall (fun e => is_update e = true) d2
       /\ (forall e, out.1 = Raise e -> d2 = [] \/ k = []).
Proof.
  intros Hp out. subst out.
  destruct (_run_claude_process_inner cmd ws cb w) as [r w'] eqn:H.
  unfold _run_claude_process_inner in H.
  unfold mbind, M_bind, create_subprocess_exec in H. rewrite Hp in H.
  apply drain_waits in H as (H1 & H2 & d & k & d2 & H3 & H4 & H5 & H6 & H7).
  simpl in H1, H3. simpl.
  split; [done|]. split; [done|]. exists d, k, d2.
  split; [by rewrite H3, <- !app_assoc|]. done.
Qed.

Lemma spawned_process_is_always_waited_witness :
  let out := _run_claude_process_inner ["claude"] ["srv"] None
               (world_of [p_stopped_later] None) in
  procs out.2 = [] /\ fs out.2 = workspace_after p_stopped_later
  /\ exists d k d2,
       trace out.2 = [] ++ [Spawn ["claude"] ["srv"]] ++ d ++ k ++ [Wait] ++ d2
       /\ Forall (fun e => is_update e = true) d
       /\ (k = [] \/ k = [Kill])
       /\ Forall (fun e => is_update e = true) d2
       /\ (forall e, out.1 = Raise e -> d2 = [] \/ k = []).
Proof.
  apply (spawned_process_is_always_waited ["claude"] ["srv"] None
           (world_of [p_stopped_later] None) p_stopped_later []).
  reflexivity.
Defined.

(** A run whose process prints nothing for ten minutes, or which lasts
    longer than the whole-run limit, kills the process, waits on it and
    returns exit code -1 with the message of the limit that expired and the
    events and text read so far; it makes no final output update, and it
    does not report the run as stopped, even when the stop signal was seen
    before the whole-run limit expired. *)
Theorem timed_out_run_is_killed cmd ws cb w p rest :
  procs w = p :: rest -> valid_stream (stdout p) = true ->
  wall_clock_expires p = true \/ read_end (stdout p) = ReadTimedOut ->
  exists w' d,
    _run_claude_process_inner cmd ws cb w
    = (Ok {| run_events := consumed (stdout p);
             run_text := stream_text (consumed (stdout p));
             run_exit_code := -1;
             run_error := Some (if wall_clock_expires p then MSG_WALL_CLOCK
                                else MSG_NO_OUTPUT);
             run_was_stopped := false |}, w')
    /\ Forall (fun e => is_update e = true) d
    /\ trace w' = trace w ++ [Spawn cmd ws] ++ d ++ [Kill; Wait].
Proof.
  intros Hp Hv Ht.
  destruct (run_valid cmd ws cb w p rest Hp Hv)
    as (w' & d & Hrun & _ & _ & _ & _ & Hd & Htr).
  exists w', d. rewrite Hrun, Htr. unfold scripted_result, closing.
  destruct (wall_clock_expires p) eqn:Hw; [done|].
  destruct Ht as [Ht|Ht]; [discriminate|]. by rewrite Ht.
Qed.

Lemma timed_out_run_is_killed_witness :
  exists w' d,
    _run_claude_process_inner ["claude"] ["srv"] None (world_of [p_silent] None)
    = (Ok {| run_events := consumed (stdout p_silent);
             run_text := "Thinking";
             run_exit_code := -1;
             run_error := Some MSG_NO_OUTPUT;
             run_was_stopped := false |}, w')
    /\ Forall (fun e => is_update e = true) d
    /\ trace w' = [] ++ [Spawn ["claude"] ["srv"]] ++ d ++ [Kill; Wait].
Proof.
  apply (timed_out_run_is_killed ["claude"] ["srv"] None (world_of [p_silent] None)
           p_silent []); [reflexivity | reflexivity | by right].
Defined.

(** *** A line that is JSON but no object *)

Lemma read_stdout_lines cb pre rest : forall st w,
  all_lines pre = true -> valid_stream pre = true ->
  exists st1 w1,
    read_stdout cb (pre ++ rest) st w = read_stdout cb rest st1 w1
    /\ updates_only w w1.
Proof.
  induction pre as [|[stop r] pre IH]; intros st w Hl Hv.
  - exists st, w. split; [done | apply updates_only_refl].
  - simpl in Hl. apply andb_prop in Hl as [Hr Hl].
    destruct stop; [discriminate|]. destruct r as [now line| | |]; try discriminate.
    destruct line as [| |event].
    1,2: destruct (IH st w Hl Hv) as (st1 & w1 & H1 & U1); by exists st1, w1.
    unfold valid_stream in Hv. simpl in Hv. apply andb_prop in Hv as [Hwf Hv].
    change (((false, ReadLine now (Json event)) :: pre) ++ rest)
      with ((false, ReadLine now (Json event)) :: (pre ++ rest)).
    rewrite read_stdout_json.
    destruct (read_event_spec cb now st event w)
      as (st0 & e0 & w0 & H0 & U0 & _ & _ & T0).
    destruct (T0 Hwf) as [-> _]. rewrite H0.
    destruct (IH st0 w0 Hl Hv) as (st1 & w1 & H1 & U1).
    exists st1, w1. split; [done | by eapply updates_only_trans].
Qed.

Lemma non_object_line_raises cmd ws cb w p rest pre now v post :
  procs w = p :: rest ->
  stdout p = pre ++ (false, ReadLine now (Json v)) :: post ->
  all_lines pre = true -> valid_stream pre = true ->
  is_object v = false -> stderr_end p <> ErrWallClock ->
  exists w' d,
    _run_claude_process cmd ws cb w = (Raise AttributeError, w')
    /\ Forall (fun e => is_update e = true) d
    /\ trace w' = trace w ++ [Spawn cmd ws] ++ d ++ [Kill; Wait].
Proof.
  intros Hp Hs Hl Hv Ho He.
  unfold _run_claude_process, _run_claude_process_inner.
  unfold mbind at 1. unfold M_bind at 1. unfold create_subprocess_exec at 1.
  rewrite Hp. unfold drain. unfold mbind at 1. unfold M_bind at 1. rewrite Hs.
  match goal with
  | |- context [read_stdout cb _ reader_init ?w0] =>
      destruct (read_stdout_lines cb pre ((false, ReadLine now (Json v)) :: post)
                  reader_init w0 Hl Hv)
        as (st1 & w1 & H1 & (_ & _ & _ & _ & d & U5 & U6))
  end.
  rewrite H1, read_stdout_json. unfold read_event.
  assert (get v "type" JNull = Raise AttributeError) as -> by (by destruct v).
  cbv beta iota delta [mret M_ret].
  destruct (stderr_end p); [| |done];
    unfold mbind, M_bind, kill, emit, wait, raise; simpl;
    (eexists _, d; split; [reflexivity|]; split; [done|]);
    simpl in U5; simpl; rewrite U5, <- !app_assoc; done.
Qed.

(** A line of the process that parses as JSON but is no object (a number,
    a string, a list, [null]) fails the whole request: the process is
    killed and waited on, and the response carries no text and no created
    file, exit code -1 and an error that starts with the fixed prefix of an
    execution failure, whatever well-formed events the process printed
    before and whatever it would have printed after. *)
Theorem non_object_line_fails_the_request s a w p rest pre now v post :
  procs w = p :: rest -> fs w <> Some File ->
  stdout p = pre ++ (false, ReadLine now (Json v)) :: post ->
  all_lines pre = true -> valid_stream pre = true ->
  is_object v = false -> stderr_end p <> ErrWallClock ->
  let out := execute_claude s a w in
  out.1 = failure_response AttributeError
  /\ text out.1 = JStr "" /\ created_files out.1 = [] /\ exit_code out.1 = -1
  /\ (exists msg, error out.1 = Some ("Failed to execute Claude CLI: " +:+ msg))
  /\ exists cmd d,
       Forall (fun e => is_update e = true) d
       /\ trace out.2
          = trace w ++ [Spawn cmd (user_workspace s a)] ++ d ++ [Kill; Wait].
Proof.
  intros Hp Hfs Hs Hl Hv Ho He out. subst out.
  destruct (execute_claude s a w) as [resp w2] eqn:H.
  unfold execute_claude, execute_claude_body in H.
  unfold mbind at 1 in H. unfold M_bind at 1 in H.
  assert (exists w0, mkdir w = (Ok tt, w0) /\ procs w0 = procs w
                     /\ trace w0 = trace w) as (w0 & Hm & Hp0 & Ht0).
  { unfold mkdir. destruct (fs w) as [[|entries]|]; [done| |]; eexists; done. }
  rewrite Hm in H. unfold mbind at 1 in H. unfold M_bind at 1 in H.
  unfold snapshot at 1 in H. unfold mbind at 1 in H. unfold M_bind at 1 in H.
  match type of H with
  | context [_run_claude_process ?cmd ?ws ?cb w0] =>
      destruct (non_object_line_raises cmd ws cb w0 p rest pre now v post)
        as (w' & d & Hrun & Hd & Htr); [congruence|done..|];
      rewrite Hrun in H; injection H as <- <-; cbn [fst snd];
      do 4 (split; [reflexivity|]); split; [by eexists|]; exists cmd, d
  end.
  split; [done|]. by rewrite Htr, Ht0.
Qed.

Lemma non_object_line_fails_the_request_witness :
  (execute_claude demo_settings demo_args (world_of [p_number] None)).1
  = failure_response AttributeError.
Proof.
  apply (non_object_line_fails_the_request demo_settings demo_args
           (world_of [p_number] None) p_number []
           [(false, ReadLine 100 (Json (assistant_event [text_block "Hi"])))]
           101 (JNum 42)
           [(false, ReadLine 102 (Json (result_event false [] [])))]);
    done.
Defined.

(** *** The files a call reports *)

Lemma resume_return_files s a ws n lp w r w' :
  resume s a ws n lp w = (Ok (Return r), w') -> created_files r = [].
Proof.
  unfold resume. intros H.
  apply M_bind_Ok in H as (approved & w1 & _ & H).
  apply M_bind_Ok in H as (run & w2 & _ & H).
  destruct (run_was_stopped run); cbv beta delta [mret M_ret] in H.
  - by injection H as <- _.
  - discriminate H.
Qed.

Lemma retry_loop_return_files s a ws retries : forall lp w r w',
  retry_loop s a ws retries lp w = (Ok (inr r), w') -> created_files r = [].
Proof.
  induction retries as [|retries IH]; intros lp w r w' H; simpl in H.
  { discriminate H. }
  apply M_bind_Ok in H as (st & w1 & Hst & H).
  destruct st as [|lp1|r1].
  - discriminate H.
  - by eapply IH.
  - cbv beta delta [mret M_ret] in H. injection H as <- _.
    unfold retry_iteration in Hst.
    apply M_bind_Ok in Hst as (denials & w2 & _ & Hst).
    destruct (truthy denials); simpl in Hst; [|discriminate Hst].
    apply M_bind_Ok in Hst as (n & w3 & _ & Hst).
    destruct (breaks n); [discriminate Hst|].
    by eapply resume_return_files.
Qed.

Lemma execute_claude_early s a w resp w' :
  execute_claude s a w = (resp, w') -> tool_actions resp = None ->
  created_files resp = [].
Proof.
  unfold execute_claude. intros H Hta.
  destruct (execute_claude_body s a w) as [[r|e] w2] eqn:Hb;
    injection H as <- <-; [|done].
  unfold execute_claude_body in Hb.
  apply M_bind_Ok in Hb as ([] & w0 & Hm & Hb).
  apply M_bind_Ok in Hb as (fb & w1 & Hs & Hb).
  apply M_bind_Ok in Hb as (run & w3 & _ & Hb).
  destruct (run_was_stopped run).
  { cbv beta delta [mret M_ret] in Hb. by injection Hb as <- _. }
  match type of Hb with
  | (if ?c then _ else _) _ = _ => destruct c
  end.
  { apply M_bind_Ok in Hb as (rt & w4 & _ & Hb).
    cbv beta delta [mret M_ret] in Hb. by injection Hb as <- _. }
  apply M_bind_Ok in Hb as (l & w4 & Hl & Hb).
  destruct l as [lp|response].
  - apply finish_created in Hb as (_ & [ta Hs'] & _). congruence.
  - cbv beta delta [mret M_ret] in Hb. injection Hb as <- _.
    by eapply retry_loop_return_files.
Qed.

(** Whatever way a call ends, it reports no file that was in the workspace
    before it, no file that is not there after it, and no file the filter
    excludes; a call that reports a file is one that reached its final
    return. *)
Theorem reported_files_are_new s a w f :
  let out := execute_claude s a w in
  let ws := user_workspace s a in
  f ∈ created_files out.1 ->
  f ∈ get_workspace_files ws (fs out.2)
  /\ (f ∉ get_workspace_files ws (fs w))
  /\ keep_created f = true
  /\ is_Some (tool_actions out.1).
Proof.
  intros out ws Hf. subst out.
  destruct (execute_claude s a w) as [resp w'] eqn:H. simpl in *.
  destruct (tool_actions resp) as [ta|] eqn:Hta.
  - pose proof (execute_claude_final s a w resp w' H) as Hc.
    rewrite Hta in Hc. specialize (Hc (ltac:(by eexists))).
    fold ws in Hc. rewrite Hc in Hf.
    apply list_elem_of_In, List.filter_In in Hf as [Hin Hk].
    apply list_elem_of_In, elem_of_elements, elem_of_difference in Hin as [H1 H2].
    repeat split; try done; by eexists.
  - rewrite (execute_claude_early s a w resp w' H Hta) in Hf.
    by apply elem_of_nil in Hf.
Qed.

Lemma reported_files_are_new_witness :
  let out := execute_claude demo_settings demo_args (world_of [p_writes_out] fs_before) in
  let f := user_workspace demo_settings demo_args ++ ["out.txt"] in
  f ∈ get_workspace_files (user_workspace demo_settings demo_args) (fs out.2)
  /\ (f ∉ get_workspace_files (user_workspace demo_settings demo_args) fs_before).
Proof.
  destruct (reported_files_are_new demo_settings demo_args
              (world_of [p_writes_out] fs_before)
              (user_workspace demo_settings demo_args ++ ["out.txt"]))
    as (H1 & H2 & _).
  - vm_compute. left.
  - split; [exact H1 | exact H2].
Defined.

(** *** A first run that fails *)

Lemma get_result_text_wf events :
  forallb wf_event events = true -> exists r, _get_result_text events = Ok r.
Proof.
  induction events as [|e events IH]; intros Hwf; [by eexists|].
  simpl in Hwf. apply andb_prop in Hwf as [He Hwf].
  destruct e as [| | | | |kvs]; try discriminate.
  cbn [_get_result_text]. rewrite !get_obj. cbn [mbind Res_bind].
  destruct (is_str _ "result"); [by eexists | by apply IH].
Qed.

(** When the first run ends with an error and an exit code that is not
    zero, the request ends there: one process was spawned and no other is,
    neither the user's permission nor an answer is asked for, whatever
    denials the result event lists, and the response carries the error and
    the exit code of the run, its result text or else the text it
    accumulated, and no created file, whatever the process wrote. *)
Theorem failed_first_run_is_not_negotiated s a w p rest e :
  procs w = p :: rest -> fs w <> Some File ->
  valid_stream (stdout p) = true ->
  run_was_stopped (scripted_result p) = false ->
  run_error (scripted_result p) = Some e -> e <> "" ->
  run_exit_code (scripted_result p) <> 0 ->
  let out := execute_claude s a w in
  created_files out.1 = []
  /\ exit_code out.1 = run_exit_code (scripted_result p)
  /\ error out.1 = Some e
  /\ tool_actions out.1 = None
  /\ (exists r, _get_result_text (consumed (stdout p)) = Ok r
                /\ text out.1 = or_else r (JStr (stream_text (consumed (stdout p)))))
  /\ procs out.2 = rest
  /\ exists cmd d,
       Forall (fun e => is_update e = true) d
       /\ trace out.2
          = trace w ++ [Spawn cmd (user_workspace s a)] ++ d
            ++ closing (on_output_update a) p.
Proof.
  intros Hp Hfs Hv Hst Herr Hne Hex out. subst out.
  destruct (execute_claude s a w) as [resp w2] eqn:H.
  unfold execute_claude, execute_claude_body in H.
  unfold mbind at 1 in H. unfold M_bind at 1 in H.
  assert (exists w0, mkdir w = (Ok tt, w0) /\ procs w0 = procs w
                     /\ trace w0 = trace w) as (w0 & Hm & Hp0 & Ht0).
  { unfold mkdir. destruct (fs w) as [[|entries]|]; [done| |]; eexists; done. }
  rewrite Hm in H. unfold mbind at 1 in H. unfold M_bind at 1 in H.
  unfold snapshot at 1 in H. unfold mbind at 1 in H. unfold M_bind at 1 in H.
  destruct (get_result_text_wf (consumed (stdout p)) Hv) as (r & Hr).
  match type of H with
  | context [_run_claude_process ?cmd ?ws ?cb w0] =>
      destruct (run_valid cmd ws cb w0 p rest)
        as (w' & d & Hrun & Hpr & _ & _ & _ & Hd & Htr); [congruence|done|];
      unfold _run_claude_process in H; rewrite Hrun in H;
      rewrite Hst, Herr in H;
      assert ((negb (String.eqb e "") && negb (run_exit_code (scripted_result p) =? 0))
              = true) as Hc
        by (apply andb_true_iff; split; apply negb_true_iff;
            [by apply eqb_empty_false | by apply Z.eqb_neq]);
      rewrite Hc in H;
      assert (run_events (scripted_result p) = consumed (stdout p)) as Hev
        by (unfold scripted_result; destruct (wall_clock_expires p); [done|];
            by destruct (read_end (stdout p)));
      assert (run_text (scripted_result p) = stream_text (consumed (stdout p))) as Htx
        by (unfold scripted_result; destruct (wall_clock_expires p); [done|];
            by destruct (read_end (stdout p)));
      rewrite Hev, Htx in H;
      unfold mbind, M_bind, lift in H; rewrite Hr in H;
      injection H as <- <-; cbn [fst snd created_files exit_code error tool_actions text];
      do 4 (split; [done|]); split; [by exists r|]; split; [done|]; exists cmd, d
  end.
  split; [done|]. by rewrite Htr, Ht0.
Qed.

Lemma failed_first_run_is_not_negotiated_witness :
  let out := execute_claude demo_settings demo_args
               (world_of [p_denied_then_failed; p_hello] None) in
  created_files out.1 = [] /\ exit_code out.1 = 1
  /\ error out.1 = Some "quota exceeded" /\ procs out.2 = [p_hello].
Proof.
  destruct (failed_first_run_is_not_negotiated demo_settings demo_args
              (world_of [p_denied_then_failed; p_hello] None)
              p_denied_then_failed [p_hello] "quota exceeded")
    as (H1 & H2 & H3 & _ & _ & H6 & _); try done.
Defined.

(** *** What the user is asked to approve *)

Lemma filterM_Ok {A} (f : A -> Res bool) l l' :
  filterM f l = Ok l' -> Forall (fun x => f x = Ok true /\ x ∈ l) l'.
Proof.
  revert l'. induction l as [|x l IH]; intros l' H.
  - injection H as <-. constructor.
  - simpl in H. apply Res_bind_Ok in H as (b & Hb & H).
    apply Res_bind_Ok in H as (ys & Hys & H). injection H as <-.
    specialize (IH ys Hys).
    assert (Forall (fun y => f y = Ok true /\ y ∈ x :: l) ys) as IH'.
    { eapply Forall_impl; [exact IH|]. intros y [? ?]. split; [done | by right]. }
    destruct b; [|done]. constructor; [|done]. split; [done | by left].
Qed.

Lemma emits_only_lift_bind {A B} P (r : Res A) (f : A -> M B) :
  (forall x, r = Ok x -> emits_only P (f x)) -> emits_only P (lift r ≫= f).
Proof.
  intros H w. unfold mbind, M_bind, lift. destruct r as [x|e].
  - by apply H.
  - exists []. simpl. by rewrite app_nil_r.
Qed.

Lemma emits_only_updates {A} P (c : M A) :
  (forall t, P (OutputUpdate t) = true) ->
  emits_only is_update c -> emits_only P c.
Proof.
  intros HP. apply emits_only_weaken. intros [] He; try discriminate. apply HP.
Qed.

Lemma request_permissions_presentable a ods qat :
  Forall (fun d => is_str (default JNull (field d "tool_name")) "AskUserQuestion"
                   = false) ods ->
  emits_only asks_presentable (request_permissions a ods qat).
Proof.
  intros Hq. unfold request_permissions.
  apply emits_only_lift_bind. intros real Hreal.
  apply filterM_Ok in Hreal.
  assert (Hp : forallb presentable real = true).
  { apply forallb_forall. intros d Hd. apply list_elem_of_In in Hd.
    rewrite Forall_forall in Hreal, Hq.
    destruct (Hreal d Hd) as [Hf Hin]. specialize (Hq d Hin).
    unfold presentable. destruct d as [| | | | |kvs]; try discriminate.
    simpl in *. destruct (default JNull (assoc "tool_name" kvs)) as [| | |n| |];
      try done.
    simpl in Hf, Hq. injection Hf as Hf. apply negb_true_iff in Hf.
    by rewrite Hf, Hq. }
  emits.
  all: try (apply emits_only_call_permission; simpl; by rewrite ?Hp).
Qed.

Lemma negotiate_presentable a denials :
  emits_only asks_presentable (negotiate a denials).
Proof.
  unfold negotiate.
  apply emits_only_lift_bind. intros ds _.
  apply emits_only_lift_bind. intros qds _.
  apply emits_only_lift_bind. intros ods Hods.
  apply emits_only_bind.
  - unfold ask_question. emits.
  - intros qat. apply request_permissions_presentable.
    apply filterM_get in Hods. subst ods.
    apply Forall_forall. intros d Hd. apply list_elem_of_In, filter_In in Hd as [_ Hd].
    by apply negb_true_iff in Hd.
Qed.

Lemma read_stdout_updates cb reads st : emits_only is_update (read_stdout cb reads st).
Proof.
  intros w. destruct (read_stdout_spec cb reads st w)
    as (st' & e & w' & H & (_ & _ & _ & _ & d & Hd & Fd) & _).
  rewrite H. by exists d.
Qed.

Lemma flush_output_updates cb text : emits_only is_update (flush_output cb text).
Proof.
  intros w. destruct (flush_output_spec cb text w) as (w' & H & _ & _ & _ & _ & Ht).
  rewrite H. exists (flushed cb text). split; [done|].
  unfold flushed. destruct cb; [|done]. destruct (String.eqb text ""); [done|].
  by repeat constructor.
Qed.

Lemma run_presentable cmd ws cb :
  emits_only asks_presentable (_run_claude_process cmd ws cb).
Proof.
  unfold _run_claude_process, _run_claude_process_inner.
  apply emits_only_bind.
  - intros w. unfold create_subprocess_exec. destruct (procs w).
    + exists []. simpl. by rewrite app_nil_r.
    + eexists [_]. simpl. split; [done|]. by repeat constructor.
  - intros p. unfold drain.
    apply emits_only_bind.
    { apply emits_only_updates; [done | apply read_stdout_updates]. }
    intros [st e].
    assert (emits_only asks_presentable (flush_output cb (accumulated_text st))).
    { apply emits_only_updates; [done | apply flush_output_updates]. }
    emits; done.
Qed.

Lemma retry_loop_presentable s a ws retries : forall lp,
  emits_only asks_presentable (retry_loop s a ws retries lp).
Proof.
  induction retries as [|n IH]; intros lp; cbn [retry_loop]; [apply emits_only_ret|].
  apply emits_only_bind.
  - unfold retry_iteration. apply emits_only_lift_bind. intros denials _.
    destruct (negb (truthy denials)); [apply emits_only_ret|].
    apply emits_only_bind; [apply negotiate_presentable|]. intros n0.
    destruct (breaks n0); [apply emits_only_ret|].
    unfold resume. apply emits_only_bind; [destruct (approved_tools n0); emits|].
    intros tools. lazy zeta.
    apply emits_only_bind; [apply run_presentable|]. intros r.
    destruct (run_was_stopped r); apply emits_only_ret.
  - intros [| lp' | r]; [apply emits_only_ret | apply IH | apply emits_only_ret].
Qed.

(** The user is never asked to approve a tool that is approved without
    asking, nor the question tool, and is never shown an empty request:
    throughout a call, every list of denials passed to the permission
    callback is not empty and names none of these tools. *)
Theorem only_real_denials_are_shown s a w :
  exists d,
    trace (execute_claude s a w).2 = trace w ++ d
    /\ Forall (fun e => asks_presentable e = true) d.
Proof.
  assert (H : emits_only asks_presentable (execute_claude_body s a)).
  { unfold execute_claude_body. lazy zeta.
    apply emits_only_bind; [apply emits_only_mkdir|]. intros _.
    apply emits_only_bind; [apply emits_only_snapshot|]. intros files_before.
    apply emits_only_bind; [apply run_presentable|]. intros r.
    destruct (run_was_stopped r); [apply emits_only_ret|].
    match goal with |- emits_only _ (if ?c then _ else _) => destruct c end.
    - emits.
    - apply emits_only_bind; [apply retry_loop_presentable|].
      intros [lp|resp]; [|apply emits_only_ret].
      unfold finish. emits. }
  destruct (H w) as (d & Hd & Fd). exists d. split; [|done].
  unfold execute_claude. by destruct (execute_claude_body s a w) as [[r|e] w'].
Qed.

End ExecutorFacts.

(** ** The handlers *)

Module HandlersFacts.
Import Handlers.
Import ExecutorFacts.

(** *** Counting code points *)

Lemma length_codepoints_aux (s : string) : forall cur,
  List.length (codepoints_aux cur s)
  = (starts s + (if String.eqb cur "" then (if aligned s then 0 else 1) else 1))%nat.
Proof.
  induction s as [|c s IH]; intros cur.
  - simpl. by destruct cur.
  - cbn [codepoints_aux starts aligned]. destruct (is_continuation c) eqn:Hc.
    + rewrite IH. destruct cur; simpl; lia.
    + destruct cur; simpl; rewrite IH; simpl; lia.
Qed.

Lemma str_len_starts (s : string) :
  str_len s = (starts s + (if aligned s then 0 else 1))%nat.
Proof. unfold str_len, codepoints. by rewrite length_codepoints_aux. Qed.

Lemma starts_app (a b : string) : starts (a +:+ b) = (starts a + starts b)%nat.
Proof.
  induction a as [|c a IH]; [by rewrite append_empty_l|].
  rewrite append_cons. simpl. rewrite IH. lia.
Qed.

(** Joining two strings never makes more code points than they have. *)
Lemma str_len_app_le (a b : string) : (str_len (a +:+ b) <= str_len a + str_len b)%nat.
Proof.
  rewrite !str_len_starts, starts_app. destruct a as [|c a].
  - rewrite append_empty_l. simpl. lia.
  - rewrite append_cons. simpl. destruct (is_continuation c), (aligned b); simpl; lia.
Qed.

Lemma str_len_app_aligned (a b : string) :
  aligned b = true -> str_len (a +:+ b) = (str_len a + str_len b)%nat.
Proof.
  intros Hb. rewrite !str_len_starts, starts_app, Hb. destruct a as [|c a].
  - rewrite append_empty_l. simpl. rewrite Hb. lia.
  - rewrite append_cons. simpl. lia.
Qed.

Lemma one_codepoint_snoc cp c :
  one_codepoint cp -> is_continuation c = true ->
  one_codepoint (cp +:+ String c EmptyString).
Proof.
  destruct cp as [|c0 t]; [done|]. rewrite append_cons. cbn [one_codepoint].
  intros Ht Hc. rewrite starts_app, Ht. simpl. by rewrite Hc.
Qed.

Lemma codepoints_aux_one (s : string) : forall cur,
  cur = "" \/ one_codepoint cur -> Forall one_codepoint (codepoints_aux cur s).
Proof.
  induction s as [|c s IH]; intros cur Hcur.
  - simpl. destruct cur; [constructor|]. destruct Hcur as [|Hcur]; [done|].
    by repeat constructor.
  - cbn [codepoints_aux]. destruct (is_continuation c) eqn:Hc.
    + apply IH. right. destruct Hcur as [->|Hcur].
      * by rewrite append_empty_l.
      * by apply one_codepoint_snoc.
    + assert (Forall one_codepoint (codepoints_aux (String c "") s))
        by (apply IH; by right).
      destruct cur; [done|]. destruct Hcur as [|Hcur]; [done|]. by constructor.
Qed.

Lemma str_len_one cp : one_codepoint cp -> str_len cp = 1%nat.
Proof.
  destruct cp as [|c t]; [done|]. simpl. intros Ht.
  rewrite str_len_starts. simpl. rewrite Ht. destruct (is_continuation c); simpl; lia.
Qed.

Lemma str_len_concat_le (l : list string) :
  Forall one_codepoint l -> (str_len (String.concat "" l) <= List.length l)%nat.
Proof.
  induction 1 as [|cp l Hcp _ IH]; [by vm_compute|].
  rewrite concat_empty_cons. etrans; [apply str_len_app_le|].
  rewrite (str_len_one cp Hcp). simpl. lia.
Qed.

(** A slice [s[:n]] holds [n] code points at most. *)
Lemma str_len_take_le n (s : string) : (str_len (str_take n s) <= n)%nat.
Proof.
  unfold str_take. etrans.
  - apply str_len_concat_le. apply Forall_take. apply codepoints_aux_one. by left.
  - rewrite length_take. lia.
Qed.

(** *** The status message *)

Lemma display_text_le text :
  (str_len (display_text text) <= TELEGRAM_MAX_MESSAGE_LENGTH - 100 + 27)%nat.
Proof.
  unfold display_text.
  destruct (TELEGRAM_MAX_MESSAGE_LENGTH - 100 <? str_len text)%nat eqn:Hlen.
  - etrans; [apply str_len_app_le|].
    pose proof (str_len_take_le (TELEGRAM_MAX_MESSAGE_LENGTH - 100) text).
    assert (str_len (nl +:+ nl +:+ MSG_TO_BE_CONTINUED) = 27%nat)
      by (vm_compute; reflexivity).
    lia.
  - apply Nat.ltb_ge in Hlen. lia.
Qed.

(** Every edit of the status message holds at most
    [TELEGRAM_MAX_MESSAGE_LENGTH] characters, however long the accumulated
    text is, and a text that was just shown is not sent again. *)
Theorem status_edit_fits_the_limit text last_text :
  Forall (fun act => match act with
                     | EditMessageText t => (str_len t <= TELEGRAM_MAX_MESSAGE_LENGTH)%nat
                     | _ => True
                     end) (update_callback text last_text).1
  /\ update_callback text (update_callback text last_text).2 = ([], text).
Proof.
  unfold update_callback. split.
  - destruct (String.eqb text last_text); [constructor|].
    constructor; [|constructor]. simpl.
    etrans; [apply str_len_app_le|].
    assert (str_len MSG_PROCESSING = 23%nat) as -> by (vm_compute; reflexivity).
    etrans; [apply Nat.add_le_mono_l, str_len_app_le|].
    etrans; [apply Nat.add_le_mono_l, Nat.add_le_mono_l, str_len_app_le|].
    pose proof (display_text_le text).
    assert (str_len nl = 1%nat) as -> by (vm_compute; reflexivity).
    assert (TELEGRAM_MAX_MESSAGE_LENGTH = 4096%nat) as Hmax by reflexivity.
    rewrite Hmax in *. lia.
  - destruct (String.eqb text last_text) eqn:E; simpl.
    + apply String.eqb_eq in E. subst last_text. by rewrite String.eqb_refl.
    + by rewrite String.eqb_refl.
Qed.

(** *** The messages of a permission request *)




(** *** The permission buttons *)

Lemma concat_codepoints_aux (s : string) : forall cur,
  String.concat "" (codepoints_aux cur s) = cur +:+ s.
Proof.
  induction s as [|c s IH]; intros cur.
  - simpl. destruct cur; [done|]. simpl. by rewrite !append_empty_r.
  - cbn [codepoints_aux]. destruct (is_continuation c).
    + rewrite IH, append_assoc. by rewrite append_cons, append_empty_l.
    + destruct cur.
      * by rewrite IH, append_cons, !append_empty_l.
      * rewrite concat_empty_cons, IH. by rewrite !append_cons, append_empty_l.
Qed.

Lemma codepoints_aux_app (a b : string) : forall cur,
  aligned b = true ->
  codepoints_aux cur (a +:+ b) = codepoints_aux cur a ++ codepoints b.
Proof.
  induction a as [|c a IH]; intros cur Hb.
  - rewrite append_empty_l. destruct b as [|c b].
    + simpl. by rewrite app_nil_r.
    + simpl in Hb. apply negb_true_iff in Hb. unfold codepoints.
      cbn [codepoints_aux]. rewrite Hb. by destruct cur.
  - rewrite append_cons. cbn [codepoints_aux].
    destruct (is_continuation c); [by apply IH|].
    destruct cur; [by apply IH|]. simpl. f_equal. by apply IH.
Qed.

Lemma str_drop_app (a b : string) :
  aligned b = true -> str_drop (str_len a) (a +:+ b) = b.
Proof.
  intros Hb. unfold str_drop, str_len, codepoints.
  rewrite codepoints_aux_app by done. rewrite drop_app_length.
  unfold codepoints. by rewrite concat_codepoints_aux, append_empty_l.
Qed.

Lemma startswith_app (p s : string) : startswith p (p +:+ s) = true.
Proof.
  unfold startswith. induction p as [|c p IH]; [by destruct s|].
  rewrite append_cons. simpl. by destruct (ascii_dec c c).
Qed.

(** The two buttons of a permission request act on that request: a press
    of the allowed user on the approve button of the request [rid]
    resolves [rid] as approved, a press on its deny button resolves it as
    denied, and nothing else is resolved; a press by anyone else, and a
    press that cannot be acknowledged, leave the manager as it is. *)
Theorem permission_buttons_resolve_their_request user rid text edited m :
  aligned rid = true ->
  let press d :=
    permission_button_callback user
      {| from_username := Some user; data := d; message_text := text |}
      Delivered edited m in
  (press (approve_data rid)).2 = (PermissionManager.resolve rid true m).2
  /\ (press (deny_data rid)).2 = (PermissionManager.resolve rid false m).2
  /\ (forall q answered, from_username q <> Some user ->
        (permission_button_callback user q answered edited m).2 = m)
  /\ (forall q e, (permission_button_callback user q (Fails e) edited m).2 = m).
Proof.
  intros Hrid press. subst press. unfold permission_button_callback.
  cbn [from_username data]. rewrite bool_decide_eq_true_2 by done. cbn [negb].
  split; [|split; [|split]].
  - unfold approve_data. rewrite startswith_app, str_drop_app by done.
    by destruct (PermissionManager.resolve rid true m).
  - unfold deny_data.
    assert (startswith "perm_approve_" ("perm_deny_" +:+ rid) = false) as ->
      by reflexivity.
    rewrite startswith_app, str_drop_app by done.
    by destruct (PermissionManager.resolve rid false m).
  - intros q answered Hq. by rewrite bool_decide_eq_false_2.
  - intros q e. by destruct (negb _).
Qed.

Lemma permission_buttons_resolve_their_request_witness :
  (permission_button_callback "alice"
     {| from_username := Some "alice"; data := "perm_approve_r1";
        message_text := Some "Bash: ls" |}
     Delivered Delivered PermissionManager.m_bash).2
  = (PermissionManager.resolve "r1" true PermissionManager.m_bash).2.
Proof.
  apply (permission_buttons_resolve_their_request "alice" "r1" (Some "Bash: ls")
           Delivered PermissionManager.m_bash).
  reflexivity.
Defined.

(** *** Free-text answers *)

(** A text message is taken as the answer to a question at most once: it
    is handled only while the chat waits for a free text, and the handler
    clears the wait before it records the answer, so the next text of the
    chat is not handled, whatever the reply to the first one did.  The
    wait outlives its request: after the request was cancelled, the next
    text of the chat is still consumed as an answer and acknowledged, and
    no answer is recorded. *)
Theorem free_text_answer_is_consumed_once chat rid qi text1 text2 r1 r2 m :
  let m1 := (question_text_handler chat text1 r1 m).2 in
  question_text_handler chat text2 r2 m1 = ([], Returned false, m1)
  /\ (let stale := QuestionManager.cancel rid
                     (QuestionManager.set_awaiting_text chat rid qi m) in
      question_text_handler chat text1 Delivered stale
      = ([ReplyText ("✅ Ответ принят: " +:+ text1)], Returned true,
         QuestionManager.clear_awaiting_text chat stale)).
Proof.
  intros m1.
  assert (Hnone : QuestionManager.get_awaiting_text chat m1 = None).
  { subst m1. unfold question_text_handler, QuestionManager.get_awaiting_text.
    destruct (QuestionManager._awaiting_text m !! chat) as [[rid' qi']|] eqn:E;
      cbn [snd]; [|done].
    unfold QuestionManager.set_answer. cbn.
    destruct (QuestionManager._pending m !! rid'); cbn.
    + destruct (_ && _); cbn; apply lookup_delete_eq.
    + apply lookup_delete_eq. }
  split.
  - unfold question_text_handler. by rewrite Hnone.
  - cbn zeta.
    assert (Hnp : QuestionManager._pending
                    (QuestionManager.cancel rid
                       (QuestionManager.set_awaiting_text chat rid qi m)) !! rid = None).
    { unfold QuestionManager.cancel. cbn.
      destruct (QuestionManager._pending m !! rid) eqn:E; cbn; [|done].
      destruct (done _); cbn; apply lookup_delete_eq. }
    assert (Haw : QuestionManager.get_awaiting_text chat
                    (QuestionManager.cancel rid
                       (QuestionManager.set_awaiting_text chat rid qi m))
                  = Some (rid, qi)).
    { unfold QuestionManager.cancel, QuestionManager.get_awaiting_text. cbn.
      destruct (QuestionManager._pending m !! rid); cbn;
        [destruct (done _); cbn|]; apply lookup_insert_eq. }
    unfold question_text_handler. rewrite Haw.
    unfold QuestionManager.set_answer. cbn [QuestionManager._pending
      QuestionManager.clear_awaiting_text]. by rewrite Hnp.
Qed.

End HandlersFacts.
